(** * ASDF pixel sort: the sorting engine of [utils/pixelSort.js]

    A shallow embedding of the class [PixelSorter] and a verification of
    the properties its specification states.

    Conventions of the embedding.
    - A JavaScript integer is a [Z]; an [Int32Array] is a [list Z] whose
      entries are signed 32-bit values; a [Uint8ClampedArray] is a [list Z]
      whose entries lie in 0..255.
    - Reading a typed array outside its bounds gives [undefined], which is
      [None] here; writing outside its bounds does nothing.
    - A [while] loop is a fixpoint on a fuel counter and gives [None] when
      the fuel runs out; the termination theorems show how much is enough.
    - The progress callback is a log of its invocations; the percentages
      are kept as exact rationals. *)

From Stdlib Require Import ZArith QArith Uint63 Floats.PrimFloat Floats.FloatOps Floats.SpecFloat.
From stdpp Require Import base tactics option list numbers sorting strings.
From coqutil Require Import Z.bitblast.

#[local] Open Scope Z_scope.

(** ** JavaScript primitives *)

Module JS.

(** [ToInt32]: wrap an integer into the signed 32-bit range. *)
Definition ToInt32 (z : Z) : Z := (z + 2 ^ 31) `mod` 2 ^ 32 - 2 ^ 31.

(** Bitwise operators work on the 32-bit wrap of their operands;
    [>>] propagates the sign. *)
Definition shl (a n : Z) : Z := ToInt32 (Z.shiftl (ToInt32 a) n).
Definition sar (a n : Z) : Z := Z.shiftr (ToInt32 a) n.
Definition bor (a b : Z) : Z := Z.lor (ToInt32 a) (ToInt32 b).
Definition band (a b : Z) : Z := Z.land (ToInt32 a) (ToInt32 b).

(** An operand that may be [undefined]: in a bitwise operator
    [undefined] counts as 0. *)
Definition int_of (v : option Z) : Z := default 0 v.

(** [a < b] and [a > b] with a left operand that may be [undefined]:
    both are false on [undefined]. *)
Definition lt (a : option Z) (b : Z) : bool :=
  match a with Some a => a <? b | None => false end.
Definition gt (a : option Z) (b : Z) : bool :=
  match a with Some a => b <? a | None => false end.

(** [arr[i]] on a typed array. *)
Definition read (arr : list Z) (i : Z) : option Z :=
  if i <? 0 then None else arr !! Z.to_nat i.

(** [arr[i] = v] on a typed array: no effect outside the bounds. *)
Definition write (arr : list Z) (i : Z) (v : Z) : list Z :=
  if i <? 0 then arr else <[Z.to_nat i := v]> arr.

(** The value a [Uint8ClampedArray] stores for an integer. *)
Definition clamp8 (v : Z) : Z := Z.max 0 (Z.min 255 v).

(** [Math.round] of a double: the nearest integer, a tie going up.
    The double is decoded exactly; infinities and NaN do not occur for
    the sums of [getBrightness] and are sent to 0. *)
Definition round (f : float) : Z :=
  match Prim2SF f with
  | S754_finite s m e =>
      let n := if s then Z.neg m else Z.pos m in
      if 0 <=? e then n * 2 ^ e else (2 * n + 2 ^ (- e)) `div` 2 ^ (1 - e)
  | _ => 0
  end.

(** The double of a small non-negative integer. *)
Definition number (z : Z) : float := of_uint63 (Uint63.of_Z z).

(** [Array.prototype.sort((a, b) => a - b)] on an array of 32-bit
    integers with holes: the numbers in ascending order, then every
    [undefined]. *)
Definition sort (l : list (option Z)) : list (option Z) :=
  (Some <$> merge_sort Z.le (omap id l))
    ++ replicate (length (filter (λ v, v = None) l)) None.

End JS.

(** ** Data model *)

(** The four sorting modes, numbered 0 to 3 in the source; the [switch]
    of [sortRow] and [sortColumn] has no other case.  A call with another
    number is outside the embedding: the [switch] then leaves [x] and
    [xEnd] as they are, and the loop of a line of more than one pixel
    does not end. *)
Inductive mode := White | Black | Bright | Dark.

(** The fields of a [PixelSorter]. *)
Record PixelSorter := {
  whiteValue : Z;
  blackValue : Z;
  brightValue : Z;
  darkValue : Z
}.

(** The constructor. *)
Definition newPixelSorter : PixelSorter :=
  {| whiteValue := -12345678; blackValue := -3456789;
     brightValue := 127; darkValue := 223 |}.

Definition setThresholds (whiteValue blackValue brightValue darkValue : Z)
  : PixelSorter :=
  Build_PixelSorter whiteValue blackValue brightValue darkValue.

(** A canvas [ImageData]: [data] holds four bytes per pixel, row by row;
    [width] and [height] are unsigned.  An object with a negative width
    or height is not an [ImageData]; what [sortImage] does with one is
    the matter of the module [AnySize] below. *)
Record ImageData := {
  width : nat;
  height : nat;
  data : list Z
}.

(** What a canvas guarantees of an [ImageData]. *)
Definition is_byte (v : Z) : Prop := 0 ≤ v ≤ 255.

Record ImageData_wf (img : ImageData) : Prop := {
  wf_width : (1 ≤ width img)%nat;
  wf_height : (1 ≤ height img)%nat;
  wf_length : length (data img) = (width img * height img * 4)%nat;
  wf_bytes : Forall is_byte (data img)
}.

(** ** Conversions *)

(** One entry of the working buffer, from the three colour bytes. *)
Definition packRGB (r g b : option Z) : Z :=
  JS.bor (JS.bor (JS.bor (JS.shl (JS.int_of r) 16) (JS.shl (JS.int_of g) 8))
                 (JS.int_of b))
         4278190080.

Definition convertToRGB (pixels : list Z) (width height : nat) : list Z :=
  (λ i : nat, packRGB (pixels !! (i * 4)%nat) (pixels !! (i * 4 + 1)%nat)
                      (pixels !! (i * 4 + 2)%nat))
    <$> seq 0 (width * height).

Definition red (color : Z) : Z := JS.band (JS.sar color 16) 255.
Definition green (color : Z) : Z := JS.band (JS.sar color 8) 255.
Definition blue (color : Z) : Z := JS.band color 255.

(** The body of the loop of [convertToRGBA] for pixel [i]. *)
Definition convertToRGBA_body (originalPixels : list Z)
    (rgbaPixels : list Z) (ic : nat * Z) : list Z :=
  let '(i, color) := ic in
  let rgbaPixels := <[(i * 4)%nat := JS.clamp8 (red color)]> rgbaPixels in
  let rgbaPixels := <[(i * 4 + 1)%nat := JS.clamp8 (green color)]> rgbaPixels in
  let rgbaPixels := <[(i * 4 + 2)%nat := JS.clamp8 (blue color)]> rgbaPixels in
  <[(i * 4 + 3)%nat :=
      JS.clamp8 (JS.int_of (originalPixels !! (i * 4 + 3)%nat))]> rgbaPixels.

Definition convertToRGBA (rgbPixels originalPixels : list Z) : list Z :=
  foldl (convertToRGBA_body originalPixels)
        (replicate (length originalPixels) 0)
        (zip (seq 0 (length rgbPixels)) rgbPixels).

(** ** Brightness *)

#[local] Set Warnings "-inexact-float".
Definition getBrightness (color : option Z) : Z :=
  let color := JS.int_of color in
  let r := red color in
  let g := green color in
  let b := blue color in
  JS.round (0.299 * JS.number r + 0.587 * JS.number g + 0.114 * JS.number b)%float.
#[local] Set Warnings "+inexact-float".
#[global] Arguments getBrightness : simpl never.

(** ** Run detection *)

(** How a scanning loop ends: its test failed at [x], or [x] reached the
    limit of the scanline. *)
Inductive scan_exit := Stopped (x : Z) | HitLimit.

(** The loop shared by the sixteen threshold functions:
    [while (test(x)) { x++; if (x >= limit) return ...; } return ...]. *)
Fixpoint scan (fuel : nat) (test : Z → bool) (limit x : Z) : option scan_exit :=
  match fuel with
  | O => None
  | S fuel =>
      if test x then
        let x := x + 1 in
        if limit <=? x then Some HitLimit else scan fuel test limit x
      else Some (Stopped x)
  end.

(** The two ways the functions return: [getFirstNone...] gives [x], or -1
    at the limit; [getNext...] gives [x - 1], or [limit - 1] at the limit. *)
Definition first_result (e : scan_exit) : Z :=
  match e with Stopped x => x | HitLimit => -1 end.
Definition next_result (limit : Z) (e : scan_exit) : Z :=
  match e with Stopped x => x - 1 | HitLimit => limit - 1 end.

Section threshold_functions.
Variable fuel : nat.
Variable this : PixelSorter.
Variable pixels : list Z.

(** [pixels[x + y * width]] *)
Definition at_xy (width x y : Z) : option Z := JS.read pixels (x + y * width).

(** White threshold functions for X axis *)
Definition getFirstNoneWhiteX (width x y : Z) : option Z :=
  first_result <$>
    scan fuel (λ x, JS.lt (at_xy width x y) (whiteValue this)) width x.
Definition getNextWhiteX (width x y : Z) : option Z :=
  let x := x + 1 in
  next_result width <$>
    scan fuel (λ x, JS.gt (at_xy width x y) (whiteValue this)) width x.

(** Black threshold functions for X axis *)
Definition getFirstNoneBlackX (width x y : Z) : option Z :=
  first_result <$>
    scan fuel (λ x, JS.gt (at_xy width x y) (blackValue this)) width x.
Definition getNextBlackX (width x y : Z) : option Z :=
  let x := x + 1 in
  next_result width <$>
    scan fuel (λ x, JS.lt (at_xy width x y) (blackValue this)) width x.

(** Bright threshold functions for X axis *)
Definition getFirstNoneBrightX (width x y : Z) : option Z :=
  first_result <$>
    scan fuel (λ x, getBrightness (at_xy width x y) <? brightValue this) width x.
Definition getNextBrightX (width x y : Z) : option Z :=
  let x := x + 1 in
  next_result width <$>
    scan fuel (λ x, brightValue this <? getBrightness (at_xy width x y)) width x.

(** Dark threshold functions for X axis *)
Definition getFirstNoneDarkX (width x y : Z) : option Z :=
  first_result <$>
    scan fuel (λ x, darkValue this <? getBrightness (at_xy width x y)) width x.
Definition getNextDarkX (width x y : Z) : option Z :=
  let x := x + 1 in
  next_result width <$>
    scan fuel (λ x, getBrightness (at_xy width x y) <? darkValue this) width x.

(** White threshold functions for Y axis *)
Definition getFirstNoneWhiteY (width height x y : Z) : option Z :=
  if y <? height then
    first_result <$>
      scan fuel (λ y, JS.lt (at_xy width x y) (whiteValue this)) height y
  else Some y.
Definition getNextWhiteY (width height x y : Z) : option Z :=
  let y := y + 1 in
  if y <? height then
    next_result height <$>
      scan fuel (λ y, JS.gt (at_xy width x y) (whiteValue this)) height y
  else Some (y - 1).

(** Black threshold functions for Y axis *)
Definition getFirstNoneBlackY (width height x y : Z) : option Z :=
  if y <? height then
    first_result <$>
      scan fuel (λ y, JS.gt (at_xy width x y) (blackValue this)) height y
  else Some y.
Definition getNextBlackY (width height x y : Z) : option Z :=
  let y := y + 1 in
  if y <? height then
    next_result height <$>
      scan fuel (λ y, JS.lt (at_xy width x y) (blackValue this)) height y
  else Some (y - 1).

(** Bright threshold functions for Y axis *)
Definition getFirstNoneBrightY (width height x y : Z) : option Z :=
  if y <? height then
    first_result <$>
      scan fuel (λ y, getBrightness (at_xy width x y) <? brightValue this) height y
  else Some y.
Definition getNextBrightY (width height x y : Z) : option Z :=
  let y := y + 1 in
  if y <? height then
    next_result height <$>
      scan fuel (λ y, brightValue this <? getBrightness (at_xy width x y)) height y
  else Some (y - 1).

(** Dark threshold functions for Y axis *)
Definition getFirstNoneDarkY (width height x y : Z) : option Z :=
  if y <? height then
    first_result <$>
      scan fuel (λ y, darkValue this <? getBrightness (at_xy width x y)) height y
  else Some y.
Definition getNextDarkY (width height x y : Z) : option Z :=
  let y := y + 1 in
  if y <? height then
    next_result height <$>
      scan fuel (λ y, getBrightness (at_xy width x y) <? darkValue this) height y
  else Some (y - 1).

(** The [switch (mode)] of [sortRow] and of [sortColumn]. *)
Definition firstX (m : mode) : Z → Z → Z → option Z :=
  match m with
  | White => getFirstNoneWhiteX | Black => getFirstNoneBlackX
  | Bright => getFirstNoneBrightX | Dark => getFirstNoneDarkX
  end.
Definition nextX (m : mode) : Z → Z → Z → option Z :=
  match m with
  | White => getNextWhiteX | Black => getNextBlackX
  | Bright => getNextBrightX | Dark => getNextDarkX
  end.
Definition firstY (m : mode) : Z → Z → Z → Z → option Z :=
  match m with
  | White => getFirstNoneWhiteY | Black => getFirstNoneBlackY
  | Bright => getFirstNoneBrightY | Dark => getFirstNoneDarkY
  end.
Definition nextY (m : mode) : Z → Z → Z → Z → option Z :=
  match m with
  | White => getNextWhiteY | Black => getNextBlackY
  | Bright => getNextBrightY | Dark => getNextDarkY
  end.
End threshold_functions.

(** ** Sorting one run *)

(** The steps [sortRow] and [sortColumn] take on [sortingLength] entries
    of the buffer, entry [i] being [pixels[index i]]: copy them out, sort
    the copy, copy it back. *)
Definition unsorted_of (pixels : list Z) (index : Z → Z) (sortingLength : Z)
  : list (option Z) :=
  (λ i, JS.read pixels (index i)) <$> seqZ 0 sortingLength.

Definition write_sorted (pixels : list Z) (index : Z → Z) (sortingLength : Z)
    (sorted : list (option Z)) : list Z :=
  foldl (λ pixels iv, JS.write pixels (index iv.1) (JS.int_of iv.2))
        pixels (zip (seqZ 0 sortingLength) sorted).

Definition sortRun (pixels : list Z) (index : Z → Z) (sortingLength : Z) : list Z :=
  if 1 <? sortingLength then
    let unsorted := unsorted_of pixels index sortingLength in
    let sorted := JS.sort unsorted in
    write_sorted pixels index sortingLength sorted
  else pixels.

(** What [sortRow] does with a run from [x] to [xEnd], from
    [const sortingLength = xEnd - x] to the end of the [if]. *)
Definition sortRow_run (pixels : list Z) (width row x xEnd : Z) : list Z :=
  let sortingLength := xEnd - x in
  sortRun pixels (λ i, x + i + row * width) sortingLength.

(** The same in [sortColumn], for a run from [y] to [yEnd]. *)
Definition sortColumn_run (pixels : list Z) (width column y yEnd : Z) : list Z :=
  let sortingLength := yEnd - y in
  sortRun pixels (λ i, column + (y + i) * width) sortingLength.

(** A run as the scan reports it: its first and its last index. *)
Definition run : Type := Z * Z.

(** ** Rows and columns *)

(** The [while (xEnd < width - 1)] loop of [sortRow]: [n] bounds its
    iterations, [fuel] those of the threshold functions.  Next to the
    buffer it gives the runs it met, in order. *)
Fixpoint sortRow_loop (n fuel : nat) (this : PixelSorter) (pixels : list Z)
    (width height row : Z) (m : mode) (x xEnd : Z) : option (list Z * list run) :=
  match n with
  | O => None
  | S n =>
      if xEnd <? width - 1 then
        x ← firstX fuel this pixels m width x row;
        xEnd ← nextX fuel this pixels m width x row;
        if x <? 0 then Some (pixels, [])
        else
          let pixels := sortRow_run pixels width row x xEnd in
          let x' := xEnd + 1 in
          '(pixels, found) ← sortRow_loop n fuel this pixels width height row m x' xEnd;
          Some (pixels, (x, xEnd) :: found)
      else Some (pixels, [])
  end.

Definition sortRow (fuel : nat) (this : PixelSorter) (pixels : list Z)
    (width height row : Z) (m : mode) : option (list Z * list run) :=
  sortRow_loop fuel fuel this pixels width height row m 0 0.

(** The [while (yEnd < height - 1)] loop of [sortColumn]. *)
Fixpoint sortColumn_loop (n fuel : nat) (this : PixelSorter) (pixels : list Z)
    (width height column : Z) (m : mode) (y yEnd : Z) : option (list Z * list run) :=
  match n with
  | O => None
  | S n =>
      if yEnd <? height - 1 then
        y ← firstY fuel this pixels m width height column y;
        yEnd ← nextY fuel this pixels m width height column y;
        if y <? 0 then Some (pixels, [])
        else
          let pixels := sortColumn_run pixels width column y yEnd in
          let y' := yEnd + 1 in
          '(pixels, found) ← sortColumn_loop n fuel this pixels width height column m y' yEnd;
          Some (pixels, (y, yEnd) :: found)
      else Some (pixels, [])
  end.

Definition sortColumn (fuel : nat) (this : PixelSorter) (pixels : list Z)
    (width height column : Z) (m : mode) : option (list Z * list run) :=
  sortColumn_loop fuel fuel this pixels width height column m 0 0.

(** ** The whole image *)

(** What [sortImage] has done so far: the working buffer [rgbPixels], the
    runs met, and the calls made to the progress callback, oldest first. *)
Record state := {
  work : list Z;
  runs : list run;
  calls : list (Q * string)
}.

(** [if (progressCallback && cond) progressCallback(percent, label)];
    [supplied] tells whether the caller passed a callback. *)
Definition report (supplied cond : bool) (percent : Q) (label : string)
    (st : state) : state :=
  if supplied && cond
  then {| work := work st; runs := runs st;
          calls := calls st ++ [(percent, label)] |}
  else st.

(** The body of [for (column = 0; column < width - 1; column++)], over
    the columns left to do. *)
Fixpoint sortColumns (columns : list Z) (fuel : nat) (this : PixelSorter)
    (width height : Z) (m : mode) (supplied : bool) (st : state) : option state :=
  match columns with
  | [] => Some st
  | column :: columns =>
      '(pixels, found) ← sortColumn fuel this (work st) width height column m;
      let st := {| work := pixels; runs := runs st ++ found; calls := calls st |} in
      let st := report supplied (column `mod` 10 =? 0)
                  (inject_Z column / inject_Z width * 50)%Q
                  "Sorting columns..." st in
      sortColumns columns fuel this width height m supplied st
  end.

(** The body of [for (row = 0; row < height - 1; row++)]. *)
Fixpoint sortRows (rows : list Z) (fuel : nat) (this : PixelSorter)
    (width height : Z) (m : mode) (supplied : bool) (st : state) : option state :=
  match rows with
  | [] => Some st
  | row :: rows =>
      '(pixels, found) ← sortRow fuel this (work st) width height row m;
      let st := {| work := pixels; runs := runs st ++ found; calls := calls st |} in
      let st := report supplied (row `mod` 10 =? 0)
                  (50 + inject_Z row / inject_Z height * 50)%Q
                  "Sorting rows..." st in
      sortRows rows fuel this width height m supplied st
  end.

(** The errors of the host's [ImageData] constructor. *)
Inductive exn := InvalidStateError | IndexSizeError.

Inductive completion :=
| Return (img : ImageData)
| Throw (e : exn).

(** [new ImageData(data, sw, sh)] as the HTML Standard defines it: the
    length must be a non-zero multiple of four, the number of pixels a
    multiple of [sw], and their quotient [sh]. *)
Definition new_ImageData (data : list Z) (sw sh : nat) : completion :=
  let len := length data in
  if decide (len = 0 ∨ len `mod` 4 ≠ 0)%nat then Throw InvalidStateError
  else
    let len := (len `div` 4)%nat in
    if decide (sw = 0 ∨ len `mod` sw ≠ 0)%nat then Throw IndexSizeError
    else if decide (len `div` sw ≠ sh)%nat then Throw IndexSizeError
    else Return {| width := sw; height := sh; data := data |}.

(** A call of [sortImage], seen from outside: the state it leaves and
    how it completes. *)
Record execution := {
  exec_state : state;
  exec_result : completion
}.

Definition sortImage (fuel : nat) (this : PixelSorter) (imageData : ImageData)
    (m : mode) (supplied : bool) : option execution :=
  let w := width imageData in
  let h := height imageData in
  let pixels := JS.clamp8 <$> data imageData in
  let rgbPixels := convertToRGB pixels w h in
  let st := {| work := rgbPixels; runs := []; calls := [] |} in
  let st := report supplied true 0%Q "Sorting columns..." st in
  st ← sortColumns (seqZ 0 (Z.of_nat w - 1)) fuel this (Z.of_nat w) (Z.of_nat h)
         m supplied st;
  let st := report supplied true 50%Q "Sorting rows..." st in
  st ← sortRows (seqZ 0 (Z.of_nat h - 1)) fuel this (Z.of_nat w) (Z.of_nat h)
         m supplied st;
  let sortedData := convertToRGBA (work st) pixels in
  let st := report supplied true 100%Q "Complete!" st in
  Some {| exec_state := st; exec_result := new_ImageData sortedData w h |}.

(** * Verification *)

(** ** The scanning loop *)

(** With at least [limit - x] units of fuel, and one, [scan] returns. *)
Lemma scan_returns fuel test limit x :
  (1 ≤ fuel)%nat → limit - x ≤ Z.of_nat fuel →
  is_Some (scan fuel test limit x).
Proof.
  revert x. induction fuel as [|fuel IH]; intros x Hone Hfuel; [lia|].
  simpl. destruct (test x); [|by eexists].
  destruct (Z.leb_spec limit (x + 1)); [by eexists|].
  apply IH; lia.
Qed.

(** Where [scan] stops, the test fails, and it holds all the way there. *)
Lemma scan_Stopped fuel test limit x x' :
  scan fuel test limit x = Some (Stopped x') →
  x ≤ x' ∧ (x' = x ∨ x' < limit) ∧ test x' = false ∧
  ∀ i, x ≤ i < x' → test i = true.
Proof.
  revert x. induction fuel as [|fuel IH]; intros x; simpl; [done|].
  destruct (test x) eqn:Ht.
  - destruct (Z.leb_spec limit (x + 1)); [done|].
    intros (? & ? & ? & Hall)%IH. repeat split; [lia|lia|done|].
    intros i Hi. destruct (decide (i = x)) as [->|]; [done|]. apply Hall; lia.
  - intros [= <-]. repeat split; [lia|by left|done|lia].
Qed.

(** When [scan] reaches the limit, the test held from [x] on. *)
Lemma scan_HitLimit fuel test limit x :
  scan fuel test limit x = Some HitLimit →
  test x = true ∧ ∀ i, x ≤ i < limit → test i = true.
Proof.
  revert x. induction fuel as [|fuel IH]; intros x; simpl; [done|].
  destruct (test x) eqn:Ht; [|done].
  destruct (Z.leb_spec limit (x + 1)).
  - intros _. split; [done|]. intros i Hi. by replace i with x by lia.
  - intros [? Hall]%IH. split; [done|].
    intros i Hi. destruct (decide (i = x)) as [->|]; [done|]. apply Hall; lia.
Qed.

(** More fuel does not change what [scan] returns. *)
Lemma scan_fuel_mono fuel fuel' test limit x e :
  (fuel ≤ fuel')%nat → scan fuel test limit x = Some e →
  scan fuel' test limit x = Some e.
Proof.
  revert fuel' x. induction fuel as [|fuel IH]; intros fuel' x Hle; simpl; [done|].
  destruct fuel' as [|fuel']; [lia|]. simpl.
  destruct (test x); [|done].
  destruct (limit <=? x + 1); [done|]. apply IH. lia.
Qed.

(** ** What a pair of threshold functions finds

    Every mode scans a line the same way.  [skip] is the test under which
    the first function moves on, [cont] the one under which the second
    does; both look at one entry of the line. *)

(** The result of a [getFirstNone...] function called at [x]. *)
Definition first_found (skip : Z → bool) (limit x s : Z) : Prop :=
  (s = -1 ∧ ∀ i, x ≤ i < limit → skip i = true) ∨
  (x ≤ s < limit ∧ skip s = false ∧ ∀ i, x ≤ i < s → skip i = true).

(** The result of a [getNext...] function called at [s]. *)
Definition next_found (cont : Z → bool) (limit s e : Z) : Prop :=
  s ≤ e ∧ e < limit ∧ (∀ i, s < i ≤ e → cont i = true) ∧
  (e < limit - 1 → cont (e + 1) = false).

Lemma first_scan_sound fuel skip limit x s :
  0 ≤ x < limit →
  first_result <$> scan fuel skip limit x = Some s →
  first_found skip limit x s.
Proof.
  intros Hx. destruct (scan fuel skip limit x) as [[x'|]|] eqn:He; intros [= <-]; simpl.
  - apply scan_Stopped in He as (? & ? & ? & ?). right. repeat split; [lia|lia|done|done].
  - apply scan_HitLimit in He as [_ ?]. by left.
Qed.

Lemma next_scan_sound fuel cont limit s e :
  -1 ≤ s < limit →
  next_result limit <$> scan fuel cont limit (s + 1) = Some e →
  next_found cont limit s e.
Proof.
  intros Hs. destruct (scan fuel cont limit (s + 1)) as [[x'|]|] eqn:He; intros [= <-]; simpl.
  - apply scan_Stopped in He as (? & ? & ? & Hall).
    repeat split; [lia|lia| |].
    + intros i Hi. apply Hall. lia.
    + intros _. by replace (x' - 1 + 1) with x' by lia.
  - apply scan_HitLimit in He as [_ Hall].
    repeat split; [lia|lia| |lia]. intros i Hi. apply Hall. lia.
Qed.

(** The tests of the four modes, on one entry of the buffer. *)
Definition skip_test (this : PixelSorter) (m : mode) (v : option Z) : bool :=
  match m with
  | White => JS.lt v (whiteValue this)
  | Black => JS.gt v (blackValue this)
  | Bright => getBrightness v <? brightValue this
  | Dark => darkValue this <? getBrightness v
  end.

Definition cont_test (this : PixelSorter) (m : mode) (v : option Z) : bool :=
  match m with
  | White => JS.gt v (whiteValue this)
  | Black => JS.lt v (blackValue this)
  | Bright => brightValue this <? getBrightness v
  | Dark => getBrightness v <? darkValue this
  end.

Section threshold_functions_found.
Context (fuel : nat) (this : PixelSorter) (pixels : list Z) (m : mode).

Lemma firstX_sound width x row s :
  0 ≤ x < width →
  firstX fuel this pixels m width x row = Some s →
  first_found (λ i, skip_test this m (at_xy pixels width i row)) width x s.
Proof. intros Hx. destruct m; apply first_scan_sound; done. Qed.

Lemma nextX_sound width s row e :
  -1 ≤ s < width →
  nextX fuel this pixels m width s row = Some e →
  next_found (λ i, cont_test this m (at_xy pixels width i row)) width s e.
Proof. intros Hs. destruct m; apply next_scan_sound; done. Qed.

Lemma firstY_sound width height column y s :
  0 ≤ y < height →
  firstY fuel this pixels m width height column y = Some s →
  first_found (λ i, skip_test this m (at_xy pixels width column i)) height y s.
Proof.
  intros Hy.
  destruct m; simpl;
    unfold getFirstNoneWhiteY, getFirstNoneBlackY, getFirstNoneBrightY, getFirstNoneDarkY;
    (destruct (Z.ltb_spec y height); [|lia]); apply first_scan_sound; done.
Qed.

Lemma nextY_sound width height column s e :
  -1 ≤ s < height →
  nextY fuel this pixels m width height column s = Some e →
  next_found (λ i, cont_test this m (at_xy pixels width column i)) height s e.
Proof.
  intros Hs.
  destruct m; simpl;
    unfold getNextWhiteY, getNextBlackY, getNextBrightY, getNextDarkY; simpl;
    (destruct (Z.ltb_spec (s + 1) height);
     [by apply next_scan_sound
     |intros [= <-]; repeat split; [lia|lia|intros; lia|lia]]).
Qed.

Lemma firstX_returns width x row :
  (1 ≤ fuel)%nat → width - x ≤ Z.of_nat fuel →
  is_Some (firstX fuel this pixels m width x row).
Proof.
  intros ??. destruct m; simpl; apply fmap_is_Some, scan_returns; done.
Qed.

Lemma nextX_returns width x row :
  (1 ≤ fuel)%nat → width - (x + 1) ≤ Z.of_nat fuel →
  is_Some (nextX fuel this pixels m width x row).
Proof.
  intros ??. destruct m; simpl; apply fmap_is_Some, scan_returns; done.
Qed.

Lemma firstY_returns width height column y :
  (1 ≤ fuel)%nat → height - y ≤ Z.of_nat fuel →
  is_Some (firstY fuel this pixels m width height column y).
Proof.
  intros ??. destruct m; simpl;
    unfold getFirstNoneWhiteY, getFirstNoneBlackY, getFirstNoneBrightY, getFirstNoneDarkY;
    (case_match; [apply fmap_is_Some, scan_returns; done|by eexists]).
Qed.

Lemma nextY_returns width height column y :
  (1 ≤ fuel)%nat → height - (y + 1) ≤ Z.of_nat fuel →
  is_Some (nextY fuel this pixels m width height column y).
Proof.
  intros ??. destruct m; simpl;
    unfold getNextWhiteY, getNextBlackY, getNextBrightY, getNextDarkY; simpl;
    (case_match; [apply fmap_is_Some, scan_returns; done|by eexists]).
Qed.
End threshold_functions_found.

(** ** Geometry of the working buffer *)

(** Entry [(x, y)] of a [width] by [height] buffer exists. *)
Lemma index_in_range (width height x y : Z) :
  0 ≤ x < width → 0 ≤ y < height → 0 ≤ x + y * width < width * height.
Proof. intros. nia. Qed.

Lemma read_is_Some (pixels : list Z) (i : Z) :
  0 ≤ i < Z.of_nat (length pixels) → is_Some (JS.read pixels i).
Proof.
  intros Hi. unfold JS.read. destruct (Z.ltb_spec i 0); [lia|].
  apply lookup_lt_is_Some. lia.
Qed.

Lemma at_xy_is_Some (pixels : list Z) (width height x y : Z) :
  Z.of_nat (length pixels) = width * height →
  0 ≤ x < width → 0 ≤ y < height → is_Some (at_xy pixels width x y).
Proof.
  intros Hlen Hx Hy. apply read_is_Some. rewrite Hlen. by apply index_in_range.
Qed.

(** ** Run detection in White mode (C1) *)

(** [holds o P]: the entry [o] is there and its packed value satisfies [P]. *)
Definition holds (o : option Z) (P : Z → Prop) : Prop := ∃ v, o = Some v ∧ P v.

(** The start of a run, scanning from [x] a line of [limit] entries whose
    entry [i] is [value i]: the first index at or after [x] whose packed
    value is at least [whiteValue], or -1 when there is none. *)
Definition white_start (value : Z → option Z) (whiteValue limit x s : Z) : Prop :=
  (s = -1 ∧ ∀ i, x ≤ i < limit → holds (value i) (λ v, v < whiteValue)) ∨
  (x ≤ s < limit ∧ holds (value s) (λ v, whiteValue ≤ v) ∧
   ∀ i, x ≤ i < s → holds (value i) (λ v, v < whiteValue)).

(** The end of the run that starts at [s], as the code finds it: every
    index after [s] up to the end has a packed value above [whiteValue],
    and the next index, if the line has one, has not. *)
Definition white_end (value : Z → option Z) (whiteValue limit s e : Z) : Prop :=
  s ≤ e < limit ∧
  (∀ i, s < i ≤ e → holds (value i) (λ v, whiteValue < v)) ∧
  (e < limit - 1 → holds (value (e + 1)) (λ v, v ≤ whiteValue)).

(** The end of the run as the specification words it: the indices after
    [s] up to [e] have a packed value of at most [whiteValue], and the
    next index, where the scan stops, is the first with a packed value
    above it. *)
Definition white_end_as_specified (value : Z → option Z)
    (whiteValue limit s e : Z) : Prop :=
  s ≤ e < limit ∧
  (∀ i, s < i ≤ e → holds (value i) (λ v, v ≤ whiteValue)) ∧
  (e < limit - 1 → holds (value (e + 1)) (λ v, whiteValue < v)).

(** A pair of threshold functions detects White runs on a line. *)
Definition detects_white_runs (first next : Z → option Z)
    (value : Z → option Z) (whiteValue limit : Z) (fuel : nat) : Prop :=
  ∀ x, 0 ≤ x < limit →
    (limit ≤ Z.of_nat fuel → is_Some (first x)) ∧
    ∀ s, first x = Some s →
      white_start value whiteValue limit x s ∧
      (0 ≤ s →
       (limit ≤ Z.of_nat fuel → is_Some (next s)) ∧
       ∀ e, next s = Some e → white_end value whiteValue limit s e).

Lemma detects_white_runs_intro first next value whiteValue limit fuel :
  (∀ i, 0 ≤ i < limit → is_Some (value i)) →
  (∀ x, limit - x ≤ Z.of_nat fuel → (1 ≤ fuel)%nat → is_Some (first x)) →
  (∀ x, limit - (x + 1) ≤ Z.of_nat fuel → (1 ≤ fuel)%nat → is_Some (next x)) →
  (∀ x s, 0 ≤ x < limit → first x = Some s →
     first_found (λ i, JS.lt (value i) whiteValue) limit x s) →
  (∀ s e, -1 ≤ s < limit → next s = Some e →
     next_found (λ i, JS.gt (value i) whiteValue) limit s e) →
  detects_white_runs first next value whiteValue limit fuel.
Proof.
  intros Hval Hfirst Hnext Hfs Hns x Hx.
  assert (Hlt : ∀ i, 0 ≤ i < limit → JS.lt (value i) whiteValue = true →
                holds (value i) (λ v, v < whiteValue)).
  { intros i Hi. destruct (Hval i Hi) as [v ->]. simpl. intros ?%Z.ltb_lt. by exists v. }
  assert (Hge : ∀ i, 0 ≤ i < limit → JS.lt (value i) whiteValue = false →
                holds (value i) (λ v, whiteValue ≤ v)).
  { intros i Hi. destruct (Hval i Hi) as [v ->]. simpl. intros ?%Z.ltb_ge. by exists v. }
  assert (Hgt : ∀ i, 0 ≤ i < limit → JS.gt (value i) whiteValue = true →
                holds (value i) (λ v, whiteValue < v)).
  { intros i Hi. destruct (Hval i Hi) as [v ->]. simpl. intros ?%Z.ltb_lt. by exists v. }
  assert (Hle : ∀ i, 0 ≤ i < limit → JS.gt (value i) whiteValue = false →
                holds (value i) (λ v, v ≤ whiteValue)).
  { intros i Hi. destruct (Hval i Hi) as [v ->]. simpl. intros ?%Z.ltb_ge. by exists v. }
  split; [intros; apply Hfirst; lia|].
  intros s Hs. apply Hfs in Hs; [|done]. split.
  - destruct Hs as [[-> Hall]|(Hsx & Hstop & Hall)]; [left|right].
    + split; [done|]. intros i Hi. apply Hlt; [lia|]. by apply Hall.
    + split; [done|]. split; [apply Hge; [lia|done]|].
      intros i Hi. apply Hlt; [lia|]. by apply Hall.
  - intros Hs0. split; [intros; apply Hnext; lia|].
    intros e He. destruct Hs as [[-> _]|(Hsx & _)]; [lia|].
    apply Hns in He as (? & ? & Hall & Hstop); [|lia].
    split; [lia|]. split.
    + intros i Hi. apply Hgt; [lia|]. by apply Hall.
    + intros He. apply Hle; [lia|]. by apply Hstop.
Qed.

(** C1, amended.  In White mode, on every row and every column of a
    [width] by [height] buffer, the run start is the first index from the
    scan position whose packed value is at least [whiteValue] (-1 when the
    line has none), and the run end is the last index of the line such
    that every index after the start up to it has a packed value strictly
    above [whiteValue]: the scan stops at, and excludes, the first index
    after the start whose packed value is at most [whiteValue]. *)
Theorem white_run_detection (fuel : nat) (this : PixelSorter) (pixels : list Z)
    (width height : Z) :
  Z.of_nat (length pixels) = width * height →
  (1 ≤ fuel)%nat →
  (∀ row, 0 ≤ row < height →
     detects_white_runs
       (λ x, getFirstNoneWhiteX fuel this pixels width x row)
       (λ x, getNextWhiteX fuel this pixels width x row)
       (λ x, at_xy pixels width x row) (whiteValue this) width fuel) ∧
  (∀ column, 0 ≤ column < width →
     detects_white_runs
       (λ y, getFirstNoneWhiteY fuel this pixels width height column y)
       (λ y, getNextWhiteY fuel this pixels width height column y)
       (λ y, at_xy pixels width column y) (whiteValue this) height fuel).
Proof.
  intros Hlen Hfuel. split.
  - intros row Hrow. apply detects_white_runs_intro.
    + intros i Hi. by eapply at_xy_is_Some.
    + intros x ??. by apply (firstX_returns fuel this pixels White).
    + intros x ??. by apply (nextX_returns fuel this pixels White).
    + intros x s Hx. by apply (firstX_sound fuel this pixels White).
    + intros s e Hs. by apply (nextX_sound fuel this pixels White).
  - intros column Hcolumn. apply detects_white_runs_intro.
    + intros i Hi. by eapply at_xy_is_Some.
    + intros y ??. by apply (firstY_returns fuel this pixels White).
    + intros y ??. by apply (nextY_returns fuel this pixels White).
    + intros y s Hy. by apply (firstY_sound fuel this pixels White).
    + intros s e Hs. by apply (nextY_sound fuel this pixels White).
Qed.

Lemma white_run_detection_witness :
  let this := setThresholds (-6) (-3456789) 127 223 in
  let pixels := [-5; -3; -9; -9; -1; -1; -1; -1] in
  Z.of_nat (length pixels) = 4 * 2 ∧ (1 ≤ 4)%nat ∧
  (∀ row, 0 ≤ row < 2 →
     detects_white_runs
       (λ x, getFirstNoneWhiteX 4 this pixels 4 x row)
       (λ x, getNextWhiteX 4 this pixels 4 x row)
       (λ x, at_xy pixels 4 x row) (-6) 4 4) ∧
  (∀ column, 0 ≤ column < 4 →
     detects_white_runs
       (λ y, getFirstNoneWhiteY 4 this pixels 4 2 column y)
       (λ y, getNextWhiteY 4 this pixels 4 2 column y)
       (λ y, at_xy pixels 4 column y) (-6) 2 4).
Proof.
  intros this pixels. split; [reflexivity|]. split; [lia|].
  apply (white_run_detection 4 this pixels 4 2); [reflexivity|lia].
Defined.

(** C1 as the specification states it fails on the row -5, -3, -9, -9
    with [whiteValue = -6]: the run found goes from 0 to 1, its end has
    the packed value -3, above [whiteValue], and the scan stops at index
    2, the first whose packed value is not above [whiteValue]. *)
Lemma white_run_end_counterexample :
  let this := setThresholds (-6) (-3456789) 127 223 in
  let pixels := [-5; -3; -9; -9; -1; -1; -1; -1] in
  getFirstNoneWhiteX 4 this pixels 4 0 0 = Some 0 ∧
  getNextWhiteX 4 this pixels 4 0 0 = Some 1 ∧
  ¬ white_end_as_specified (λ x, at_xy pixels 4 x 0) (-6) 4 0 1.
Proof.
  intros this pixels. split; [reflexivity|]. split; [reflexivity|].
  intros (_ & Hall & _). destruct (Hall 1) as (v & Hv & Hle); [lia|].
  vm_compute in Hv. injection Hv as <-. lia.
Qed.

(** ** Writing to the working buffer *)

(** A sequence of assignments [pixels[p] = v], first to last. *)
Definition writes (pixels : list Z) (pvs : list (Z * Z)) : list Z :=
  foldl (λ pixels pv, JS.write pixels pv.1 pv.2) pixels pvs.

Definition in_bounds (pixels : list Z) (p : Z) : Prop :=
  0 ≤ p < Z.of_nat (length pixels).

Lemma write_length pixels p v : length (JS.write pixels p v) = length pixels.
Proof. unfold JS.write. case_match; [done|]. apply length_insert. Qed.

Lemma read_write_eq pixels p v :
  in_bounds pixels p → JS.read (JS.write pixels p v) p = Some v.
Proof.
  intros [??]. unfold JS.read, JS.write. destruct (Z.ltb_spec p 0); [lia|].
  apply list_lookup_insert_eq. lia.
Qed.

Lemma read_write_ne pixels p q v :
  p ≠ q → JS.read (JS.write pixels p v) q = JS.read pixels q.
Proof.
  intros Hne. unfold JS.read, JS.write.
  destruct (Z.ltb_spec q 0); [done|]. destruct (Z.ltb_spec p 0); [done|].
  apply list_lookup_insert_ne. lia.
Qed.

Lemma write_id pixels p v : JS.read pixels p = Some v → JS.write pixels p v = pixels.
Proof.
  unfold JS.read, JS.write. destruct (Z.ltb_spec p 0); [done|]. apply list_insert_id.
Qed.

Lemma write_commute pixels p q x y :
  p ≠ q → JS.write (JS.write pixels p x) q y = JS.write (JS.write pixels q y) p x.
Proof.
  intros Hne. unfold JS.write.
  destruct (Z.ltb_spec p 0), (Z.ltb_spec q 0); try done.
  apply list_insert_insert_ne. lia.
Qed.

Lemma writes_length pixels pvs : length (writes pixels pvs) = length pixels.
Proof.
  revert pixels. induction pvs as [|[p v] pvs IH]; intros pixels; simpl; [done|].
  rewrite IH. apply write_length.
Qed.

(** An entry no assignment names keeps its value. *)
Lemma writes_frame pixels pvs j :
  j ∉ pvs.*1 → JS.read (writes pixels pvs) j = JS.read pixels j.
Proof.
  revert pixels. induction pvs as [|[p v] pvs IH]; intros pixels; simpl; [done|].
  intros [Hne Hnotin]%not_elem_of_cons. rewrite IH by done.
  by apply read_write_ne.
Qed.

Lemma writes_write_commute pixels pvs p x :
  p ∉ pvs.*1 → writes (JS.write pixels p x) pvs = JS.write (writes pixels pvs) p x.
Proof.
  revert pixels. induction pvs as [|[q v] pvs IH]; intros pixels; simpl; [done|].
  intros [Hne Hnotin]%not_elem_of_cons.
  rewrite write_commute by done. by apply IH.
Qed.

(** Assigning to distinct entries of the buffer: each holds its value
    afterwards. *)
Lemma writes_read pixels (ps : list Z) (vs : list Z) :
  NoDup ps → Forall (in_bounds pixels) ps → length ps = length vs →
  (λ p, JS.read (writes pixels (zip ps vs)) p) <$> ps = Some <$> vs.
Proof.
  revert pixels vs. induction ps as [|p ps IH]; intros pixels [|v vs] Hnd Hin Hlen;
    try done.
  apply NoDup_cons in Hnd as [Hp Hnd]. apply Forall_cons in Hin as [Hpin Hin].
  simpl in *. f_equal.
  - rewrite writes_frame.
    + by apply read_write_eq.
    + rewrite fst_zip; [done|lia].
  - apply IH; [done| |lia].
    eapply Forall_impl; [exact Hin|]. intros q. unfold in_bounds. by rewrite write_length.
Qed.

(** Writing back what the entries hold changes nothing. *)
Lemma writes_id pixels pvs :
  Forall (λ pv, JS.read pixels pv.1 = Some pv.2) pvs → writes pixels pvs = pixels.
Proof.
  induction 1 as [|[p v] pvs Hpv _ IH]; simpl; [done|].
  simpl in Hpv. by rewrite write_id.
Qed.

(** Two values exchanged between two entries: the same multiset. *)
Lemma insert_cons_swap (l : list Z) (q : nat) (x y : Z) :
  (q < length l)%nat → y :: <[q:=x]> l ≡ₚ x :: <[q:=y]> l.
Proof.
  revert q. induction l as [|a l IH]; intros [|q] Hq; simpl in *; try lia.
  - apply perm_swap.
  - rewrite (perm_swap a y), (perm_swap a x). f_equiv. apply IH. lia.
Qed.

Lemma insert_insert_swap (l : list Z) (p q : nat) (x y : Z) :
  p ≠ q → (p < length l)%nat → (q < length l)%nat →
  <[q:=x]> (<[p:=y]> l) ≡ₚ <[q:=y]> (<[p:=x]> l).
Proof.
  revert p q. induction l as [|a l IH]; intros p q Hne Hp Hq; [done|].
  destruct p as [|p], q as [|q]; simpl in *; try done.
  - apply insert_cons_swap. lia.
  - symmetry. apply insert_cons_swap. lia.
  - f_equiv. apply IH; lia.
Qed.

Lemma write_write_swap pixels p q x y :
  p ≠ q → in_bounds pixels p → in_bounds pixels q →
  JS.write (JS.write pixels p y) q x ≡ₚ JS.write (JS.write pixels p x) q y.
Proof.
  intros Hne [??] [??]. unfold JS.write.
  destruct (Z.ltb_spec p 0), (Z.ltb_spec q 0); try lia.
  apply insert_insert_swap; lia.
Qed.

(** Assigning a permutation of the values to the same distinct entries
    gives a permutation of the buffer. *)
Lemma writes_Permutation (vs vs' : list Z) :
  vs ≡ₚ vs' →
  ∀ (ps : list Z) (pixels : list Z),
    NoDup ps → Forall (in_bounds pixels) ps → length ps = length vs →
    writes pixels (zip ps vs) ≡ₚ writes pixels (zip ps vs').
Proof.
  induction 1 as [|x vs vs' Hperm IH|x y vs|vs vs' vs'' Hperm IH Hperm' IH'];
    intros ps pixels Hnd Hin Hlen.
  - done.
  - destruct ps as [|p ps]; [done|]. simpl.
    apply NoDup_cons in Hnd as [Hp Hnd]. apply Forall_cons in Hin as [Hpin Hin].
    apply IH; [done| |simpl in Hlen; lia].
    eapply Forall_impl; [exact Hin|]. intros q. unfold in_bounds. by rewrite write_length.
  - destruct ps as [|p [|q ps]]; [done|done|]. simpl in *.
    apply NoDup_cons in Hnd as [Hp Hnd]. apply NoDup_cons in Hnd as [Hq Hnd].
    apply Forall_cons in Hin as [Hpin Hin]. apply Forall_cons in Hin as [Hqin Hin].
    apply not_elem_of_cons in Hp as [Hpq Hp].
    assert (Hfst : (zip ps vs).*1 = ps) by (rewrite fst_zip; [done|lia]).
    rewrite !writes_write_commute by (by rewrite Hfst).
    apply write_write_swap; [done| |]; unfold in_bounds; by rewrite writes_length.
  - etrans; [by apply IH|]. apply IH'; [done|done|].
    rewrite Hlen. by apply Permutation_length.
Qed.

(** ** Sorting one run: what [sortRun] does *)

(** The packed values of the [len] entries [index 0], [index 1], ... *)
Definition run_values (pixels : list Z) (index : Z → Z) (len : Z) : list Z :=
  (λ i, JS.int_of (JS.read pixels (index i))) <$> seqZ 0 len.

Lemma JS_sort_Some (vals : list Z) :
  JS.sort (Some <$> vals) = Some <$> merge_sort Z.le vals.
Proof.
  unfold JS.sort.
  assert (Hnum : omap id (Some <$> vals) = vals).
  { induction vals as [|v vals IH]; simpl; [done|]. f_equal. exact IH. }
  assert (Hundef : filter (λ v : option Z, v = None) (Some <$> vals) = []).
  { clear Hnum. induction vals as [|v vals IH]; simpl; [done|].
    rewrite filter_cons_False by done. exact IH. }
  rewrite Hnum, Hundef. simpl. by rewrite app_nil_r.
Qed.

Lemma write_sorted_writes pixels index len (sorted : list (option Z)) :
  write_sorted pixels index len sorted =
  writes pixels ((λ iv : Z * option Z, (index iv.1, JS.int_of iv.2))
                   <$> zip (seqZ 0 len) sorted).
Proof. unfold write_sorted, writes. by rewrite foldl_fmap. Qed.

Lemma write_sorted_Some pixels index len (vs : list Z) :
  write_sorted pixels index len (Some <$> vs) =
  writes pixels (zip (index <$> seqZ 0 len) vs).
Proof.
  rewrite write_sorted_writes. f_equal.
  generalize (seqZ 0 len). intros l. revert vs.
  induction l as [|i l IH]; intros [|v vs]; simpl; [done..|]. by rewrite IH.
Qed.

Lemma sortRun_length pixels index len :
  length (sortRun pixels index len) = length pixels.
Proof.
  unfold sortRun. case_match; [|done].
  rewrite write_sorted_writes. apply writes_length.
Qed.

(** [sortRun] leaves every entry outside the run as it was. *)
Lemma sortRun_frame pixels index len j :
  (∀ i, 0 ≤ i < len → index i ≠ j) →
  JS.read (sortRun pixels index len) j = JS.read pixels j.
Proof.
  intros Hj. unfold sortRun. case_match; [|done].
  rewrite write_sorted_writes. apply writes_frame.
  intros ([p v] & -> & Hin)%list_elem_of_fmap.
  apply list_elem_of_fmap in Hin as ([i o] & [= -> ->] & Hin).
  apply elem_of_zip_l in Hin. apply elem_of_seqZ in Hin. simpl in *.
  by apply (Hj i); [lia|].
Qed.

Section run_in_bounds.
Context (pixels : list Z) (index : Z → Z) (len : Z).
Hypothesis index_in_bounds : ∀ i, 0 ≤ i < len → in_bounds pixels (index i).
Hypothesis index_inj : ∀ i j, 0 ≤ i < len → 0 ≤ j < len → index i = index j → i = j.

Lemma run_read_is_Some i : i ∈ seqZ 0 len → is_Some (JS.read pixels (index i)).
Proof. intros Hi%elem_of_seqZ. apply read_is_Some, index_in_bounds. lia. Qed.

Lemma unsorted_of_values :
  unsorted_of pixels index len = Some <$> run_values pixels index len.
Proof.
  unfold unsorted_of, run_values. rewrite <-list_fmap_compose.
  apply Forall_fmap_ext_1, Forall_forall. intros i Hi. simpl.
  by destruct (run_read_is_Some i Hi) as [v ->].
Qed.

Lemma run_positions_NoDup : NoDup (index <$> seqZ 0 len).
Proof.
  apply NoDup_fmap_2_strong; [|apply NoDup_seqZ].
  intros i j Hi%elem_of_seqZ Hj%elem_of_seqZ. apply index_inj; lia.
Qed.

Lemma run_positions_in_bounds : Forall (in_bounds pixels) (index <$> seqZ 0 len).
Proof.
  apply Forall_fmap, Forall_forall. intros i Hi%elem_of_seqZ.
  apply index_in_bounds. lia.
Qed.

Lemma run_values_length : length (run_values pixels index len) = Z.to_nat len.
Proof. unfold run_values. by rewrite length_fmap, length_seqZ. Qed.

Lemma run_sorted_length :
  length (index <$> seqZ 0 len) =
  length (merge_sort Z.le (run_values pixels index len)).
Proof.
  rewrite length_fmap, length_seqZ.
  rewrite (Permutation_length (merge_sort_Permutation _ _)).
  by rewrite run_values_length.
Qed.

Lemma sortRun_writes :
  1 < len →
  sortRun pixels index len =
  writes pixels (zip (index <$> seqZ 0 len)
                     (merge_sort Z.le (run_values pixels index len))).
Proof.
  intros Hlen. unfold sortRun. destruct (Z.ltb_spec 1 len); [|lia].
  by rewrite unsorted_of_values, JS_sort_Some, write_sorted_Some.
Qed.

(** After [sortRun] the run holds its former values in ascending order. *)
Lemma sortRun_values :
  1 < len →
  run_values (sortRun pixels index len) index len =
  merge_sort Z.le (run_values pixels index len).
Proof.
  intros Hlen. rewrite sortRun_writes by done.
  pose proof (writes_read pixels (index <$> seqZ 0 len)
                (merge_sort Z.le (run_values pixels index len))
                run_positions_NoDup run_positions_in_bounds run_sorted_length)
    as Hread.
  apply (f_equal (fmap JS.int_of)) in Hread.
  rewrite <-!list_fmap_compose in Hread.
  unfold run_values at 1. etrans; [exact Hread|].
  generalize (merge_sort Z.le (run_values pixels index len)).
  intros vs. induction vs as [|v vs IH]; simpl; [done|]. f_equal. exact IH.
Qed.

Lemma run_values_readable (l : list Z) :
  Forall (λ i, is_Some (JS.read pixels (index i))) l →
  Forall (λ pv : Z * Z, JS.read pixels pv.1 = Some pv.2)
         (zip (index <$> l) ((λ i, JS.int_of (JS.read pixels (index i))) <$> l)).
Proof.
  induction 1 as [|i l [v Hv] _ IH]; simpl; constructor; [|done].
  simpl. by rewrite Hv.
Qed.

(** [sortRun] permutes the buffer. *)
Lemma sortRun_Permutation : sortRun pixels index len ≡ₚ pixels.
Proof.
  destruct (Z.ltb_spec 1 len) as [Hlen|Hlen].
  - rewrite sortRun_writes by done.
    rewrite (writes_Permutation _ (run_values pixels index len)
               (merge_sort_Permutation _ _)).
    + rewrite writes_id; [done|].
      apply run_values_readable, Forall_forall, run_read_is_Some.
    + apply run_positions_NoDup.
    + apply run_positions_in_bounds.
    + apply run_sorted_length.
  - unfold sortRun. destruct (Z.ltb_spec 1 len); [lia|done].
Qed.
End run_in_bounds.

(** ** What happens to a run (C2) *)

(** [after] is [before] sorted in ascending order of the raw integers. *)
Definition sorted_copy (before after : list Z) : Prop :=
  Sorted Z.le after ∧ after ≡ₚ before.

(** What the code does with a run from [s] to [e] of a line whose entry
    [i] is [pixels[index i]]: when [e - s] exceeds 1, the entries [s] to
    [e - 1] are sorted in place and nothing else changes; otherwise
    nothing changes at all. *)
Definition run_sorted_in_place (pixels pixels' : list Z) (index : Z → Z)
    (s e : Z) : Prop :=
  (1 < e - s →
   sorted_copy (run_values pixels (λ i, index (s + i)) (e - s))
               (run_values pixels' (λ i, index (s + i)) (e - s)) ∧
   ∀ j, (∀ i, s ≤ i < e → index i ≠ j) → JS.read pixels' j = JS.read pixels j) ∧
  (e - s ≤ 1 → pixels' = pixels).

(** What the specification states: when [e - s + 1] exceeds 1, the
    entries [s] to [e] are sorted in place. *)
Definition run_sorted_as_specified (pixels pixels' : list Z) (index : Z → Z)
    (s e : Z) : Prop :=
  1 < e - s + 1 →
  sorted_copy (run_values pixels (λ i, index (s + i)) (e - s + 1))
              (run_values pixels' (λ i, index (s + i)) (e - s + 1)).

Lemma sortRun_sorted_in_place pixels (index : Z → Z) (s e : Z) :
  (∀ i, s ≤ i < e → in_bounds pixels (index i)) →
  (∀ i j, index i = index j → i = j) →
  run_sorted_in_place pixels (sortRun pixels (λ i, index (s + i)) (e - s)) index s e.
Proof.
  intros Hin Hinj. split.
  - intros Hlen. split.
    + rewrite sortRun_values; [| | |done].
      * split; [apply Sorted_merge_sort, _|apply merge_sort_Permutation].
      * intros i Hi. apply Hin. lia.
      * intros i j _ _ Hij%Hinj. lia.
    + intros j Hj. apply sortRun_frame. intros i Hi. apply Hj. lia.
  - intros Hlen. unfold sortRun. destruct (Z.ltb_spec 1 (e - s)); [lia|done].
Qed.

(** C2, amended.  For every run of a row or of a column, with start [s]
    and end [e] inside the line: when [e - s] exceeds 1, the code takes
    the packed values at positions [s] to [e - 1], sorts them in
    ascending order of the raw integers and writes them back over exactly
    those positions, position [e] and everything else keeping its value;
    when [e - s] is at most 1 the buffer is left as it is. *)
Theorem run_sorted_up_to_end (pixels : list Z) (width height : Z) :
  Z.of_nat (length pixels) = width * height →
  (∀ row s e, 0 ≤ row < height → 0 ≤ s → e < width →
     run_sorted_in_place pixels (sortRow_run pixels width row s e)
       (λ x, x + row * width) s e) ∧
  (∀ column s e, 0 ≤ column < width → 0 ≤ s → e < height →
     run_sorted_in_place pixels (sortColumn_run pixels width column s e)
       (λ y, column + y * width) s e).
Proof.
  intros Hlen. split.
  - intros row s e Hrow Hs He.
    apply (sortRun_sorted_in_place pixels (λ x, x + row * width)).
    + intros i Hi. unfold in_bounds. rewrite Hlen. apply index_in_range; lia.
    + intros i j. lia.
  - intros column s e Hcolumn Hs He.
    apply (sortRun_sorted_in_place pixels (λ y, column + y * width)).
    + intros i Hi. unfold in_bounds. rewrite Hlen. apply index_in_range; lia.
    + intros i j. nia.
Qed.

Lemma run_sorted_up_to_end_witness :
  let pixels := [-1; -2; -3; -20; -7; -7; -7; -7] in
  Z.of_nat (length pixels) = 4 * 2 ∧
  (∀ row s e, 0 ≤ row < 2 → 0 ≤ s → e < 4 →
     run_sorted_in_place pixels (sortRow_run pixels 4 row s e)
       (λ x, x + row * 4) s e) ∧
  (∀ column s e, 0 ≤ column < 4 → 0 ≤ s → e < 2 →
     run_sorted_in_place pixels (sortColumn_run pixels 4 column s e)
       (λ y, column + y * 4) s e).
Proof.
  intros pixels. split; [reflexivity|].
  apply (run_sorted_up_to_end pixels 4 2). reflexivity.
Defined.

(** C2 as the specification states it fails on the row -1, -2, -3, -20
    with [whiteValue = -10] in White mode: the run found goes from 0 to 2,
    and the row becomes -2, -1, -3, -20: positions 0 and 1 are sorted and
    position 2, the end of the run, is left out. *)
Lemma run_sorted_counterexample :
  let this := setThresholds (-10) (-3456789) 127 223 in
  let pixels := [-1; -2; -3; -20; -7; -7; -7; -7] in
  sortRow 5 this pixels 4 2 0 White
    = Some ([-2; -1; -3; -20; -7; -7; -7; -7], [(0, 2)]) ∧
  sortRow_run pixels 4 0 0 2 = [-2; -1; -3; -20; -7; -7; -7; -7] ∧
  ¬ run_sorted_as_specified pixels (sortRow_run pixels 4 0 0 2)
      (λ x, x + 0 * 4) 0 2.
Proof.
  intros this pixels. split; [reflexivity|]. split; [reflexivity|].
  intros Hspec. destruct Hspec as [Hsorted _]; [lia|].
  change (Sorted Z.le [-2; -1; -3]) in Hsorted.
  apply Sorted_inv in Hsorted as [Hsorted _].
  apply Sorted_inv in Hsorted as [_ Hhd]. apply HdRel_inv in Hhd. lia.
Qed.

(** ** Counting the entries of a line *)

Section filter_facts.
Context {A : Type} (P Q : A → Prop) `{!∀ x, Decision (P x)} `{!∀ x, Decision (Q x)}.

Lemma filter_none (l : list A) : Forall (λ x, ¬ P x) l → filter P l = [].
Proof.
  induction 1 as [|x l Hx _ IH]; [done|]. by rewrite filter_cons_False.
Qed.

Lemma filter_all (l : list A) : Forall P l → filter P l = l.
Proof.
  induction 1 as [|x l Hx _ IH]; [done|]. rewrite filter_cons_True by done.
  by f_equal.
Qed.

Lemma filter_ext_Forall (l : list A) :
  Forall (λ x, P x ↔ Q x) l → filter P l = filter Q l.
Proof.
  induction 1 as [|x l Hx _ IH]; [done|].
  destruct (decide (P x)) as [HP|HP].
  - rewrite !filter_cons_True by tauto. by f_equal.
  - rewrite !filter_cons_False by tauto. done.
Qed.
End filter_facts.

(** The number of indices from [a] to [b - 1] at which [skip] is false. *)
Definition count_kept (skip : Z → bool) (a b : Z) : Z :=
  Z.of_nat (length (filter (λ i, skip i = false) (seqZ a (b - a)))).

Lemma count_kept_empty skip a b : b ≤ a → count_kept skip a b = 0.
Proof.
  intros Hab. unfold count_kept.
  assert (Hnil : seqZ a (b - a) = []).
  { apply length_zero_iff_nil. rewrite length_seqZ. lia. }
  by rewrite Hnil.
Qed.

Lemma count_kept_split skip a b c :
  a ≤ b ≤ c → count_kept skip a c = count_kept skip a b + count_kept skip b c.
Proof.
  intros Habc. unfold count_kept.
  replace (c - a) with ((b - a) + (c - b)) by lia.
  rewrite seqZ_app by lia. rewrite filter_app, length_app.
  replace (a + (b - a)) with b by lia. lia.
Qed.

Lemma count_kept_none skip a b :
  (∀ i, a ≤ i < b → skip i = true) → count_kept skip a b = 0.
Proof.
  intros Hall. unfold count_kept. rewrite filter_none; [done|].
  apply Forall_forall. intros i Hi%elem_of_seqZ. rewrite Hall by lia. done.
Qed.

Lemma count_kept_all skip a b :
  a ≤ b → (∀ i, a ≤ i < b → skip i = false) → count_kept skip a b = b - a.
Proof.
  intros Hab Hall. unfold count_kept. rewrite filter_all.
  - rewrite length_seqZ. lia.
  - apply Forall_forall. intros i Hi%elem_of_seqZ. apply Hall. lia.
Qed.

Lemma count_kept_ext skip skip' a b :
  (∀ i, a ≤ i < b → skip i = skip' i) → count_kept skip a b = count_kept skip' a b.
Proof.
  intros Hext. unfold count_kept. do 2 f_equal.
  apply filter_ext_Forall, Forall_forall.
  intros i Hi%elem_of_seqZ. rewrite Hext by lia. done.
Qed.

(** The number of pixels the runs of a list cover. *)
Definition pixels_in_runs (found : list run) : Z :=
  foldr (λ r acc, r.2 - r.1 + 1 + acc) 0 found.

Lemma pixels_in_runs_app found found' :
  pixels_in_runs (found ++ found') = pixels_in_runs found + pixels_in_runs found'.
Proof. induction found as [|[s e] found IH]; simpl in *; lia. Qed.

(** ** The loop of [sortRow] and of [sortColumn], in general

    Both loops scan a line of [limit] entries, entry [i] of the line
    being [pixels[index i]], with a pair of threshold functions. *)

Section line.
Context (first next : list Z → Z → option Z) (index : Z → Z) (limit : Z).

Fixpoint line_loop (n : nat) (pixels : list Z) (x xEnd : Z)
  : option (list Z * list run) :=
  match n with
  | O => None
  | S n =>
      if xEnd <? limit - 1 then
        x ← first pixels x;
        xEnd ← next pixels x;
        if x <? 0 then Some (pixels, [])
        else
          let pixels := sortRun pixels (λ i, index (x + i)) (xEnd - x) in
          '(pixels, found) ← line_loop n pixels (xEnd + 1) xEnd;
          Some (pixels, (x, xEnd) :: found)
      else Some (pixels, [])
  end.

Context (skipv contv : option Z → bool) (len : nat).
Hypothesis first_returns : ∀ pixels x, 0 ≤ x < limit → is_Some (first pixels x).
Hypothesis next_returns : ∀ pixels s, -1 ≤ s < limit → is_Some (next pixels s).
Hypothesis first_sound : ∀ pixels x s,
  0 ≤ x < limit → first pixels x = Some s →
  first_found (λ i, skipv (JS.read pixels (index i))) limit x s.
Hypothesis next_sound : ∀ pixels s e,
  -1 ≤ s < limit → next pixels s = Some e →
  next_found (λ i, contv (JS.read pixels (index i))) limit s e.
Hypothesis cont_not_skip : ∀ v, contv v = true → skipv v = false.
Hypothesis index_inj : ∀ i j, index i = index j → i = j.
Hypothesis index_in_range : ∀ i, 0 ≤ i < limit → 0 ≤ index i < Z.of_nat len.

(** What the loop, entered at [x] on [pixels], leaves behind: the buffer
    is permuted, only entries [x] to [limit - 2] of the line may differ,
    and the runs it met lie in the line, from [x] on. *)
Definition line_post (pixels : list Z) (x : Z) (result : list Z * list run) : Prop :=
  length result.1 = length pixels ∧
  result.1 ≡ₚ pixels ∧
  (∀ j, (∀ i, x ≤ i < limit - 1 → index i ≠ j) →
        JS.read result.1 j = JS.read pixels j) ∧
  Forall (λ r : run, x ≤ r.1 ∧ r.1 ≤ r.2 ∧ r.2 < limit) result.2.

(** The entries of the line, from [a] to [b - 1], at which the first test
    fails: those a run can start at. *)
Definition line_kept (pixels : list Z) (a b : Z) : Z :=
  count_kept (λ i, skipv (JS.read pixels (index i))) a b.

Lemma line_loop_post n pixels x xEnd :
  length pixels = len → 0 ≤ x ≤ xEnd + 1 →
  xEnd < limit - 1 ∨ limit ≤ x →
  (Z.to_nat (limit - x) < n)%nat →
  ∃ result, line_loop n pixels x xEnd = Some result ∧
            line_post pixels x result ∧
            pixels_in_runs result.2 = line_kept pixels x limit.
Proof.
  revert pixels x xEnd.
  induction n as [|n IH]; intros pixels x xEnd Hlen Hx Hrun Hn; [lia|].
  simpl. destruct (Z.ltb_spec xEnd (limit - 1)) as [Hin|Hout].
  - destruct (first_returns pixels x) as [s Hs]; [lia|].
    rewrite Hs. simpl.
    pose proof (first_sound pixels x s ltac:(lia) Hs) as Hfs.
    assert (Hsr : -1 ≤ s < limit) by (destruct Hfs as [[-> _]|(? & _)]; lia).
    destruct (next_returns pixels s Hsr) as [e He]. rewrite He. simpl.
    pose proof (next_sound pixels s e Hsr He) as (Hse & Hel & Hcont & Hstop).
    destruct (Z.ltb_spec s 0) as [Hneg|Hpos].
    + destruct Hfs as [[_ Hall]|(? & _)]; [|lia].
      eexists; split; [done|]. split; [by repeat split|].
      symmetry. by apply count_kept_none.
    + destruct Hfs as [[-> _]|(Hxs & Hstart & Hskip)]; [lia|].
      set (pixels1 := sortRun pixels (λ i, index (s + i)) (e - s)).
      assert (Hlen1 : length pixels1 = len) by (unfold pixels1; by rewrite sortRun_length).
      destruct (IH pixels1 (e + 1) e) as ([pixels' found] & Hloop & Hpost & Hcount);
        [done|lia|lia|lia|].
      rewrite Hloop. simpl. eexists; split; [done|].
      destruct Hpost as (Hl & Hp & Hframe & Hruns). simpl in *.
      assert (Hsame : ∀ j, (∀ i, s ≤ i < e → index i ≠ j) →
                JS.read pixels1 j = JS.read pixels j).
      { intros j Hj. apply sortRun_frame. intros i Hi. apply Hj. lia. }
      split; [repeat split; simpl|].
      * by rewrite Hl, Hlen1.
      * rewrite Hp. apply sortRun_Permutation.
        -- intros i Hi. unfold in_bounds. rewrite Hlen. apply index_in_range. lia.
        -- intros i j _ _ Hij%index_inj. lia.
      * intros j Hj. rewrite Hframe by (intros i Hi; apply Hj; lia).
        apply Hsame. intros i Hi. apply Hj. lia.
      * constructor; [simpl; lia|].
        eapply Forall_impl; [exact Hruns|]. intros [a b]; simpl. lia.
      * rewrite Hcount. unfold line_kept.
        rewrite (count_kept_split _ x s limit) by lia.
        rewrite (count_kept_split _ s (e + 1) limit) by lia.
        rewrite (count_kept_none _ x s) by done.
        rewrite (count_kept_all _ s (e + 1)); [|lia|].
        -- rewrite (count_kept_ext (λ i, skipv (JS.read pixels1 (index i)))
                      (λ i, skipv (JS.read pixels (index i))) (e + 1) limit); [lia|].
           intros i Hi. f_equal. apply Hsame.
           intros k Hk Hik%index_inj. lia.
        -- intros i Hi. destruct (decide (i = s)) as [->|]; [done|].
           apply cont_not_skip, Hcont. lia.
  - eexists; split; [done|]. split; [by repeat split|].
    symmetry. apply count_kept_empty. lia.
Qed.

(** The whole loop, as [sortRow] and [sortColumn] enter it: with more
    than [limit] iterations allowed it returns; a line of one entry is
    not scanned at all. *)
Lemma line_loop_from_0 n pixels :
  length pixels = len → (Z.to_nat limit < n)%nat →
  ∃ result, line_loop n pixels 0 0 = Some result ∧
            line_post pixels 0 result ∧
            pixels_in_runs result.2
              = if 1 <? limit then line_kept pixels 0 limit else 0.
Proof.
  intros Hlen Hn. destruct (Z.ltb_spec 1 limit) as [Hlimit|Hlimit].
  - apply line_loop_post; [done|lia|lia|]. by rewrite Z.sub_0_r.
  - destruct n as [|n]; [lia|]. simpl.
    destruct (Z.ltb_spec 0 (limit - 1)); [lia|].
    eexists; split; [done|]. by repeat split.
Qed.
End line.

(** ** Rows and columns as lines *)

Lemma sortRow_loop_line n fuel this pixels width height row m x xEnd :
  sortRow_loop n fuel this pixels width height row m x xEnd =
  line_loop (λ pixels x, firstX fuel this pixels m width x row)
            (λ pixels x, nextX fuel this pixels m width x row)
            (λ x, x + row * width) width n pixels x xEnd.
Proof.
  revert pixels x xEnd. induction n as [|n IH]; intros pixels x xEnd; simpl; [done|].
  destruct (xEnd <? width - 1); [|done].
  destruct (firstX fuel this pixels m width x row) as [s|]; simpl; [|done].
  destruct (nextX fuel this pixels m width s row) as [e|]; simpl; [|done].
  destruct (s <? 0); [done|]. unfold sortRow_run. by rewrite IH.
Qed.

Lemma sortColumn_loop_line n fuel this pixels width height column m y yEnd :
  sortColumn_loop n fuel this pixels width height column m y yEnd =
  line_loop (λ pixels y, firstY fuel this pixels m width height column y)
            (λ pixels y, nextY fuel this pixels m width height column y)
            (λ y, column + y * width) height n pixels y yEnd.
Proof.
  revert pixels y yEnd. induction n as [|n IH]; intros pixels y yEnd; simpl; [done|].
  destruct (yEnd <? height - 1); [|done].
  destruct (firstY fuel this pixels m width height column y) as [s|]; simpl; [|done].
  destruct (nextY fuel this pixels m width height column s) as [e|]; simpl; [|done].
  destruct (s <? 0); [done|]. unfold sortColumn_run. by rewrite IH.
Qed.

(** In every mode, an entry that lets the second scan go on stops the
    first one. *)
Lemma cont_test_not_skip this m v :
  cont_test this m v = true → skip_test this m v = false.
Proof.
  unfold cont_test, skip_test, JS.gt, JS.lt.
  destruct m; try (destruct v as [v|]; [|done]);
    intros ?%Z.ltb_lt; apply Z.ltb_ge.
  all: lia.
Qed.

(** The entries a scan of the whole line can start a run at, none for a
    line of a single entry, which is not scanned. *)
Definition scanned_kept (index : Z → Z) (limit : Z) (skipv : option Z → bool)
    (pixels : list Z) : Z :=
  if 1 <? limit then line_kept index skipv pixels 0 limit else 0.

(** What [sortRow] and [sortColumn] do to a line. *)
Definition scanline_post (index : Z → Z) (limit : Z) (skipv : option Z → bool)
    (pixels : list Z) (result : list Z * list run) : Prop :=
  line_post index limit pixels 0 result ∧
  pixels_in_runs result.2 = scanned_kept index limit skipv pixels.

Lemma sortRow_post fuel this pixels width height row m :
  Z.of_nat (length pixels) = width * height →
  0 ≤ row < height → width < Z.of_nat fuel →
  ∃ result, sortRow fuel this pixels width height row m = Some result ∧
            scanline_post (λ x, x + row * width) width (skip_test this m)
              pixels result.
Proof.
  intros Hlen Hrow Hfuel. unfold sortRow. rewrite sortRow_loop_line.
  assert (0 ≤ width) by nia.
  apply (line_loop_from_0 _ _ _ _ (skip_test this m) (cont_test this m)
           (length pixels)).
  - intros px x Hx. apply firstX_returns; lia.
  - intros px s Hs. apply nextX_returns; lia.
  - intros px x s Hx. by apply firstX_sound.
  - intros px s e Hs. by apply nextX_sound.
  - apply cont_test_not_skip.
  - intros i j. lia.
  - intros i Hi. rewrite Hlen. by apply index_in_range.
  - done.
  - lia.
Qed.

Lemma sortColumn_post fuel this pixels width height column m :
  Z.of_nat (length pixels) = width * height →
  0 ≤ column < width → height < Z.of_nat fuel →
  ∃ result, sortColumn fuel this pixels width height column m = Some result ∧
            scanline_post (λ y, column + y * width) height (skip_test this m)
              pixels result.
Proof.
  intros Hlen Hcolumn Hfuel. unfold sortColumn. rewrite sortColumn_loop_line.
  assert (0 ≤ height) by nia.
  apply (line_loop_from_0 _ _ _ _ (skip_test this m) (cont_test this m)
           (length pixels)).
  - intros px y Hy. apply firstY_returns; lia.
  - intros px s Hs. apply nextY_returns; lia.
  - intros px y s Hy. by apply firstY_sound.
  - intros px s e Hs. by apply nextY_sound.
  - apply cont_test_not_skip.
  - intros i j. nia.
  - intros i Hi. rewrite Hlen. by apply index_in_range.
  - done.
  - lia.
Qed.

(** ** The two phases of [sortImage], in general *)

(** The calls a phase makes to the progress callback: one for each line
    whose number is a multiple of 10. *)
Definition line_reports (supplied : bool) (percent : Z → Q) (label : string)
    (lines : list Z) : list (Q * string) :=
  if supplied
  then (λ line, (percent line, label)) <$> filter (λ line, line `mod` 10 = 0) lines
  else [].

Lemma report_work supplied cond percent label st :
  work (report supplied cond percent label st) = work st.
Proof. unfold report. by destruct (supplied && cond). Qed.

Lemma report_runs supplied cond percent label st :
  runs (report supplied cond percent label st) = runs st.
Proof. unfold report. by destruct (supplied && cond). Qed.

Lemma report_calls supplied cond percent label st :
  calls (report supplied cond percent label st) =
  calls st ++ (if supplied && cond then [(percent, label)] else []).
Proof. unfold report. destruct (supplied && cond); simpl; [done|]. by rewrite app_nil_r. Qed.

Section phase.
Context (sortLine : list Z → Z → option (list Z * list run)).
Context (percent : Z → Q) (label : string) (supplied : bool).

Fixpoint phase (lines : list Z) (st : state) : option state :=
  match lines with
  | [] => Some st
  | line :: lines =>
      '(pixels, found) ← sortLine (work st) line;
      let st := {| work := pixels; runs := runs st ++ found; calls := calls st |} in
      let st := report supplied (line `mod` 10 =? 0) (percent line) label st in
      phase lines st
  end.

Context (index : Z → Z → Z) (limit : Z) (skipv : option Z → bool).
Context (valid : Z → Prop) (len : nat).
Hypothesis sortLine_post : ∀ pixels line,
  length pixels = len → valid line →
  ∃ result, sortLine pixels line = Some result ∧
            scanline_post (index line) limit skipv pixels result.
Hypothesis lines_apart : ∀ line line' i i',
  valid line → valid line' → line ≠ line' →
  0 ≤ i < limit → 0 ≤ i' < limit → index line i ≠ index line' i'.

(** The entries of the given lines at which a run can start. *)
Definition phase_kept (pixels : list Z) (lines : list Z) : Z :=
  foldr (λ line acc, scanned_kept (index line) limit skipv pixels + acc) 0 lines.

(** What a phase over [lines] makes of the state [st]. *)
Definition phase_post (lines : list Z) (st st' : state) : Prop :=
  length (work st') = length (work st) ∧
  work st' ≡ₚ work st ∧
  (∀ j, (∀ line i, line ∈ lines → 0 ≤ i < limit - 1 → index line i ≠ j) →
        JS.read (work st') j = JS.read (work st) j) ∧
  calls st' = calls st ++ line_reports supplied percent label lines ∧
  ∃ found, runs st' = runs st ++ found ∧
           pixels_in_runs found = phase_kept (work st) lines.

Lemma phase_kept_ext pixels pixels' lines :
  (∀ line i, line ∈ lines → 0 ≤ i < limit →
     JS.read pixels (index line i) = JS.read pixels' (index line i)) →
  phase_kept pixels lines = phase_kept pixels' lines.
Proof.
  induction lines as [|line lines IH]; intros Hsame; simpl; [done|].
  rewrite IH by (intros; apply Hsame; [by right|done]). f_equal.
  unfold scanned_kept, line_kept. case_match; [|done].
  apply count_kept_ext. intros i Hi. f_equal. apply Hsame; [by left|lia].
Qed.

Lemma phase_returns lines st :
  length (work st) = len → Forall valid lines → NoDup lines →
  ∃ st', phase lines st = Some st' ∧ phase_post lines st st'.
Proof.
  revert st. induction lines as [|line lines IH]; intros st Hlen Hvalid Hnd.
  - eexists; split; [done|]. split; [done|]. split; [done|]. split; [done|].
    split.
    + unfold line_reports. destruct supplied; by rewrite app_nil_r.
    + exists []. by rewrite app_nil_r.
  - apply Forall_cons in Hvalid as [Hline Hvalid].
    apply NoDup_cons in Hnd as [Hnotin Hnd].
    destruct (sortLine_post (work st) line Hlen Hline)
      as ([pixels found] & Hsort & (Hl & Hp & Hframe & _) & Hcount).
    simpl in *. rewrite Hsort. simpl.
    set (st1 := report _ _ _ _ _).
    assert (Hwork1 : work st1 = pixels) by apply report_work.
    destruct (IH st1) as (st' & Hphase & Hl' & Hp' & Hframe' & Hcalls' & found' & Hruns' & Hcount');
      [by rewrite Hwork1, Hl|done|done|].
    rewrite Hphase. eexists; split; [done|].
    rewrite Hwork1 in *. split; [|split; [|split; [|split]]].
    + by rewrite Hl', Hl.
    + by rewrite Hp', Hp.
    + intros j Hj. rewrite Hframe' by (intros ????; apply Hj; [by right|done]).
      apply Hframe. intros i Hi. apply Hj; [by left|lia].
    + rewrite Hcalls'. unfold st1. rewrite report_calls. simpl.
      rewrite <-app_assoc. f_equal. unfold line_reports.
      destruct supplied; simpl; [|done].
      destruct (Z.eqb_spec (line `mod` 10) 0) as [Hmod|Hmod].
      * by rewrite filter_cons_True.
      * by rewrite filter_cons_False.
    + exists (found ++ found'). split.
      * rewrite Hruns'. unfold st1. rewrite report_runs. simpl. by rewrite app_assoc.
      * rewrite pixels_in_runs_app, Hcount, Hcount'. simpl. f_equal.
        apply phase_kept_ext. intros line' i Hline' Hi.
        apply Hframe. intros k Hk.
        apply lines_apart; [done| |by intros ->|lia|lia].
        eapply Forall_forall in Hvalid; done.
Qed.
End phase.

(** ** The two phases of [sortImage] *)

Definition column_percent (width : Z) (column : Z) : Q :=
  (inject_Z column / inject_Z width * 50)%Q.
Definition row_percent (height : Z) (row : Z) : Q :=
  (50 + inject_Z row / inject_Z height * 50)%Q.

Lemma sortColumns_phase columns fuel this width height m supplied st :
  sortColumns columns fuel this width height m supplied st =
  phase (λ pixels column, sortColumn fuel this pixels width height column m)
        (column_percent width) "Sorting columns..." supplied columns st.
Proof.
  revert st. induction columns as [|column columns IH]; intros st; simpl; [done|].
  destruct (sortColumn fuel this (work st) width height column m) as [[pixels found]|];
    simpl; [|done].
  apply IH.
Qed.

Lemma sortRows_phase rows fuel this width height m supplied st :
  sortRows rows fuel this width height m supplied st =
  phase (λ pixels row, sortRow fuel this pixels width height row m)
        (row_percent height) "Sorting rows..." supplied rows st.
Proof.
  revert st. induction rows as [|row rows IH]; intros st; simpl; [done|].
  destruct (sortRow fuel this (work st) width height row m) as [[pixels found]|];
    simpl; [|done].
  apply IH.
Qed.

(** What the column phase and the row phase make of a state. *)
Definition columns_post (this : PixelSorter) (m : mode) (supplied : bool)
    (width height : Z) (st st' : state) : Prop :=
  phase_post (column_percent width) "Sorting columns..." supplied
    (λ column y, column + y * width) height (skip_test this m)
    (seqZ 0 (width - 1)) st st'.

Definition rows_post (this : PixelSorter) (m : mode) (supplied : bool)
    (width height : Z) (st st' : state) : Prop :=
  phase_post (row_percent height) "Sorting rows..." supplied
    (λ row x, x + row * width) width (skip_test this m)
    (seqZ 0 (height - 1)) st st'.

Lemma sortColumns_returns fuel this width height m supplied st :
  Z.of_nat (length (work st)) = width * height →
  height < Z.of_nat fuel →
  ∃ st', sortColumns (seqZ 0 (width - 1)) fuel this width height m supplied st
           = Some st' ∧
         columns_post this m supplied width height st st'.
Proof.
  intros Hlen Hfuel. rewrite sortColumns_phase.
  apply (phase_returns _ _ _ _ _ _ _ (λ column, 0 ≤ column < width)
           (length (work st))).
  - intros pixels column Hpx Hcolumn. apply sortColumn_post; [|done|done].
    by rewrite Hpx.
  - intros c c' i i' Hc Hc' Hne Hi Hi' Heq.
    destruct (Z.lt_trichotomy i i') as [Hlt|[->|Hgt]]; [nia|lia|nia].
  - done.
  - apply Forall_forall. intros c Hc%elem_of_seqZ. lia.
  - apply NoDup_seqZ.
Qed.

Lemma sortRows_returns fuel this width height m supplied st :
  Z.of_nat (length (work st)) = width * height →
  width < Z.of_nat fuel →
  ∃ st', sortRows (seqZ 0 (height - 1)) fuel this width height m supplied st
           = Some st' ∧
         rows_post this m supplied width height st st'.
Proof.
  intros Hlen Hfuel. rewrite sortRows_phase.
  apply (phase_returns _ _ _ _ _ _ _ (λ row, 0 ≤ row < height)
           (length (work st))).
  - intros pixels row Hpx Hrow. apply sortRow_post; [|done|done].
    by rewrite Hpx.
  - intros r r' i i' Hr Hr' Hne Hi Hi'. nia.
  - done.
  - apply Forall_forall. intros r Hr%elem_of_seqZ. lia.
  - apply NoDup_seqZ.
Qed.

Lemma convertToRGB_length pixels (w h : nat) :
  length (convertToRGB pixels w h) = (w * h)%nat.
Proof. unfold convertToRGB. by rewrite length_fmap, length_seq. Qed.

(** The three states of a call of [sortImage]: before the columns, before
    the rows, and at the end. *)
Definition initial_state (img : ImageData) (supplied : bool) : state :=
  report supplied true 0%Q "Sorting columns..."
    {| work := convertToRGB (JS.clamp8 <$> data img) (width img) (height img);
       runs := []; calls := [] |}.

(** With more fuel than the image is wide and high, [sortImage] returns,
    the two phases having done their work in between. *)
Lemma sortImage_returns fuel this img m supplied :
  Z.of_nat (width img) < Z.of_nat fuel → Z.of_nat (height img) < Z.of_nat fuel →
  ∃ st1 st2,
    columns_post this m supplied (Z.of_nat (width img)) (Z.of_nat (height img))
      (initial_state img supplied) st1 ∧
    rows_post this m supplied (Z.of_nat (width img)) (Z.of_nat (height img))
      (report supplied true 50%Q "Sorting rows..." st1) st2 ∧
    sortImage fuel this img m supplied =
    Some {| exec_state := report supplied true 100%Q "Complete!" st2;
            exec_result :=
              new_ImageData (convertToRGBA (work st2) (JS.clamp8 <$> data img))
                (width img) (height img) |}.
Proof.
  intros Hw Hh. unfold sortImage. fold (initial_state img supplied).
  assert (Hlen0 : Z.of_nat (length (work (initial_state img supplied)))
                  = Z.of_nat (width img) * Z.of_nat (height img)).
  { unfold initial_state. rewrite report_work. simpl.
    rewrite convertToRGB_length. lia. }
  destruct (sortColumns_returns fuel this _ _ m supplied _ Hlen0 Hh)
    as (st1 & -> & Hcols). simpl.
  assert (Hlen1 : Z.of_nat (length (work (report supplied true 50%Q "Sorting rows..." st1)))
                  = Z.of_nat (width img) * Z.of_nat (height img)).
  { rewrite report_work. destruct Hcols as (-> & _). done. }
  destruct (sortRows_returns fuel this _ _ m supplied _ Hlen1 Hw)
    as (st2 & -> & Hrows). simpl.
  by exists st1, st2.
Qed.

(** ** Packing and unpacking a colour *)

Lemma ToInt32_id z : - 2 ^ 31 ≤ z < 2 ^ 31 → JS.ToInt32 z = z.
Proof. intros Hz. unfold JS.ToInt32. rewrite Z.mod_small; lia. Qed.

Lemma byte_land_ones v : is_byte v → Z.land v (Z.ones 8) = v.
Proof.
  intros [??]. rewrite Z.land_ones by lia. apply Z.mod_small.
  change (2 ^ 8) with 256. lia.
Qed.

Lemma land_ones_range v n : 0 ≤ n → v = Z.land v (Z.ones n) → 0 ≤ v < 2 ^ n.
Proof.
  intros Hn ->. rewrite Z.land_ones by done. apply Z.mod_pos_bound. lia.
Qed.

Lemma land_255_byte v : is_byte (Z.land v 255).
Proof.
  change 255 with (Z.ones 8). rewrite Z.land_ones by lia.
  pose proof (Z.mod_pos_bound v (2 ^ 8) ltac:(lia)) as Hb.
  change (2 ^ 8) with 256 in Hb. unfold is_byte. change (2 ^ 8) with 256. lia.
Qed.

Lemma clamp8_byte v : is_byte v → JS.clamp8 v = v.
Proof. intros [??]. unfold JS.clamp8. lia. Qed.

Lemma clamp8_is_byte v : is_byte (JS.clamp8 v).
Proof. unfold JS.clamp8, is_byte. lia. Qed.

(** The packed colour of three bytes, without the 32-bit wraps. *)
Definition packed (r g b : Z) : Z :=
  Z.lor (Z.lor (Z.lor (Z.shiftl r 16) (Z.shiftl g 8)) b) (Z.shiftl (-1) 24).

Lemma packed_sum r g b :
  is_byte r → is_byte g → is_byte b →
  ∃ low, 0 ≤ low < 2 ^ 24 ∧
         Z.lor (Z.lor (Z.shiftl r 16) (Z.shiftl g 8)) b = low ∧
         0 ≤ Z.lor (Z.shiftl r 16) (Z.shiftl g 8) < 2 ^ 24 ∧
         packed r g b = low - 16777216.
Proof.
  intros Hr%byte_land_ones Hg%byte_land_ones Hb%byte_land_ones.
  set (low := Z.lor (Z.lor (Z.shiftl r 16) (Z.shiftl g 8)) b).
  assert (Hmask : low = Z.land low (Z.ones 24)).
  { unfold low. rewrite <-Hr, <-Hg, <-Hb. Z.bitblast. }
  assert (Hdisj : Z.land low (Z.shiftl (-1) 24) = 0).
  { rewrite Hmask. Z.bitblast. }
  exists low. split; [by apply land_ones_range|]. split; [done|]. split.
  - apply land_ones_range; [lia|]. rewrite <-Hr, <-Hg. Z.bitblast.
  - unfold packed. fold low.
    rewrite <-Z.lxor_lor by done. rewrite <-Z.add_nocarry_lxor by done.
    change (Z.shiftl (-1) 24) with (-16777216). lia.
Qed.

Lemma packed_range r g b :
  is_byte r → is_byte g → is_byte b → -16777216 ≤ packed r g b ≤ -1.
Proof.
  intros Hr Hg Hb. destruct (packed_sum r g b Hr Hg Hb) as (low & Hlow & _ & _ & ->).
  change (2 ^ 24) with 16777216 in Hlow. lia.
Qed.

Lemma packed_red r g b :
  is_byte r → is_byte g → is_byte b →
  Z.land (Z.shiftr (packed r g b) 16) 255 = r.
Proof.
  intros Hr%byte_land_ones Hg%byte_land_ones Hb%byte_land_ones.
  unfold packed. rewrite <-Hr, <-Hg, <-Hb. change 255 with (Z.ones 8).
  Z.bitblast.
Qed.

Lemma packed_green r g b :
  is_byte r → is_byte g → is_byte b →
  Z.land (Z.shiftr (packed r g b) 8) 255 = g.
Proof.
  intros Hr%byte_land_ones Hg%byte_land_ones Hb%byte_land_ones.
  unfold packed. rewrite <-Hr, <-Hg, <-Hb. change 255 with (Z.ones 8).
  Z.bitblast.
Qed.

Lemma packed_blue r g b :
  is_byte r → is_byte g → is_byte b →
  Z.land (packed r g b) 255 = b.
Proof.
  intros Hr%byte_land_ones Hg%byte_land_ones Hb%byte_land_ones.
  unfold packed. rewrite <-Hr, <-Hg, <-Hb. change 255 with (Z.ones 8).
  Z.bitblast.
Qed.

(** On bytes the wraps of the bitwise operators do nothing. *)
Lemma packRGB_packed r g b :
  is_byte r → is_byte g → is_byte b →
  packRGB (Some r) (Some g) (Some b) = packed r g b.
Proof.
  intros Hr Hg Hb.
  destruct (packed_sum r g b Hr Hg Hb) as (low & Hlow & Hlor & Hrg & _).
  change (2 ^ 24) with 16777216 in *.
  assert (Hsr : Z.shiftl r 16 = r * 65536) by (by rewrite Z.shiftl_mul_pow2).
  assert (Hsg : Z.shiftl g 8 = g * 256) by (by rewrite Z.shiftl_mul_pow2).
  unfold is_byte in *.
  unfold packRGB, packed, JS.bor, JS.shl, JS.int_of. simpl.
  rewrite (ToInt32_id r), (ToInt32_id g), (ToInt32_id b) by lia.
  rewrite !(ToInt32_id (Z.shiftl r 16)), !(ToInt32_id (Z.shiftl g 8)) by lia.
  rewrite (ToInt32_id (Z.lor (Z.shiftl r 16) (Z.shiftl g 8))) by lia.
  rewrite Hlor. rewrite (ToInt32_id low) by lia. done.
Qed.

(** Unpacking a value of the working buffer. *)
Lemma unpack_in_range c :
  - 2 ^ 31 ≤ c < 2 ^ 31 →
  red c = Z.land (Z.shiftr c 16) 255 ∧
  green c = Z.land (Z.shiftr c 8) 255 ∧
  blue c = Z.land c 255.
Proof.
  intros Hc. unfold red, green, blue, JS.band, JS.sar.
  rewrite (ToInt32_id c) by done. rewrite (ToInt32_id 255) by lia.
  rewrite !Z.shiftr_div_pow2 by lia.
  change (2 ^ 16) with 65536. change (2 ^ 8) with 256.
  rewrite !ToInt32_id; [done| |]; Z.div_mod_to_equations; lia.
Qed.

Lemma unpack_packRGB r g b :
  is_byte r → is_byte g → is_byte b →
  let c := packRGB (Some r) (Some g) (Some b) in
  -16777216 ≤ c ≤ -1 ∧ red c = r ∧ green c = g ∧ blue c = b.
Proof.
  intros Hr Hg Hb. simpl. rewrite packRGB_packed by done.
  pose proof (packed_range r g b Hr Hg Hb) as Hrange.
  destruct (unpack_in_range (packed r g b)) as (-> & -> & ->); [lia|].
  by rewrite packed_red, packed_green, packed_blue.
Qed.

(** ** The conversions *)

Lemma packRGB_int_of r g b :
  packRGB r g b = packRGB (Some (JS.int_of r)) (Some (JS.int_of g)) (Some (JS.int_of b)).
Proof. unfold packRGB. destruct r, g, b; reflexivity. Qed.

Lemma int_of_lookup_byte (pixels : list Z) (i : nat) :
  Forall is_byte pixels → is_byte (JS.int_of (pixels !! i)).
Proof.
  intros Hbytes. destruct (pixels !! i) as [v|] eqn:Hv; simpl.
  - by eapply Forall_lookup_1 in Hbytes.
  - unfold is_byte. lia.
Qed.

Lemma convertToRGB_lookup pixels (w h i : nat) :
  (i < w * h)%nat →
  convertToRGB pixels w h !! i =
  Some (packRGB (pixels !! (i * 4)%nat) (pixels !! (i * 4 + 1)%nat)
                (pixels !! (i * 4 + 2)%nat)).
Proof.
  intros Hi. unfold convertToRGB. rewrite list_lookup_fmap, lookup_seq_lt by done.
  done.
Qed.

(** Every entry of the working buffer is a packed colour. *)
Definition is_packed (c : Z) : Prop := -16777216 ≤ c ≤ -1.

Lemma convertToRGB_packed pixels (w h : nat) :
  Forall is_byte pixels → Forall is_packed (convertToRGB pixels w h).
Proof.
  intros Hbytes. unfold convertToRGB. apply Forall_fmap, Forall_forall.
  intros i _. simpl. rewrite packRGB_int_of.
  apply unpack_packRGB; by apply int_of_lookup_byte.
Qed.

Section convertToRGBA_facts.
Context (originalPixels : list Z).

Let body := convertToRGBA_body originalPixels.

Lemma convertToRGBA_body_length acc ic : length (body acc ic) = length acc.
Proof. destruct ic as [i c]. unfold body. simpl. by rewrite !length_insert. Qed.

Lemma convertToRGBA_fold_length acc l :
  length (foldl body acc l) = length acc.
Proof.
  revert acc. induction l as [|ic l IH]; intros acc; simpl; [done|].
  by rewrite IH, convertToRGBA_body_length.
Qed.

Lemma convertToRGBA_body_frame acc (i : nat) c (j : nat) :
  (j < i * 4 ∨ i * 4 + 3 < j)%nat → body acc (i, c) !! j = acc !! j.
Proof.
  intros Hj. unfold body. simpl. rewrite !list_lookup_insert_ne by lia. done.
Qed.

Lemma convertToRGBA_fold_frame acc (a : nat) (rgb : list Z) (j : nat) :
  (j < a * 4)%nat →
  foldl body acc (zip (seq a (length rgb)) rgb) !! j = acc !! j.
Proof.
  revert acc a. induction rgb as [|c rgb IH]; intros acc a Hj; simpl; [done|].
  rewrite IH by lia. apply convertToRGBA_body_frame. lia.
Qed.

Lemma convertToRGBA_body_lookup acc (i : nat) c :
  (i * 4 + 3 < length acc)%nat →
  body acc (i, c) !! (i * 4)%nat = Some (JS.clamp8 (red c)) ∧
  body acc (i, c) !! (i * 4 + 1)%nat = Some (JS.clamp8 (green c)) ∧
  body acc (i, c) !! (i * 4 + 2)%nat = Some (JS.clamp8 (blue c)) ∧
  body acc (i, c) !! (i * 4 + 3)%nat
    = Some (JS.clamp8 (JS.int_of (originalPixels !! (i * 4 + 3)%nat))).
Proof.
  intros Hlen. unfold body. simpl. repeat split.
  - rewrite !list_lookup_insert_ne by lia. apply list_lookup_insert_eq. lia.
  - rewrite !list_lookup_insert_ne by lia. apply list_lookup_insert_eq.
    rewrite length_insert. lia.
  - rewrite !list_lookup_insert_ne by lia. apply list_lookup_insert_eq.
    rewrite !length_insert. lia.
  - apply list_lookup_insert_eq. rewrite !length_insert. lia.
Qed.

Lemma convertToRGBA_fold_lookup acc (a : nat) (rgb : list Z) (i : nat) c :
  rgb !! i = Some c → ((a + i) * 4 + 3 < length acc)%nat →
  let out := foldl body acc (zip (seq a (length rgb)) rgb) in
  out !! ((a + i) * 4)%nat = Some (JS.clamp8 (red c)) ∧
  out !! ((a + i) * 4 + 1)%nat = Some (JS.clamp8 (green c)) ∧
  out !! ((a + i) * 4 + 2)%nat = Some (JS.clamp8 (blue c)) ∧
  out !! ((a + i) * 4 + 3)%nat
    = Some (JS.clamp8 (JS.int_of (originalPixels !! ((a + i) * 4 + 3)%nat))).
Proof.
  revert acc a i. induction rgb as [|c0 rgb IH]; intros acc a i Hc Hlen; [done|].
  cbv zeta.
  change (foldl body acc (zip (seq a (length (c0 :: rgb))) (c0 :: rgb)))
    with (foldl body (body acc (a, c0)) (zip (seq (S a) (length rgb)) rgb)).
  destruct i as [|i]; simpl in Hc.
  - injection Hc as ->. rewrite Nat.add_0_r in *.
    rewrite !convertToRGBA_fold_frame by lia.
    by apply convertToRGBA_body_lookup.
  - replace (a + S i)%nat with (S a + i)%nat in * by lia.
    apply IH; [done|]. by rewrite convertToRGBA_body_length.
Qed.

Lemma convertToRGBA_length rgbPixels :
  length (convertToRGBA rgbPixels originalPixels) = length originalPixels.
Proof. unfold convertToRGBA. by rewrite convertToRGBA_fold_length, length_replicate. Qed.

(** Pixel [i] of the result of [convertToRGBA]: the colour unpacked from
    entry [i] of the buffer, and the alpha of the original pixel. *)
Lemma convertToRGBA_lookup rgbPixels (i : nat) c :
  rgbPixels !! i = Some c → (i * 4 + 3 < length originalPixels)%nat →
  let out := convertToRGBA rgbPixels originalPixels in
  out !! (i * 4)%nat = Some (JS.clamp8 (red c)) ∧
  out !! (i * 4 + 1)%nat = Some (JS.clamp8 (green c)) ∧
  out !! (i * 4 + 2)%nat = Some (JS.clamp8 (blue c)) ∧
  out !! (i * 4 + 3)%nat
    = Some (JS.clamp8 (JS.int_of (originalPixels !! (i * 4 + 3)%nat))).
Proof.
  intros Hc Hlen. unfold convertToRGBA.
  apply (convertToRGBA_fold_lookup _ 0 rgbPixels i c Hc).
  by rewrite length_replicate.
Qed.
End convertToRGBA_facts.

(** ** Sorting a run permutes it in place (C4) *)

Lemma run_values_snoc pixels (index : Z → Z) (n : Z) :
  0 ≤ n →
  run_values pixels index (n + 1) =
  run_values pixels index n ++ [JS.int_of (JS.read pixels (index n))].
Proof.
  intros Hn. unfold run_values. rewrite seqZ_app by lia.
  rewrite fmap_app. f_equal.
Qed.

(** The run from [s] to [e] of a line keeps its multiset of packed values
    from [pixels] to [pixels'], and no entry outside the run changes. *)
Definition run_permuted_in_place (pixels pixels' : list Z) (index : Z → Z)
    (s e : Z) : Prop :=
  run_values pixels' (λ i, index (s + i)) (e - s + 1)
    ≡ₚ run_values pixels (λ i, index (s + i)) (e - s + 1) ∧
  ∀ j, (∀ i, s ≤ i ≤ e → index i ≠ j) → JS.read pixels' j = JS.read pixels j.

Lemma sortRun_permuted_in_place pixels (index : Z → Z) (s e : Z) :
  s ≤ e →
  (∀ i, s ≤ i ≤ e → in_bounds pixels (index i)) →
  (∀ i j, index i = index j → i = j) →
  run_permuted_in_place pixels (sortRun pixels (λ i, index (s + i)) (e - s))
    index s e.
Proof.
  intros Hse Hin Hinj.
  destruct (sortRun_sorted_in_place pixels index s e) as [Hsort Hsame];
    [intros i Hi; apply Hin; lia|done|].
  destruct (Z.ltb_spec 1 (e - s)) as [Hlong|Hshort].
  - destruct (Hsort Hlong) as [[_ Hperm] Hframe]. split.
    + rewrite !run_values_snoc by lia. rewrite Hperm. do 3 f_equiv.
      apply Hframe. intros i Hi Hie%Hinj. lia.
    + intros j Hj. apply Hframe. intros i Hi. apply Hj. lia.
  - rewrite (Hsame Hshort). by split.
Qed.

(** C4.  In every mode, for every row and every column of a [width] by
    [height] buffer and every run the scan finds on it, from [s] to [e]:
    sorting the run leaves the multiset of the packed values at positions
    [s] to [e] as it was, and no entry of the buffer outside these
    positions, on this line or on another, changes. *)
Theorem run_local_permutation (fuel : nat) (this : PixelSorter) (m : mode)
    (pixels : list Z) (width height : Z) :
  Z.of_nat (length pixels) = width * height →
  (∀ row x s e, 0 ≤ row < height → 0 ≤ x < width →
     firstX fuel this pixels m width x row = Some s → 0 ≤ s →
     nextX fuel this pixels m width s row = Some e →
     s ≤ e < width ∧
     run_permuted_in_place pixels (sortRow_run pixels width row s e)
       (λ x, x + row * width) s e) ∧
  (∀ column y s e, 0 ≤ column < width → 0 ≤ y < height →
     firstY fuel this pixels m width height column y = Some s → 0 ≤ s →
     nextY fuel this pixels m width height column s = Some e →
     s ≤ e < height ∧
     run_permuted_in_place pixels (sortColumn_run pixels width column s e)
       (λ y, column + y * width) s e).
Proof.
  intros Hlen. split.
  - intros row x s e Hrow Hx Hs Hs0 He.
    pose proof (firstX_sound _ _ _ _ _ _ _ _ Hx Hs) as [[-> _]|(Hxs & _)]; [lia|].
    assert (Hsr : -1 ≤ s < width) by lia.
    pose proof (nextX_sound _ _ _ _ _ _ _ _ Hsr He) as (Hse & Hel & _).
    split; [lia|].
    apply (sortRun_permuted_in_place pixels (λ x, x + row * width)); [done| |].
    + intros i Hi. unfold in_bounds. rewrite Hlen. apply index_in_range; lia.
    + intros i j. lia.
  - intros column y s e Hcolumn Hy Hs Hs0 He.
    pose proof (firstY_sound _ _ _ _ _ _ _ _ _ Hy Hs) as [[-> _]|(Hys & _)]; [lia|].
    assert (Hsr : -1 ≤ s < height) by lia.
    pose proof (nextY_sound _ _ _ _ _ _ _ _ _ Hsr He) as (Hse & Hel & _).
    split; [lia|].
    apply (sortRun_permuted_in_place pixels (λ y, column + y * width)); [done| |].
    + intros i Hi. unfold in_bounds. rewrite Hlen. apply index_in_range; lia.
    + intros i j. nia.
Qed.

Lemma run_local_permutation_witness :
  let this := setThresholds (-10) (-3456789) 127 223 in
  let pixels := [-1; -2; -3; -20; -7; -7; -7; -7] in
  Z.of_nat (length pixels) = 4 * 2 ∧
  firstX 5 this pixels White 4 0 0 = Some 0 ∧
  nextX 5 this pixels White 4 0 0 = Some 2 ∧
  run_permuted_in_place pixels (sortRow_run pixels 4 0 0 2) (λ x, x + 0 * 4) 0 2.
Proof.
  intros this pixels. split; [reflexivity|]. split; [reflexivity|].
  split; [reflexivity|].
  destruct (run_local_permutation 5 this White pixels 4 2 eq_refl) as [Hrows _].
  apply (Hrows 0 0 0 2); [lia|lia|reflexivity|lia|reflexivity].
Defined.

(** ** The result of [sortImage] *)

(** A buffer the specification calls malformed: a dimension is not positive, or
    the data has not four bytes for each pixel. *)
Definition malformed (img : ImageData) : Prop :=
  width img = 0%nat ∨ height img = 0%nat ∨
  length (data img) ≠ (width img * height img * 4)%nat.

Lemma new_ImageData_Return (data : list Z) (w h : nat) :
  (1 ≤ w)%nat → (1 ≤ h)%nat → length data = (w * h * 4)%nat →
  new_ImageData data w h = Return {| width := w; height := h; data := data |}.
Proof.
  intros Hw Hh Hlen. unfold new_ImageData. rewrite Hlen.
  assert (Hmod : ((w * h * 4) `mod` 4 = 0)%nat) by apply Nat.Div0.mod_mul.
  assert (Hdiv : ((w * h * 4) `div` 4 = w * h)%nat) by (by apply Nat.div_mul).
  assert (Hmodw : ((w * h) `mod` w = 0)%nat)
    by (rewrite Nat.mul_comm; apply Nat.Div0.mod_mul).
  assert (Hdivw : ((w * h) `div` w = h)%nat)
    by (rewrite Nat.mul_comm; apply Nat.div_mul; lia).
  destruct (decide _) as [[?|?]|_]; [nia|lia|].
  rewrite Hdiv. destruct (decide _) as [[?|?]|_]; [lia|lia|].
  destruct (decide _) as [?|_]; [lia|done].
Qed.

Lemma new_ImageData_Throw (data : list Z) (w h : nat) :
  w = 0%nat ∨ h = 0%nat ∨ length data ≠ (w * h * 4)%nat →
  ∃ e, new_ImageData data w h = Throw e.
Proof.
  intros Hbad. unfold new_ImageData.
  destruct (decide _) as [_|Hlen]; [by eexists|].
  destruct (decide _) as [_|Hw]; [by eexists|].
  destruct (decide _) as [_|Hh]; [by eexists|].
  exfalso.
  assert (Hl4 : length data = (4 * (length data `div` 4))%nat).
  { apply Nat.Div0.div_exact. lia. }
  assert (Hlw : (length data `div` 4 = w * ((length data `div` 4) `div` w))%nat).
  { apply Nat.Div0.div_exact. lia. }
  destruct Hbad as [->|[->|Hne]]; [lia|nia|nia].
Qed.

Lemma clamp8_bytes (data : list Z) : Forall is_byte data → JS.clamp8 <$> data = data.
Proof.
  induction 1 as [|v data Hv _ IH]; simpl; [done|].
  f_equal; [by apply clamp8_byte|exact IH].
Qed.

Lemma clamp8_fmap_bytes (data : list Z) : Forall is_byte (JS.clamp8 <$> data).
Proof. apply Forall_fmap, Forall_forall. intros v _. apply clamp8_is_byte. Qed.

(** ** More fuel changes nothing *)

Lemma fmap_scan_mono {B} (f : scan_exit → B) fuel fuel' test limit x (r : B) :
  (fuel ≤ fuel')%nat →
  f <$> scan fuel test limit x = Some r → f <$> scan fuel' test limit x = Some r.
Proof.
  intros Hle (e & He & ->)%fmap_Some.
  by rewrite (scan_fuel_mono _ _ _ _ _ _ Hle He).
Qed.

Section fuel_mono.
Context (fuel fuel' : nat) (this : PixelSorter) (m : mode).
Hypothesis fuel_le : (fuel ≤ fuel')%nat.

Lemma firstX_mono pixels width x row s :
  firstX fuel this pixels m width x row = Some s →
  firstX fuel' this pixels m width x row = Some s.
Proof. destruct m; by apply fmap_scan_mono. Qed.

Lemma nextX_mono pixels width x row e :
  nextX fuel this pixels m width x row = Some e →
  nextX fuel' this pixels m width x row = Some e.
Proof. destruct m; by apply fmap_scan_mono. Qed.

Lemma firstY_mono pixels width height column y s :
  firstY fuel this pixels m width height column y = Some s →
  firstY fuel' this pixels m width height column y = Some s.
Proof.
  destruct m; simpl;
    unfold getFirstNoneWhiteY, getFirstNoneBlackY, getFirstNoneBrightY, getFirstNoneDarkY;
    (case_match; [by apply fmap_scan_mono|done]).
Qed.

Lemma nextY_mono pixels width height column y e :
  nextY fuel this pixels m width height column y = Some e →
  nextY fuel' this pixels m width height column y = Some e.
Proof.
  destruct m; simpl;
    unfold getNextWhiteY, getNextBlackY, getNextBrightY, getNextDarkY; simpl;
    (case_match; [by apply fmap_scan_mono|done]).
Qed.
End fuel_mono.

Lemma line_loop_mono (first next first' next' : list Z → Z → option Z)
    (index : Z → Z) (limit : Z) (n n' : nat) pixels x xEnd r :
  (∀ pixels x s, first pixels x = Some s → first' pixels x = Some s) →
  (∀ pixels s e, next pixels s = Some e → next' pixels s = Some e) →
  (n ≤ n')%nat →
  line_loop first next index limit n pixels x xEnd = Some r →
  line_loop first' next' index limit n' pixels x xEnd = Some r.
Proof.
  intros Hfirst Hnext. revert n' pixels x xEnd r.
  induction n as [|n IH]; intros n' pixels x xEnd r Hle; [done|].
  destruct n' as [|n']; [lia|]. simpl.
  destruct (xEnd <? limit - 1); [|done].
  destruct (first pixels x) as [s|] eqn:Hs; [|done].
  rewrite (Hfirst _ _ _ Hs). simpl.
  destruct (next pixels s) as [e|] eqn:He; [|done].
  rewrite (Hnext _ _ _ He). simpl.
  destruct (s <? 0); [done|].
  destruct (line_loop first next index limit n _ _ _) as [[px found]|] eqn:Hloop;
    [|done].
  rewrite (IH n' _ _ _ _ ltac:(lia) Hloop). done.
Qed.

Lemma sortRow_mono fuel fuel' this pixels width height row m r :
  (fuel ≤ fuel')%nat →
  sortRow fuel this pixels width height row m = Some r →
  sortRow fuel' this pixels width height row m = Some r.
Proof.
  intros Hle. unfold sortRow. rewrite !sortRow_loop_line.
  apply line_loop_mono; [|by intros; eapply nextX_mono|done].
  by intros; eapply firstX_mono.
Qed.

Lemma sortColumn_mono fuel fuel' this pixels width height column m r :
  (fuel ≤ fuel')%nat →
  sortColumn fuel this pixels width height column m = Some r →
  sortColumn fuel' this pixels width height column m = Some r.
Proof.
  intros Hle. unfold sortColumn. rewrite !sortColumn_loop_line.
  apply line_loop_mono; [|by intros; eapply nextY_mono|done].
  by intros; eapply firstY_mono.
Qed.

Lemma phase_mono (sortLine sortLine' : list Z → Z → option (list Z * list run))
    (percent : Z → Q) (label : string) (supplied : bool) lines st st' :
  (∀ pixels line r, sortLine pixels line = Some r → sortLine' pixels line = Some r) →
  phase sortLine percent label supplied lines st = Some st' →
  phase sortLine' percent label supplied lines st = Some st'.
Proof.
  intros Hline. revert st. induction lines as [|line lines IH]; intros st; [done|].
  simpl. destruct (sortLine (work st) line) as [[px found]|] eqn:Hsort; [|done].
  rewrite (Hline _ _ _ Hsort). simpl. apply IH.
Qed.

(** What [sortImage] returns does not depend on the fuel, once it has
    enough. *)
Lemma sortImage_mono fuel fuel' this img m supplied ex :
  (fuel ≤ fuel')%nat →
  sortImage fuel this img m supplied = Some ex →
  sortImage fuel' this img m supplied = Some ex.
Proof.
  intros Hle.
  assert (Hc : ∀ pixels column r,
             sortColumn fuel this pixels (Z.of_nat (width img))
               (Z.of_nat (height img)) column m = Some r →
             sortColumn fuel' this pixels (Z.of_nat (width img))
               (Z.of_nat (height img)) column m = Some r)
    by (intros; by eapply sortColumn_mono).
  assert (Hr : ∀ pixels row r,
             sortRow fuel this pixels (Z.of_nat (width img))
               (Z.of_nat (height img)) row m = Some r →
             sortRow fuel' this pixels (Z.of_nat (width img))
               (Z.of_nat (height img)) row m = Some r)
    by (intros; by eapply sortRow_mono).
  unfold sortImage. rewrite !sortColumns_phase.
  destruct (phase _ _ _ _ (seqZ 0 (Z.of_nat (width img) - 1)) _) as [st1|] eqn:Hcols;
    [|done].
  rewrite (phase_mono _ _ _ _ _ _ _ _ Hc Hcols).
  simpl. rewrite !sortRows_phase.
  destruct (phase _ _ _ _ (seqZ 0 (Z.of_nat (height img) - 1)) _) as [st2|] eqn:Hrows;
    [|done].
  rewrite (phase_mono _ _ _ _ _ _ _ _ Hr Hrows).
  done.
Qed.

(** ** Termination (C6) *)

(** C6.  With more fuel than the image is wide and high, every call of
    [sortRow] and of [sortColumn] on a buffer of the size of the image
    returns, in every mode and with any thresholds, and so does
    [sortImage], with or without a callback, with a result that more fuel
    does not change; on a well-formed image, the one by one, one by N and
    N by one images included, it completes without an exception, with an
    image of the same dimensions. *)
Theorem sortImage_terminates (fuel : nat) (this : PixelSorter)
    (img : ImageData) (m : mode) (supplied : bool) :
  (width img < fuel)%nat → (height img < fuel)%nat →
  let w := Z.of_nat (width img) in
  let h := Z.of_nat (height img) in
  (∀ pixels row, Z.of_nat (length pixels) = w * h → 0 ≤ row < h →
     is_Some (sortRow fuel this pixels w h row m)) ∧
  (∀ pixels column, Z.of_nat (length pixels) = w * h → 0 ≤ column < w →
     is_Some (sortColumn fuel this pixels w h column m)) ∧
  ∃ ex, (∀ fuel', (fuel ≤ fuel')%nat →
           sortImage fuel' this img m supplied = Some ex) ∧
        (ImageData_wf img →
         ∃ out, exec_result ex = Return out ∧
                width out = width img ∧ height out = height img ∧
                length (data out) = length (data img)).
Proof.
  intros Hw Hh w h. split; [|split].
  - intros pixels row Hlen Hrow.
    destruct (sortRow_post fuel this pixels w h row m) as (r & -> & _);
      [done|done|unfold w; lia|by eexists].
  - intros pixels column Hlen Hcolumn.
    destruct (sortColumn_post fuel this pixels w h column m) as (r & -> & _);
      [done|done|unfold h; lia|by eexists].
  - destruct (sortImage_returns fuel this img m supplied)
      as (st1 & st2 & _ & _ & Hex); [lia|lia|].
    eexists; split; [by intros fuel' Hle; eapply sortImage_mono|].
    simpl. intros [Hw1 Hh1 Hlen Hbytes].
    rewrite new_ImageData_Return; [|done|done|].
    + eexists; split; [done|]. simpl.
      by rewrite convertToRGBA_length, length_fmap.
    + by rewrite convertToRGBA_length, length_fmap.
Qed.

Definition image_2x2 : ImageData :=
  {| width := 2; height := 2;
     data := [1; 2; 3; 4;  5; 6; 7; 8;  9; 10; 11; 12;  13; 14; 15; 16] |}.

Lemma image_2x2_wf : ImageData_wf image_2x2.
Proof.
  split; simpl; [lia|lia|done|].
  repeat (constructor; [unfold is_byte; lia|]). constructor.
Defined.

Lemma sortImage_terminates_witness :
  (width image_2x2 < 3)%nat ∧ (height image_2x2 < 3)%nat ∧
  ∃ ex, (∀ fuel', (3 ≤ fuel')%nat →
           sortImage fuel' newPixelSorter image_2x2 White true = Some ex) ∧
        (ImageData_wf image_2x2 →
         ∃ out, exec_result ex = Return out ∧
                width out = width image_2x2 ∧ height out = height image_2x2 ∧
                length (data out) = length (data image_2x2)).
Proof.
  split; [simpl; lia|]. split; [simpl; lia|].
  apply (sortImage_terminates 3 newPixelSorter image_2x2 White true); simpl; lia.
Defined.

(** The images of one column and of one row come back as they are. *)
Example sortImage_one_column :
  let img := {| width := 1; height := 3;
                data := [9; 9; 9; 1;  5; 6; 7; 8;  1; 1; 1; 12] |} in
  exec_result <$> sortImage 4 newPixelSorter img Black false = Some (Return img).
Proof. vm_compute. reflexivity. Qed.

Example sortImage_one_row :
  let img := {| width := 3; height := 1;
                data := [9; 9; 9; 1;  5; 6; 7; 8;  1; 1; 1; 12] |} in
  exec_result <$> sortImage 4 newPixelSorter img Black false = Some (Return img).
Proof. vm_compute. reflexivity. Qed.

(** ** What [sortImage] leaves behind *)

(** The calls a whole run of [sortImage] makes to the callback. *)
Definition all_reports (supplied : bool) (w h : Z) : list (Q * string) :=
  (if supplied then [(0%Q, "Sorting columns...")] else [])
  ++ line_reports supplied (column_percent w) "Sorting columns..." (seqZ 0 (w - 1))
  ++ (if supplied then [(50%Q, "Sorting rows...")] else [])
  ++ line_reports supplied (row_percent h) "Sorting rows..." (seqZ 0 (h - 1))
  ++ (if supplied then [(100%Q, "Complete!")] else []).

(** An index of the buffer that is neither in the last column nor in
    the last row. *)
Definition interior (w h : Z) (j : Z) : Prop :=
  ∃ x y, 0 ≤ x < w - 1 ∧ 0 ≤ y < h - 1 ∧ j = x + y * w.

Record image_post (img : ImageData) (supplied : bool) (ex : execution) : Prop := {
  post_length : length (work (exec_state ex)) = (width img * height img)%nat;
  post_permutation :
    work (exec_state ex)
      ≡ₚ convertToRGB (JS.clamp8 <$> data img) (width img) (height img);
  post_frame : ∀ j,
    ¬ interior (Z.of_nat (width img)) (Z.of_nat (height img)) j →
    JS.read (work (exec_state ex)) j
    = JS.read (convertToRGB (JS.clamp8 <$> data img) (width img) (height img)) j;
  post_calls :
    calls (exec_state ex)
    = all_reports supplied (Z.of_nat (width img)) (Z.of_nat (height img));
  post_result :
    exec_result ex
    = new_ImageData (convertToRGBA (work (exec_state ex)) (JS.clamp8 <$> data img))
        (width img) (height img)
}.

Lemma sortImage_post fuel this img m supplied :
  (width img < fuel)%nat → (height img < fuel)%nat →
  ∃ ex, sortImage fuel this img m supplied = Some ex ∧ image_post img supplied ex.
Proof.
  intros Hw Hh.
  destruct (sortImage_returns fuel this img m supplied)
    as (st1 & st2 & Hcols & Hrows & ->); [lia|lia|].
  eexists; split; [done|].
  destruct Hcols as (Hl1 & Hp1 & Hf1 & Hc1 & _).
  destruct Hrows as (Hl2 & Hp2 & Hf2 & Hc2 & _).
  rewrite report_work in Hl2, Hp2, Hf2. rewrite report_calls in Hc2.
  unfold initial_state in *. rewrite report_work in Hl1, Hp1, Hf1.
  rewrite report_calls in Hc1. simpl in Hl1, Hp1, Hf1, Hc1.
  split; simpl; rewrite ?report_work, ?report_calls.
  - by rewrite Hl2, Hl1, convertToRGB_length.
  - by rewrite Hp2, Hp1.
  - intros j Hj. rewrite Hf2, Hf1; [done| |].
    + intros c y Hc%elem_of_seqZ Hy ?. apply Hj. exists c, y. lia.
    + intros r x Hr%elem_of_seqZ Hx ?. apply Hj. exists x, r. lia.
  - rewrite Hc2, Hc1. unfold all_reports. rewrite !andb_true_r.
    by rewrite <-!app_assoc.
  - done.
Qed.

(** ** The progress reports (C9) *)

(** The percentage of line [i] of [n], without the offset of the phase. *)
Lemma column_percent_bounds (n i : Z) :
  0 ≤ i < n → (0 <= column_percent n i)%Q ∧ (column_percent n i <= 50)%Q.
Proof.
  intros Hi. unfold column_percent.
  destruct n as [|p|p]; [lia| |lia].
  unfold Qle, Qdiv, Qmult, Qinv, inject_Z. simpl.
  split; nia.
Qed.

Lemma column_percent_mono (n i j : Z) :
  0 ≤ i ≤ j → 0 < n → (column_percent n i <= column_percent n j)%Q.
Proof.
  intros Hij Hn. unfold column_percent.
  destruct n as [|p|p]; [lia| |lia].
  unfold Qle, Qdiv, Qmult, Qinv, inject_Z. simpl. nia.
Qed.

Lemma row_percent_column_percent (n i : Z) :
  row_percent n i = (50 + column_percent n i)%Q.
Proof. done. Qed.

Lemma row_percent_bounds (n i : Z) :
  0 ≤ i < n → (50 <= row_percent n i)%Q ∧ (row_percent n i <= 100)%Q.
Proof.
  intros Hi. rewrite row_percent_column_percent.
  destruct (column_percent_bounds n i Hi) as [Hlo Hhi]. split.
  - rewrite <-(Qplus_0_r 50) at 1. by apply Qplus_le_r.
  - change 100%Q with (50 + 50)%Q. by apply Qplus_le_r.
Qed.

Lemma row_percent_mono (n i j : Z) :
  0 ≤ i ≤ j → 0 < n → (row_percent n i <= row_percent n j)%Q.
Proof.
  intros Hij Hn. rewrite !row_percent_column_percent.
  apply Qplus_le_r. by apply column_percent_mono.
Qed.

(** The line numbers of a phase, in the order of the loop. *)
Definition ascending (i j : Z) : Prop := 0 ≤ i ∧ i ≤ j.

Lemma seqZ_ascending (a n : Z) : 0 ≤ a → StronglySorted ascending (seqZ a n).
Proof.
  intros Ha. destruct (Z.le_gt_cases n 0) as [Hn|Hn].
  { assert (Hnil : seqZ a n = []).
    { apply length_zero_iff_nil. rewrite length_seqZ. lia. }
    rewrite Hnil. constructor. }
  revert a Ha. pattern n. apply Zlt_lower_bound_ind with (z := 1); [|lia].
  clear n Hn. intros n IH Hn a Ha.
  rewrite seqZ_cons by lia. constructor.
  - destruct (decide (n = 1)) as [->|Hne]; [constructor|apply IH; lia].
  - apply Forall_forall. intros j Hj%elem_of_seqZ. unfold ascending. lia.
Qed.

Lemma StronglySorted_filter {A} (R : relation A) (P : A → Prop)
    `{!∀ x, Decision (P x)} (l : list A) :
  StronglySorted R l → StronglySorted R (filter P l).
Proof.
  induction 1 as [|x l Hl IH Hx]; [constructor|].
  destruct (decide (P x)).
  - rewrite filter_cons_True by done. constructor; [done|].
    apply Forall_forall. intros y [_ Hy]%list_elem_of_filter.
    by eapply Forall_forall in Hx.
  - by rewrite filter_cons_False.
Qed.

(** The percentages of a list of reports lie between [lo] and [hi]. *)
Definition between (lo hi : Q) (qs : list Q) : Prop :=
  Forall (λ q, (lo <= q)%Q ∧ (q <= hi)%Q) qs.

Lemma between_app_sorted (a b c : Q) (l1 l2 : list Q) :
  (a <= b)%Q → (b <= c)%Q →
  StronglySorted Qle l1 → StronglySorted Qle l2 →
  between a b l1 → between b c l2 →
  StronglySorted Qle (l1 ++ l2) ∧ between a c (l1 ++ l2).
Proof.
  intros Hab Hbc Hs1 Hs2 Hb1 Hb2. split.
  - apply StronglySorted_app_2; [|done|done].
    intros x1 x2 Hx1 Hx2.
    eapply Forall_forall in Hb1 as [_ ?]; [|exact Hx1].
    eapply Forall_forall in Hb2 as [? _]; [|exact Hx2].
    by apply Qle_trans with b.
  - apply Forall_app. split.
    + eapply Forall_impl; [exact Hb1|]. intros q [??]. split; [done|].
      by apply Qle_trans with b.
    + eapply Forall_impl; [exact Hb2|]. intros q [??]. split; [|done].
      by apply Qle_trans with b.
Qed.

Lemma line_reports_fst (percent : Z → Q) (label : string) (lines : list Z) :
  (line_reports true percent label lines).*1
  = percent <$> filter (λ line, line `mod` 10 = 0) lines.
Proof. unfold line_reports. by rewrite <-list_fmap_compose. Qed.

Lemma line_reports_sorted (percent : Z → Q) (label : string) (n : Z) :
  (0 < n → ∀ i j, 0 ≤ i ≤ j → (percent i <= percent j)%Q) →
  StronglySorted Qle (line_reports true percent label (seqZ 0 (n - 1))).*1.
Proof.
  intros Hmono. rewrite line_reports_fst.
  destruct (Z.le_gt_cases n 1) as [Hn|Hn].
  - assert (Hnil : seqZ 0 (n - 1) = []).
    { apply length_zero_iff_nil. rewrite length_seqZ. lia. }
    rewrite Hnil. constructor.
  - apply StronglySorted_fmap with (R1 := ascending).
    + intros i j [??]. apply Hmono; lia.
    + apply StronglySorted_filter, seqZ_ascending. lia.
Qed.

Lemma line_reports_between (percent : Z → Q) (label : string) (n : Z) (lo hi : Q) :
  (∀ i, 0 ≤ i < n → (lo <= percent i)%Q ∧ (percent i <= hi)%Q) →
  between lo hi (line_reports true percent label (seqZ 0 (n - 1))).*1.
Proof.
  intros Hbounds. rewrite line_reports_fst. apply Forall_fmap, Forall_forall.
  intros i [_ Hi%elem_of_seqZ]%list_elem_of_filter. apply Hbounds. lia.
Qed.

Lemma line_reports_label (percent : Z → Q) (label : string) (lines : list Z) :
  Forall (λ c, c = label) (line_reports true percent label lines).*2.
Proof.
  unfold line_reports. rewrite <-list_fmap_compose.
  apply Forall_fmap, Forall_forall. by intros.
Qed.

(** The three labels of the source. *)
Definition is_phase_label (label : string) : Prop :=
  label = "Sorting columns..." ∨ label = "Sorting rows..." ∨ label = "Complete!".

(** What the calls of a whole run look like. *)
Record reports_ok (cs : list (Q * string)) : Prop := {
  reports_monotone : StronglySorted Qle cs.*1;
  reports_in_range : between 0 100 cs.*1;
  reports_labelled : Forall is_phase_label cs.*2;
  reports_short : Forall (λ label, (String.length label ≤ 18)%nat) cs.*2;
  reports_end : last cs = Some (100%Q, "Complete!")
}.

Lemma all_reports_ok (w h : Z) : reports_ok (all_reports true w h).
Proof.
  unfold all_reports.
  set (cols := line_reports true (column_percent w) "Sorting columns..." (seqZ 0 (w - 1))).
  set (rows := line_reports true (row_percent h) "Sorting rows..." (seqZ 0 (h - 1))).
  assert (Hone : ∀ q : Q, StronglySorted Qle [q] ∧ between q q [q]).
  { intros q. split; [repeat constructor|].
    constructor; [split; apply Qle_refl|constructor]. }
  assert (Hcols : StronglySorted Qle cols.*1 ∧ between 0 50 cols.*1).
  { split.
    - apply line_reports_sorted. intros ? i j ?. by apply column_percent_mono.
    - apply line_reports_between. apply column_percent_bounds. }
  assert (Hrows : StronglySorted Qle rows.*1 ∧ between 50 100 rows.*1).
  { split.
    - apply line_reports_sorted. intros ? i j ?. by apply row_percent_mono.
    - apply line_reports_between. apply row_percent_bounds. }
  assert (Hlabels : ∀ l, l ∈ cols.*2 ++ rows.*2 → is_phase_label l).
  { intros l [Hl|Hl]%elem_of_app.
    - left. pose proof (line_reports_label (column_percent w) "Sorting columns..."
                          (seqZ 0 (w - 1))) as Hall.
      by eapply Forall_forall in Hall.
    - right; left. pose proof (line_reports_label (row_percent h) "Sorting rows..."
                          (seqZ 0 (h - 1))) as Hall.
      by eapply Forall_forall in Hall. }
  assert (H4 : StronglySorted Qle (rows.*1 ++ [100%Q]) ∧ between 50 100 (rows.*1 ++ [100%Q])).
  { apply (between_app_sorted 50 100 100); [done|done|apply Hrows|apply Hone|
      apply Hrows|apply Hone]. }
  assert (H3 : StronglySorted Qle ([50%Q] ++ rows.*1 ++ [100%Q])
               ∧ between 50 100 ([50%Q] ++ rows.*1 ++ [100%Q])).
  { apply (between_app_sorted 50 50 100); [done|done|apply Hone|apply H4|
      apply Hone|apply H4]. }
  assert (H2 : StronglySorted Qle (cols.*1 ++ [50%Q] ++ rows.*1 ++ [100%Q])
               ∧ between 0 100 (cols.*1 ++ [50%Q] ++ rows.*1 ++ [100%Q])).
  { apply (between_app_sorted 0 50 100); [done|done|apply Hcols|apply H3|
      apply Hcols|apply H3]. }
  assert (H1 : StronglySorted Qle ([0%Q] ++ cols.*1 ++ [50%Q] ++ rows.*1 ++ [100%Q])
               ∧ between 0 100 ([0%Q] ++ cols.*1 ++ [50%Q] ++ rows.*1 ++ [100%Q])).
  { apply (between_app_sorted 0 0 100); [done|done|apply Hone|apply H2|
      apply Hone|apply H2]. }
  assert (Hall : ∀ l, l ∈ ([(0%Q, "Sorting columns...")] ++ cols
                    ++ [(50%Q, "Sorting rows...")] ++ rows
                    ++ [(100%Q, "Complete!")]).*2 → is_phase_label l).
  { intros l. rewrite !fmap_app. simpl. intros Hl.
    apply elem_of_cons in Hl as [->|Hl]; [by left|].
    apply elem_of_app in Hl as [Hl|Hl]; [apply Hlabels, elem_of_app; by left|].
    apply elem_of_cons in Hl as [->|Hl]; [by right; left|].
    apply elem_of_app in Hl as [Hl|Hl]; [apply Hlabels, elem_of_app; by right|].
    apply elem_of_cons in Hl as [->|Hl]; [by right; right|]. by apply elem_of_nil in Hl. }
  split.
  - rewrite !fmap_app. exact (proj1 H1).
  - rewrite !fmap_app. exact (proj2 H1).
  - apply Forall_forall. exact Hall.
  - apply Forall_forall. intros l Hl%Hall.
    destruct Hl as [-> | [-> | ->]]; simpl; lia.
  - rewrite !app_assoc. apply last_snoc.
Qed.

(** C9.  When a callback is supplied, the calls it receives over a whole
    run of [sortImage] are: 0 at the start of the columns, the share of
    the columns done, between 0 and 50, after each column whose number is
    a multiple of ten, 50 at the start of the rows, 50 plus the share of
    the rows done after each row whose number is a multiple of ten, and
    100 at the end.  The percentages never decrease, lie between 0 and
    100, each comes with one of three labels of at most 18 characters, and
    the last call is 100 with the label of completion.  The percentages
    are taken as exact rationals. *)
Theorem progress_reports (fuel : nat) (this : PixelSorter) (img : ImageData)
    (m : mode) :
  (width img < fuel)%nat → (height img < fuel)%nat →
  ∃ ex, sortImage fuel this img m true = Some ex ∧
        calls (exec_state ex)
          = all_reports true (Z.of_nat (width img)) (Z.of_nat (height img)) ∧
        reports_ok (calls (exec_state ex)).
Proof.
  intros Hw Hh.
  destruct (sortImage_post fuel this img m true Hw Hh) as (ex & Hex & Hpost).
  exists ex. split; [done|]. rewrite (post_calls _ _ _ Hpost).
  split; [done|]. apply all_reports_ok.
Qed.

Lemma progress_reports_witness :
  (width image_2x2 < 3)%nat ∧ (height image_2x2 < 3)%nat ∧
  ∃ ex, sortImage 3 newPixelSorter image_2x2 White true = Some ex ∧
        calls (exec_state ex) = all_reports true 2 2 ∧
        reports_ok (calls (exec_state ex)).
Proof.
  split; [simpl; lia|]. split; [simpl; lia|].
  apply (progress_reports 3 newPixelSorter image_2x2 White); simpl; lia.
Defined.

(** ** The output image *)

Lemma unpack_bytes c :
  is_packed c → is_byte (red c) ∧ is_byte (green c) ∧ is_byte (blue c).
Proof.
  intros [??]. destruct (unpack_in_range c) as (-> & -> & ->); [lia|].
  repeat split; apply land_255_byte.
Qed.

(** Pixel [i] of the output: the colour unpacked from entry [i] of the
    working buffer, and the alpha of pixel [i] of the input. *)
Definition output_pixel (img out : ImageData) (final : list Z) (i : nat) : Prop :=
  ∃ c, final !! i = Some c ∧
       data out !! (i * 4)%nat = Some (red c) ∧
       data out !! (i * 4 + 1)%nat = Some (green c) ∧
       data out !! (i * 4 + 2)%nat = Some (blue c) ∧
       data out !! (i * 4 + 3)%nat = data img !! (i * 4 + 3)%nat.

Lemma sortImage_output fuel this img m supplied :
  ImageData_wf img → (width img < fuel)%nat → (height img < fuel)%nat →
  ∃ ex out, sortImage fuel this img m supplied = Some ex ∧
            image_post img supplied ex ∧
            exec_result ex = Return out ∧
            width out = width img ∧ height out = height img ∧
            length (data out) = length (data img) ∧
            ∀ i, (i < width img * height img)%nat →
                 output_pixel img out (work (exec_state ex)) i.
Proof.
  intros [Hw1 Hh1 Hlen Hbytes] Hw Hh.
  destruct (sortImage_post fuel this img m supplied Hw Hh) as (ex & Hex & Hpost).
  pose proof (post_result _ _ _ Hpost) as Hres.
  pose proof (post_length _ _ _ Hpost) as Hlength.
  pose proof (post_permutation _ _ _ Hpost) as Hperm.
  rewrite (clamp8_bytes _ Hbytes) in Hres, Hperm.
  rewrite new_ImageData_Return in Hres;
    [|done|done|by rewrite convertToRGBA_length].
  eexists ex, _. split; [done|]. split; [done|]. split; [exact Hres|].
  simpl. split; [done|]. split; [done|].
  split; [by rewrite convertToRGBA_length|].
  intros i Hi.
  destruct (lookup_lt_is_Some_2 (work (exec_state ex)) i) as [c Hc]; [lia|].
  assert (Hpacked : is_packed c).
  { assert (Hall : Forall is_packed (work (exec_state ex))).
    { rewrite Hperm. by apply convertToRGB_packed. }
    by eapply Forall_lookup_1 in Hall. }
  destruct (unpack_bytes c Hpacked) as (Hr & Hg & Hb).
  destruct (convertToRGBA_lookup (data img) (work (exec_state ex)) i c Hc)
    as (Hor & Hog & Hob & Hoa); [lia|].
  exists c. split; [done|]. cbn [data].
  rewrite Hor, Hog, Hob, Hoa, !clamp8_byte by done.
  repeat split.
  destruct (lookup_lt_is_Some_2 (data img) (i * 4 + 3)) as [a Ha]; [lia|].
  rewrite Ha. simpl. f_equal. apply clamp8_byte.
  by eapply Forall_lookup_1 in Hbytes.
Qed.

(** ** Alpha (C5) *)

(** C5.  On every well-formed image, in every mode and with any
    thresholds, the alpha of every pixel of the output is the alpha of
    the pixel of the input at the same position. *)
Theorem alpha_preserved (fuel : nat) (this : PixelSorter) (img : ImageData)
    (m : mode) (supplied : bool) :
  ImageData_wf img → (width img < fuel)%nat → (height img < fuel)%nat →
  ∃ ex out, sortImage fuel this img m supplied = Some ex ∧
            exec_result ex = Return out ∧
            length (data out) = length (data img) ∧
            ∀ i, (i < width img * height img)%nat →
                 data out !! (i * 4 + 3)%nat = data img !! (i * 4 + 3)%nat.
Proof.
  intros Hwf Hw Hh.
  destruct (sortImage_output fuel this img m supplied Hwf Hw Hh)
    as (ex & out & Hex & _ & Hres & _ & _ & Hlen & Hout).
  exists ex, out. repeat split; [done..|].
  intros i Hi. by destruct (Hout i Hi) as (c & _ & _ & _ & _ & ?).
Qed.

Lemma alpha_preserved_witness :
  ImageData_wf image_2x2 ∧
  (width image_2x2 < 3)%nat ∧ (height image_2x2 < 3)%nat ∧
  ∃ ex out, sortImage 3 newPixelSorter image_2x2 Black false = Some ex ∧
            exec_result ex = Return out ∧
            length (data out) = length (data image_2x2) ∧
            ∀ i, (i < width image_2x2 * height image_2x2)%nat →
                 data out !! (i * 4 + 3)%nat = data image_2x2 !! (i * 4 + 3)%nat.
Proof.
  split; [exact image_2x2_wf|]. split; [simpl; lia|]. split; [simpl; lia|].
  apply (alpha_preserved 3 newPixelSorter image_2x2 Black false image_2x2_wf);
    simpl; lia.
Defined.

(** ** The last column and the last row (C10) *)

Lemma read_of_nat (l : list Z) (i : nat) : JS.read l (Z.of_nat i) = l !! i.
Proof.
  unfold JS.read. destruct (Z.ltb_spec (Z.of_nat i) 0); [lia|].
  by rewrite Nat2Z.id.
Qed.

Lemma border_not_interior (w h x y : nat) :
  (x < w)%nat → (y < h)%nat → (x = w - 1 ∨ y = h - 1)%nat →
  ¬ interior (Z.of_nat w) (Z.of_nat h) (Z.of_nat (x + y * w)).
Proof.
  intros Hx Hy Hborder (x' & y' & Hx' & Hy' & Heq).
  destruct (Z.lt_trichotomy y' (Z.of_nat y)) as [Hlt|[Heqy|Hgt]]; nia.
Qed.

(** The colour bytes of pixel [i] of a well-formed image, packed and
    unpacked again, are what they were. *)
Lemma convertToRGB_unpack (img : ImageData) (i : nat) :
  ImageData_wf img → (i < width img * height img)%nat →
  ∃ c, convertToRGB (data img) (width img) (height img) !! i = Some c ∧
       data img !! (i * 4)%nat = Some (red c) ∧
       data img !! (i * 4 + 1)%nat = Some (green c) ∧
       data img !! (i * 4 + 2)%nat = Some (blue c).
Proof.
  intros [Hw1 Hh1 Hlen Hbytes] Hi.
  rewrite convertToRGB_lookup by done. eexists; split; [done|].
  destruct (lookup_lt_is_Some_2 (data img) (i * 4)) as [r Hr]; [lia|].
  destruct (lookup_lt_is_Some_2 (data img) (i * 4 + 1)) as [g Hg]; [lia|].
  destruct (lookup_lt_is_Some_2 (data img) (i * 4 + 2)) as [b Hb]; [lia|].
  rewrite Hr, Hg, Hb.
  destruct (unpack_packRGB r g b) as (_ & -> & -> & ->);
    [by eapply Forall_lookup_1 in Hbytes..|done].
Qed.

(** C10.  On every well-formed image and in every mode, the working
    buffer keeps its entries of the last column and of the last row, and
    so the red, green and blue bytes of every pixel of the last column
    ([x = width - 1]) and of the last row ([y = height - 1]) of the
    output are those of the input. *)
Theorem border_untouched (fuel : nat) (this : PixelSorter) (img : ImageData)
    (m : mode) (supplied : bool) :
  ImageData_wf img → (width img < fuel)%nat → (height img < fuel)%nat →
  ∃ ex out, sortImage fuel this img m supplied = Some ex ∧
            exec_result ex = Return out ∧
            ∀ x y, (x < width img)%nat → (y < height img)%nat →
                   (x = width img - 1 ∨ y = height img - 1)%nat →
                   let i := (x + y * width img)%nat in
                   work (exec_state ex) !! i
                     = convertToRGB (data img) (width img) (height img) !! i ∧
                   data out !! (i * 4)%nat = data img !! (i * 4)%nat ∧
                   data out !! (i * 4 + 1)%nat = data img !! (i * 4 + 1)%nat ∧
                   data out !! (i * 4 + 2)%nat = data img !! (i * 4 + 2)%nat.
Proof.
  intros Hwf Hw Hh.
  destruct (sortImage_output fuel this img m supplied Hwf Hw Hh)
    as (ex & out & Hex & Hpost & Hres & _ & _ & _ & Hout).
  exists ex, out. split; [done|]. split; [done|].
  intros x y Hx Hy Hborder i.
  assert (Hi : (i < width img * height img)%nat) by (unfold i; nia).
  destruct (Hout i Hi) as (c & Hc & Hr & Hg & Hb & _).
  destruct (convertToRGB_unpack img i Hwf Hi) as (c0 & Hc0 & Hr0 & Hg0 & Hb0).
  pose proof (post_frame _ _ _ Hpost (Z.of_nat i)
                (border_not_interior _ _ x y Hx Hy Hborder)) as Hsame.
  rewrite (clamp8_bytes _ (wf_bytes _ Hwf)), !read_of_nat in Hsame.
  assert (c = c0) as -> by congruence.
  split; [congruence|]. by rewrite Hr, Hg, Hb, Hr0, Hg0, Hb0.
Qed.

Lemma border_untouched_witness :
  ImageData_wf image_2x2 ∧
  (width image_2x2 < 3)%nat ∧ (height image_2x2 < 3)%nat ∧
  ∃ ex out, sortImage 3 newPixelSorter image_2x2 Dark false = Some ex ∧
            exec_result ex = Return out ∧
            ∀ x y, (x < width image_2x2)%nat → (y < height image_2x2)%nat →
                   (x = width image_2x2 - 1 ∨ y = height image_2x2 - 1)%nat →
                   let i := (x + y * width image_2x2)%nat in
                   work (exec_state ex) !! i
                     = convertToRGB (data image_2x2) (width image_2x2)
                         (height image_2x2) !! i ∧
                   data out !! (i * 4)%nat = data image_2x2 !! (i * 4)%nat ∧
                   data out !! (i * 4 + 1)%nat = data image_2x2 !! (i * 4 + 1)%nat ∧
                   data out !! (i * 4 + 2)%nat = data image_2x2 !! (i * 4 + 2)%nat.
Proof.
  split; [exact image_2x2_wf|]. split; [simpl; lia|]. split; [simpl; lia|].
  apply (border_untouched 3 newPixelSorter image_2x2 Dark false image_2x2_wf);
    simpl; lia.
Defined.

(** ** A solid colour (C7) *)

(** Every pixel of the image is [r], [g], [b], [a]. *)
Definition solid_color (img : ImageData) (r g b a : Z) : Prop :=
  ∀ i, (i < width img * height img)%nat →
       data img !! (i * 4)%nat = Some r ∧
       data img !! (i * 4 + 1)%nat = Some g ∧
       data img !! (i * 4 + 2)%nat = Some b ∧
       data img !! (i * 4 + 3)%nat = Some a.

Lemma data_eq_by_pixels (d1 d2 : list Z) (n : nat) :
  length d1 = (n * 4)%nat → length d2 = (n * 4)%nat →
  (∀ i, (i < n)%nat →
        d1 !! (i * 4)%nat = d2 !! (i * 4)%nat ∧
        d1 !! (i * 4 + 1)%nat = d2 !! (i * 4 + 1)%nat ∧
        d1 !! (i * 4 + 2)%nat = d2 !! (i * 4 + 2)%nat ∧
        d1 !! (i * 4 + 3)%nat = d2 !! (i * 4 + 3)%nat) →
  d1 = d2.
Proof.
  intros Hl1 Hl2 Hpix. apply list_eq. intros j.
  destruct (decide (j < n * 4)%nat) as [Hj|Hj].
  - pose proof (Nat.div_mod_eq j 4) as Hdm.
    pose proof (Nat.mod_upper_bound j 4 ltac:(lia)) as Hk.
    destruct (Hpix (j `div` 4)%nat) as (H0 & H1 & H2 & H3); [lia|].
    destruct (j `mod` 4)%nat as [|[|[|[|k]]]] eqn:Hmod; [| | | |lia].
    + by replace j with (j `div` 4 * 4)%nat by lia.
    + by replace j with (j `div` 4 * 4 + 1)%nat by lia.
    + by replace j with (j `div` 4 * 4 + 2)%nat by lia.
    + by replace j with (j `div` 4 * 4 + 3)%nat by lia.
  - rewrite !lookup_ge_None_2 by lia. done.
Qed.

(** C7.  For every well-formed image whose pixels all have the same red,
    green, blue and alpha, in every mode and with any thresholds, the
    output of [sortImage] is the input. *)
Theorem solid_color_unchanged (fuel : nat) (this : PixelSorter)
    (img : ImageData) (m : mode) (supplied : bool) (r g b a : Z) :
  ImageData_wf img → solid_color img r g b a →
  (width img < fuel)%nat → (height img < fuel)%nat →
  ∃ ex, sortImage fuel this img m supplied = Some ex ∧
        exec_result ex = Return img.
Proof.
  intros Hwf Hsolid Hw Hh.
  destruct (sortImage_output fuel this img m supplied Hwf Hw Hh)
    as (ex & out & Hex & Hpost & Hres & Hwo & Hho & Hlen & Hout).
  exists ex. split; [done|]. rewrite Hres. f_equal.
  set (c0 := packRGB (Some r) (Some g) (Some b)).
  assert (Hwork0 : convertToRGB (data img) (width img) (height img)
                   = replicate (width img * height img) c0).
  { apply list_eq_same_length with (width img * height img)%nat;
      [apply length_replicate|apply convertToRGB_length|].
    intros i x y Hi Hx Hy. rewrite convertToRGB_lookup in Hx by done.
    destruct (Hsolid i Hi) as (Hr & Hg & Hb & _). rewrite Hr, Hg, Hb in Hx.
    apply lookup_replicate in Hy as [-> _]. unfold c0. congruence. }
  assert (Hfinal : work (exec_state ex) = replicate (width img * height img) c0).
  { symmetry. apply replicate_Permutation. rewrite <-Hwork0.
    rewrite (post_permutation _ _ _ Hpost).
    by rewrite (clamp8_bytes _ (wf_bytes _ Hwf)). }
  assert (Hdata : data out = data img).
  { apply data_eq_by_pixels with (width img * height img)%nat;
      [by rewrite Hlen, (wf_length _ Hwf)|by rewrite (wf_length _ Hwf)|].
    intros i Hi. destruct (Hout i Hi) as (c & Hc & Hr & Hg & Hb & Ha).
    destruct (convertToRGB_unpack img i Hwf Hi) as (c' & Hc' & Hr' & Hg' & Hb').
    rewrite Hfinal in Hc. rewrite Hwork0 in Hc'.
    apply lookup_replicate in Hc as [-> _]. apply lookup_replicate in Hc' as [-> _].
    by rewrite Hr, Hg, Hb, Ha, Hr', Hg', Hb'. }
  destruct out as [wo ho dout], img as [wi hi di]. simpl in *. by subst.
Qed.

Definition image_solid : ImageData :=
  {| width := 3; height := 2;
     data := [200; 10; 5; 255;  200; 10; 5; 255;  200; 10; 5; 255;
              200; 10; 5; 255;  200; 10; 5; 255;  200; 10; 5; 255] |}.

Lemma image_solid_wf : ImageData_wf image_solid.
Proof.
  split; simpl; [lia|lia|done|].
  repeat (constructor; [unfold is_byte; lia|]). constructor.
Defined.

Lemma image_solid_solid : solid_color image_solid 200 10 5 255.
Proof.
  intros i Hi. simpl in Hi.
  destruct i as [|[|[|[|[|[|i]]]]]]; [done..|lia].
Defined.

Lemma solid_color_unchanged_witness :
  ImageData_wf image_solid ∧ solid_color image_solid 200 10 5 255 ∧
  (width image_solid < 4)%nat ∧ (height image_solid < 4)%nat ∧
  ∃ ex, sortImage 4 newPixelSorter image_solid Bright false = Some ex ∧
        exec_result ex = Return image_solid.
Proof.
  split; [exact image_solid_wf|]. split; [exact image_solid_solid|].
  split; [simpl; lia|]. split; [simpl; lia|].
  apply (solid_color_unchanged 4 newPixelSorter image_solid Bright false
           200 10 5 255 image_solid_wf image_solid_solid); simpl; lia.
Defined.

(** ** Malformed buffers (C3) *)

(** What the specification asks for a malformed buffer: the call ends in
    an error, and the working buffer has not been written, so that it is
    still as an [Int32Array] is created, all zeros.  Any exception is
    taken for the condition the specification names. *)
Definition rejected_up_front (ex : execution) : Prop :=
  (∃ e, exec_result ex = Throw e) ∧
  Forall (λ v, v = 0) (work (exec_state ex)).

Definition image_short : ImageData :=
  {| width := 3; height := 3; data := [10; 20; 30; 255;  1; 2; 3; 4;  5; 6; 7; 8] |}.


(** *** Any width and height

    [sortImage] reads [width], [height] and [data] off the object it is
    given and checks none of them, so a caller can pass any numbers.  An
    [ImageData] of the canvas has unsigned dimensions, which is what the
    record [ImageData] above holds; the malformed buffers of the
    specification include negative ones, and for these the call is
    modelled again here, over integers.  The two models agree on the
    sizes an [ImageData] can have ([sortImage_any_size]). *)

Module AnySize.

(** What a call can throw: the [RangeError] of a typed array
    constructor, or an error of the [ImageData] constructor. *)
Inductive error := RangeError | ImageDataError (e : exn).

Inductive outcome :=
| Returned (img : ImageData)
| Thrown (e : error).

(** [new Int32Array(length)] throws a [RangeError] for a negative
    length and for one above 2^53 - 1.  An engine that runs out of memory
    below that bound is not modelled. *)
Definition max_length : Z := 2 ^ 53 - 1.

(** [convertToRGB], with the allocation that can fail: [None] is the
    [RangeError] of [new Int32Array(width * height)]. *)
Definition convertToRGB (pixels : list Z) (width height : Z) : option (list Z) :=
  if (width * height <? 0) || (max_length <? width * height) then None
  else
    Some ((λ i : nat, packRGB (pixels !! (i * 4)%nat) (pixels !! (i * 4 + 1)%nat)
                              (pixels !! (i * 4 + 2)%nat))
            <$> seq 0 (Z.to_nat (width * height))).

(** [new ImageData(data, sw, sh)] on any integers: the arguments are
    [unsigned long], which Web IDL takes modulo 2^32. *)
Definition new_ImageData (data : list Z) (sw sh : Z) : outcome :=
  let sw := sw `mod` 2 ^ 32 in
  let sh := sh `mod` 2 ^ 32 in
  let len := Z.of_nat (length data) in
  if decide (len = 0 ∨ len `mod` 4 ≠ 0) then Thrown (ImageDataError InvalidStateError)
  else
    let len := len `div` 4 in
    if decide (sw = 0 ∨ len `mod` sw ≠ 0) then Thrown (ImageDataError IndexSizeError)
    else if decide (len `div` sw ≠ sh) then Thrown (ImageDataError IndexSizeError)
    else Returned {| width := Z.to_nat sw; height := Z.to_nat sh; data := data |}.

(** [sortImage] on an object with any [width] and [height]: the state it
    leaves, and how it completes.  When the allocation fails there is no
    working buffer, and nothing has been done. *)
Definition sortImage (fuel : nat) (this : PixelSorter) (width height : Z)
    (data : list Z) (m : mode) (supplied : bool) : option (state * outcome) :=
  let pixels := JS.clamp8 <$> data in
  match convertToRGB pixels width height with
  | None => Some ({| work := []; runs := []; calls := [] |}, Thrown RangeError)
  | Some rgbPixels =>
      let st := {| work := rgbPixels; runs := []; calls := [] |} in
      let st := report supplied true 0%Q "Sorting columns..." st in
      st ← sortColumns (seqZ 0 (width - 1)) fuel this width height m supplied st;
      let st := report supplied true 50%Q "Sorting rows..." st in
      st ← sortRows (seqZ 0 (height - 1)) fuel this width height m supplied st;
      let sortedData := convertToRGBA (work st) pixels in
      let st := report supplied true 100%Q "Complete!" st in
      Some (st, new_ImageData sortedData width height)
  end.

End AnySize.

(** The completion of [sortImage] above, among the outcomes. *)
Definition outcome_of (c : completion) : AnySize.outcome :=
  match c with
  | Return img => AnySize.Returned img
  | Throw e => AnySize.Thrown (AnySize.ImageDataError e)
  end.

Lemma convertToRGB_any_size pixels (w h : nat) :
  Z.of_nat (w * h) ≤ AnySize.max_length →
  AnySize.convertToRGB pixels (Z.of_nat w) (Z.of_nat h) = Some (convertToRGB pixels w h).
Proof.
  intros Hmax. unfold AnySize.convertToRGB, convertToRGB.
  destruct (Z.ltb_spec (Z.of_nat w * Z.of_nat h) 0); [lia|].
  destruct (Z.ltb_spec AnySize.max_length (Z.of_nat w * Z.of_nat h)); [lia|].
  simpl. do 3 f_equal. lia.
Qed.

Lemma new_ImageData_any_size data (w h : nat) :
  Z.of_nat w < 2 ^ 32 → Z.of_nat h < 2 ^ 32 →
  AnySize.new_ImageData data (Z.of_nat w) (Z.of_nat h)
  = outcome_of (new_ImageData data w h).
Proof.
  intros Hw Hh. unfold AnySize.new_ImageData, new_ImageData. cbv zeta.
  rewrite (Z.mod_small (Z.of_nat w)), (Z.mod_small (Z.of_nat h)) by lia.
  change 4 with (Z.of_nat 4).
  rewrite <-Nat2Z.inj_mod, <-!Nat2Z.inj_div, <-Nat2Z.inj_mod.
  repeat destruct (decide _); simpl; try done; try lia.
  by rewrite !Nat2Z.id.
Qed.

(** On an object with the sizes of an [ImageData], the two models of
    [sortImage] are one. *)
Lemma sortImage_any_size fuel this img m supplied :
  Z.of_nat (width img) < 2 ^ 32 → Z.of_nat (height img) < 2 ^ 32 →
  Z.of_nat (width img * height img) ≤ AnySize.max_length →
  AnySize.sortImage fuel this (Z.of_nat (width img)) (Z.of_nat (height img))
    (data img) m supplied
  = (λ ex, (exec_state ex, outcome_of (exec_result ex)))
      <$> sortImage fuel this img m supplied.
Proof.
  intros Hw Hh Hmax. unfold AnySize.sortImage, sortImage.
  rewrite convertToRGB_any_size by done.
  destruct (sortColumns _ fuel this _ _ m supplied _) as [st1|]; simpl; [|done].
  destruct (sortRows _ fuel this _ _ m supplied _) as [st2|]; simpl; [|done].
  by rewrite new_ImageData_any_size.
Qed.

(** Nothing has been done: there is no working buffer, no run was looked
    for and the callback was not called. *)
Definition nothing_done (st : state) : Prop :=
  work st = [] ∧ runs st = [] ∧ calls st = [].

(** The call has done all its work: the working buffer was filled with
    [width * height] packed colours, the column phase and then the row
    phase were run on it, and every call to the callback was made, the
    last one included. *)
Definition all_work_done (fuel : nat) (this : PixelSorter) (w h : Z)
    (data : list Z) (m : mode) (supplied : bool) (st : state) : Prop :=
  ∃ work0 st1 st2,
    AnySize.convertToRGB (JS.clamp8 <$> data) w h = Some work0 ∧
    Z.of_nat (length work0) = w * h ∧ Forall is_packed work0 ∧
    sortColumns (seqZ 0 (w - 1)) fuel this w h m supplied
      (report supplied true 0%Q "Sorting columns..."
         {| work := work0; runs := []; calls := [] |}) = Some st1 ∧
    sortRows (seqZ 0 (h - 1)) fuel this w h m supplied
      (report supplied true 50%Q "Sorting rows..." st1) = Some st2 ∧
    st = report supplied true 100%Q "Complete!" st2 ∧
    columns_post this m supplied w h
      (report supplied true 0%Q "Sorting columns..."
         {| work := work0; runs := []; calls := [] |}) st1 ∧
    rows_post this m supplied w h
      (report supplied true 50%Q "Sorting rows..." st1) st2 ∧
    work st ≡ₚ work0 ∧
    calls st = all_reports supplied w h.

Lemma convertToRGB_any_size_Some pixels (w h : Z) :
  0 ≤ w * h ≤ AnySize.max_length →
  ∃ work0, AnySize.convertToRGB pixels w h = Some work0 ∧
           Z.of_nat (length work0) = w * h ∧
           (Forall is_byte pixels → Forall is_packed work0).
Proof.
  intros Hwh. unfold AnySize.convertToRGB.
  destruct (Z.ltb_spec (w * h) 0); [lia|].
  destruct (Z.ltb_spec AnySize.max_length (w * h)); [lia|].
  simpl. eexists. split; [done|]. split.
  - rewrite length_fmap, length_seq. lia.
  - intros Hbytes. apply Forall_fmap, Forall_forall.
    intros i _. simpl. rewrite packRGB_int_of.
    apply unpack_packRGB; by apply int_of_lookup_byte.
Qed.

Lemma sortImage_any_size_works fuel this w h data m supplied :
  w < Z.of_nat fuel → h < Z.of_nat fuel →
  0 ≤ w * h ≤ AnySize.max_length →
  ∃ st, AnySize.sortImage fuel this w h data m supplied
        = Some (st, AnySize.new_ImageData
                      (convertToRGBA (work st) (JS.clamp8 <$> data)) w h) ∧
        all_work_done fuel this w h data m supplied st.
Proof.
  intros Hw Hh Hwh.
  destruct (convertToRGB_any_size_Some (JS.clamp8 <$> data) w h Hwh)
    as (work0 & Hwork0 & Hlen0 & Hpacked).
  unfold AnySize.sortImage. rewrite Hwork0.
  set (st0 := report supplied true 0%Q "Sorting columns..."
                {| work := work0; runs := []; calls := [] |}).
  assert (Hlen0' : Z.of_nat (length (work st0)) = w * h).
  { unfold st0. by rewrite report_work. }
  destruct (sortColumns_returns fuel this w h m supplied st0 Hlen0' Hh)
    as (st1 & Hst1 & Hcols).
  rewrite Hst1. simpl.
  assert (Hlen1 : Z.of_nat (length (work (report supplied true 50%Q "Sorting rows..." st1)))
                  = w * h).
  { rewrite report_work. destruct Hcols as (-> & _). done. }
  destruct (sortRows_returns fuel this w h m supplied _ Hlen1 Hw)
    as (st2 & Hst2 & Hrows).
  rewrite Hst2. simpl.
  eexists. split; [by rewrite report_work|].
  exists work0, st1, st2.
  split; [done|]. split; [done|]. split; [apply Hpacked, clamp8_fmap_bytes|].
  split; [done|]. split; [done|]. split; [done|]. split; [done|]. split; [done|].
  destruct Hcols as (_ & Hp1 & _ & Hc1 & _).
  destruct Hrows as (_ & Hp2 & _ & Hc2 & _).
  rewrite report_work in Hp2. rewrite report_calls in Hc2.
  unfold st0 in Hp1, Hc1. rewrite report_work in Hp1. rewrite report_calls in Hc1.
  simpl in Hp1, Hc1. split.
  - by rewrite report_work, Hp2, Hp1.
  - rewrite report_calls, Hc2, Hc1. unfold all_reports. rewrite !andb_true_r.
    by rewrite <-!app_assoc.
Qed.

Lemma new_ImageData_any_size_zero data (w h : Z) :
  w * h = 0 → ∃ e, AnySize.new_ImageData data w h = AnySize.Thrown (AnySize.ImageDataError e).
Proof.
  intros Hwh. unfold AnySize.new_ImageData. cbv zeta.
  destruct (decide _) as [_|Hlen]; [by eexists|].
  destruct (decide _) as [_|Hsw]; [by eexists|].
  destruct (decide _) as [_|Hsh]; [by eexists|].
  exfalso. apply Z.eq_mul_0 in Hwh as [->| ->].
  - apply Hsw. by left.
  - change (0 `mod` 2 ^ 32) with 0 in Hsh.
    assert (Hpos : 0 < w `mod` 2 ^ 32)
      by (pose proof (Z.mod_pos_bound w (2 ^ 32) ltac:(lia)); lia).
    Z.div_mod_to_equations. nia.
Qed.

Lemma new_ImageData_any_size_mismatch data (w h : Z) :
  0 < w < 2 ^ 32 → 0 < h < 2 ^ 32 → Z.of_nat (length data) ≠ w * h * 4 →
  ∃ e, AnySize.new_ImageData data w h = AnySize.Thrown (AnySize.ImageDataError e).
Proof.
  intros Hw Hh Hne. unfold AnySize.new_ImageData. cbv zeta.
  rewrite (Z.mod_small w), (Z.mod_small h) by lia.
  destruct (decide _) as [_|Hlen]; [by eexists|].
  destruct (decide _) as [_|Hsw]; [by eexists|].
  destruct (decide _) as [_|Hsh]; [by eexists|].
  exfalso. Z.div_mod_to_equations. nia.
Qed.

Lemma new_ImageData_any_size_negative data (w h : Z) :
  w < 0 → h < 0 → w * h ≤ AnySize.max_length →
  Z.of_nat (length data) < 2 ^ 33 →
  ∃ e, AnySize.new_ImageData data w h = AnySize.Thrown (AnySize.ImageDataError e).
Proof.
  intros Hw Hh Hmax Hshort. unfold AnySize.new_ImageData. cbv zeta.
  destruct (decide _) as [_|Hlen]; [by eexists|].
  destruct (decide _) as [_|Hsw]; [by eexists|].
  destruct (decide _) as [_|Hsh]; [by eexists|].
  exfalso.
  pose proof (Z.mod_pos_bound w (2 ^ 32) ltac:(lia)) as Hsw1.
  pose proof (Z.mod_pos_bound h (2 ^ 32) ltac:(lia)) as Hsh1.
  set (sw := w `mod` 2 ^ 32) in *. set (sh := h `mod` 2 ^ 32) in *.
  set (len := Z.of_nat (length data)) in *.
  assert (Hprod : len = 4 * (sw * sh)) by (Z.div_mod_to_equations; nia).
  assert (Hsh0 : 0 < sh) by nia.
  assert (Hsw0 : 0 < sw) by lia.
  unfold AnySize.max_length in Hmax.
  change (2 ^ 53) with 9007199254740992 in Hmax.
  change (2 ^ 33) with 8589934592 in Hshort.
  change (2 ^ 32) with 4294967296 in *.
  destruct (Z.le_gt_cases (-134217728) h) as [Hh27|Hh27].
  - assert (sh = h + 4294967296).
    { unfold sh. symmetry. apply (Z.mod_unique_pos _ _ (-1)); lia. }
    nia.
  - assert (Hw27 : -134217728 ≤ w) by nia.
    assert (sw = w + 4294967296).
    { unfold sw. symmetry. apply (Z.mod_unique_pos _ _ (-1)); lia. }
    nia.
Qed.

Lemma new_ImageData_any_size_Returned data (w h : Z) :
  0 < w < 2 ^ 32 → 0 < h < 2 ^ 32 → Z.of_nat (length data) = w * h * 4 →
  AnySize.new_ImageData data w h
  = AnySize.Returned {| width := Z.to_nat w; height := Z.to_nat h; data := data |}.
Proof.
  intros Hw Hh Hlen. unfold AnySize.new_ImageData. cbv zeta.
  rewrite (Z.mod_small w), (Z.mod_small h) by lia. rewrite Hlen.
  assert (H4 : (w * h * 4) `mod` 4 = 0) by (apply Z.mod_mul; lia).
  assert (Hd : (w * h * 4) `div` 4 = w * h) by (apply Z.div_mul; lia).
  assert (Hm : (w * h) `mod` w = 0) by (rewrite Z.mul_comm; apply Z.mod_mul; lia).
  assert (Hq : (w * h) `div` w = h) by (rewrite Z.mul_comm; apply Z.div_mul; lia).
  rewrite H4, Hd, Hm, Hq.
  destruct (decide _) as [[?|?]|_]; [nia|done|].
  destruct (decide _) as [[?|?]|_]; [lia|done|].
  destruct (decide _) as [?|_]; done.
Qed.



(** Three malformed buffers, run.  A negative width with a positive
    height: the allocation throws and nothing is done. *)
Example negative_width_RangeError :
  AnySize.sortImage 4 newPixelSorter (-3) 3 (data image_short) Black true
  = Some ({| work := []; runs := []; calls := [] |},
          AnySize.Thrown AnySize.RangeError).
Proof. reflexivity. Qed.

(** A zero height: the working buffer is empty, the three calls that do
    not depend on a line are made, and the [ImageData] constructor
    throws. *)
Example zero_height_fails_at_the_end :
  AnySize.sortImage 4 newPixelSorter 1 0 (data image_short) Black true
  = Some ({| work := []; runs := [];
             calls := [(0%Q, "Sorting columns..."); (50%Q, "Sorting rows...");
                       (100%Q, "Complete!")] |},
          AnySize.Thrown (AnySize.ImageDataError IndexSizeError)).
Proof. reflexivity. Qed.

(** A negative width and a negative height: the working buffer is
    filled, no line is scanned, and the [ImageData] constructor throws
    at the end. *)
Example negative_sizes_fill_the_buffer :
  AnySize.sortImage 4 newPixelSorter (-1) (-3) (data image_short) Black true
  = Some ({| work := [-16116706; -16711165; -16447993]; runs := [];
             calls := [(0%Q, "Sorting columns..."); (50%Q, "Sorting rows...");
                       (100%Q, "Complete!")] |},
          AnySize.Thrown (AnySize.ImageDataError IndexSizeError)).
Proof. reflexivity. Qed.

(** ** Counting the pixels in runs (C8) *)

Lemma filter_length_le {A} (P Q : A → Prop) `{!∀ x, Decision (P x)}
    `{!∀ x, Decision (Q x)} (l : list A) :
  (∀ x, x ∈ l → P x → Q x) →
  (length (filter P l) ≤ length (filter Q l))%nat.
Proof.
  induction l as [|x l IH]; intros Himp; [done|].
  assert (IH' : (length (filter P l) ≤ length (filter Q l))%nat).
  { apply IH. intros y Hy. apply Himp. by right. }
  destruct (decide (P x)) as [HP|HP].
  - rewrite (filter_cons_True P) by done.
    rewrite (filter_cons_True Q) by (apply Himp; [by left|done]). simpl. lia.
  - rewrite (filter_cons_False P) by done.
    destruct (decide (Q x)).
    + rewrite (filter_cons_True Q) by done. simpl. lia.
    + by rewrite (filter_cons_False Q).
Qed.

(** A test that stops less often keeps fewer entries. *)
Lemma count_kept_le (skip skip' : Z → bool) (a b : Z) :
  (∀ i, a ≤ i < b → skip' i = false → skip i = false) →
  count_kept skip' a b ≤ count_kept skip a b.
Proof.
  intros Himp. unfold count_kept. apply inj_le, filter_length_le.
  intros i Hi%elem_of_seqZ. apply Himp. lia.
Qed.

Lemma count_kept_shift (f : Z → bool) (d a b : Z) :
  count_kept (λ i, f (i + d)) a b = count_kept f (a + d) (b + d).
Proof.
  unfold count_kept. replace (b + d - (a + d)) with (b - a) by lia.
  generalize (b - a). intros n. f_equal.
  destruct (Z.le_gt_cases n 0) as [Hn|Hn].
  { assert (Hnil : ∀ m, seqZ m n = []).
    { intros m. apply length_zero_iff_nil. rewrite length_seqZ. lia. }
    by rewrite !Hnil. }
  revert a. pattern n. apply Zlt_lower_bound_ind with (z := 1); [|lia].
  clear n Hn. intros n IH Hn a. rewrite !(seqZ_cons _ n) by lia.
  assert (Hrest : length (filter (λ i, f (i + d) = false) (seqZ (Z.succ a) (Z.pred n)))
                  = length (filter (λ i, f i = false) (seqZ (Z.succ (a + d)) (Z.pred n)))).
  { destruct (decide (n = 1)) as [->|Hne]; [done|].
    replace (Z.succ (a + d)) with (Z.succ a + d) by lia. apply IH. lia. }
  destruct (f (a + d)) eqn:Hf.
  - rewrite !filter_cons_False by (rewrite Hf; done). exact Hrest.
  - rewrite !filter_cons_True by done. simpl. by rewrite Hrest.
Qed.

(** The entries among the first [n] of the buffer at which [skipv] is
    false. *)
Definition flat_kept (skipv : option Z → bool) (pixels : list Z) (n : nat) : Z :=
  Z.of_nat (length (filter (λ v, skipv (Some v) = false) (take n pixels))).

Lemma count_kept_flat (skipv : option Z → bool) (pixels : list Z) (n : nat) :
  (n ≤ length pixels)%nat →
  count_kept (λ j, skipv (JS.read pixels j)) 0 (Z.of_nat n)
  = flat_kept skipv pixels n.
Proof.
  induction n as [|n IH]; intros Hn; [done|].
  destruct (lookup_lt_is_Some_2 pixels n) as [v Hv]; [lia|].
  rewrite (count_kept_split _ 0 (Z.of_nat n)) by lia. rewrite IH by lia.
  unfold flat_kept. rewrite (take_S_r _ _ v) by done.
  rewrite filter_app, length_app.
  unfold count_kept. replace (Z.of_nat (S n) - Z.of_nat n) with 1 by lia.
  change (seqZ (Z.of_nat n) 1) with [Z.of_nat n].
  assert (Hread : JS.read pixels (Z.of_nat n) = Some v) by (by rewrite read_of_nat).
  destruct (skipv (Some v)) eqn:Hskip.
  - rewrite !filter_cons_False by (rewrite ?Hread, Hskip; done). simpl. lia.
  - rewrite !filter_cons_True by (rewrite ?Hread, Hskip; done). simpl. lia.
Qed.

Lemma flat_kept_Permutation skipv pixels pixels' (n : nat) :
  take n pixels ≡ₚ take n pixels' → flat_kept skipv pixels n = flat_kept skipv pixels' n.
Proof. intros Hperm. unfold flat_kept. by rewrite Hperm. Qed.

Lemma flat_kept_le (skipv skipv' : option Z → bool) pixels (n : nat) :
  (∀ v, skipv' v = false → skipv v = false) →
  flat_kept skipv' pixels n ≤ flat_kept skipv pixels n.
Proof.
  intros Himp. unfold flat_kept. apply inj_le, filter_length_le.
  intros v _. apply Himp.
Qed.

Lemma phase_kept_le (index : Z → Z → Z) (limit : Z) (skipv skipv' : option Z → bool)
    (pixels : list Z) (lines : list Z) :
  (∀ v, skipv' v = false → skipv v = false) →
  phase_kept index limit skipv' pixels lines ≤ phase_kept index limit skipv pixels lines.
Proof.
  intros Himp. induction lines as [|line lines IH]; simpl; [done|].
  assert (scanned_kept (index line) limit skipv' pixels
          ≤ scanned_kept (index line) limit skipv pixels); [|lia].
  unfold scanned_kept, line_kept. case_match; [|done].
  apply count_kept_le. intros i _. apply Himp.
Qed.

Lemma phase_kept_narrow (index : Z → Z → Z) (limit : Z) (skipv : option Z → bool)
    (pixels : list Z) (lines : list Z) :
  limit ≤ 1 → phase_kept index limit skipv pixels lines = 0.
Proof.
  intros Hlimit. induction lines as [|line lines IH]; simpl; [done|].
  rewrite IH. unfold scanned_kept. destruct (Z.ltb_spec 1 limit); lia.
Qed.

(** The rows [a] to [a + k - 1], as one stretch of the buffer. *)
Lemma rows_kept_stretch (skipv : option Z → bool) (pixels : list Z) (w a : Z) (k : nat) :
  1 < w → 0 ≤ a →
  phase_kept (λ row x, x + row * w) w skipv pixels (seqZ a (Z.of_nat k))
  = count_kept (λ j, skipv (JS.read pixels j)) (a * w) ((a + Z.of_nat k) * w).
Proof.
  intros Hw. revert a. induction k as [|k IH]; intros a Ha.
  - simpl. symmetry. apply count_kept_empty. lia.
  - rewrite seqZ_cons by lia. simpl.
    replace (Z.pred (Z.of_nat (S k))) with (Z.of_nat k) by lia.
    rewrite IH by lia.
    unfold scanned_kept, line_kept. destruct (Z.ltb_spec 1 w); [|lia].
    rewrite (count_kept_shift (λ j, skipv (JS.read pixels j)) (a * w) 0 w).
    rewrite (count_kept_split _ (a * w) (Z.succ a * w) ((a + Z.of_nat (S k)) * w))
      by nia.
    f_equal; f_equal; lia.
Qed.

(** The column phase moves no pixel into or out of the rows the row
    phase scans: they keep as many entries a run can start at. *)
Lemma rows_kept_invariant (skipv : option Z → bool) (pixels pixels' : list Z)
    (w h : nat) :
  length pixels = (w * h)%nat → length pixels' = (w * h)%nat →
  pixels' ≡ₚ pixels →
  (∀ j, ¬ interior (Z.of_nat w) (Z.of_nat h) j → JS.read pixels' j = JS.read pixels j) →
  phase_kept (λ row x, x + row * Z.of_nat w) (Z.of_nat w) skipv pixels'
    (seqZ 0 (Z.of_nat h - 1))
  = phase_kept (λ row x, x + row * Z.of_nat w) (Z.of_nat w) skipv pixels
    (seqZ 0 (Z.of_nat h - 1)).
Proof.
  intros Hlen Hlen' Hperm Hframe.
  destruct (Z.le_gt_cases (Z.of_nat w) 1) as [Hw|Hw].
  { by rewrite !phase_kept_narrow. }
  destruct h as [|h].
  { done. }
  replace (Z.of_nat (S h) - 1) with (Z.of_nat h) by lia.
  rewrite !rows_kept_stretch by lia.
  replace (0 * Z.of_nat w) with 0 by lia.
  replace ((0 + Z.of_nat h) * Z.of_nat w) with (Z.of_nat (h * w)) by lia.
  rewrite !count_kept_flat by nia.
  apply flat_kept_Permutation.
  apply (Permutation_app_inv_r (drop (h * w) pixels)).
  rewrite take_drop.
  assert (Hdrop : drop (h * w) pixels = drop (h * w) pixels') ; [|by rewrite Hdrop, take_drop].
  apply list_eq. intros i. rewrite !lookup_drop, <-!read_of_nat.
  symmetry. apply Hframe. intros (x & y & Hx & Hy & Hj). nia.
Qed.

(** The entries of the packed image a run of the column phase, and of
    the row phase, can start at. *)
Definition columns_kept (this : PixelSorter) (m : mode) (pixels : list Z)
    (w h : Z) : Z :=
  phase_kept (λ column y, column + y * w) h (skip_test this m) pixels
    (seqZ 0 (w - 1)).

Definition rows_kept (this : PixelSorter) (m : mode) (pixels : list Z)
    (w h : Z) : Z :=
  phase_kept (λ row x, x + row * w) w (skip_test this m) pixels
    (seqZ 0 (h - 1)).

(** The runs of a whole call cover as many pixels as the packed image,
    before any sorting, has entries a run can start at: in the columns
    but the last, and in the rows but the last. *)
Lemma sortImage_pixels_in_runs fuel this img m supplied :
  (width img < fuel)%nat → (height img < fuel)%nat →
  ∃ ex, sortImage fuel this img m supplied = Some ex ∧
        pixels_in_runs (runs (exec_state ex))
        = columns_kept this m
            (convertToRGB (JS.clamp8 <$> data img) (width img) (height img))
            (Z.of_nat (width img)) (Z.of_nat (height img))
          + rows_kept this m
              (convertToRGB (JS.clamp8 <$> data img) (width img) (height img))
              (Z.of_nat (width img)) (Z.of_nat (height img)).
Proof.
  intros Hw Hh.
  destruct (sortImage_returns fuel this img m supplied)
    as (st1 & st2 & Hcols & Hrows & ->); [lia|lia|].
  eexists; split; [done|]. simpl. rewrite report_runs.
  destruct Hcols as (Hl1 & Hp1 & Hf1 & _ & found1 & Hr1 & Hk1).
  destruct Hrows as (_ & _ & _ & _ & found2 & Hr2 & Hk2).
  rewrite report_runs in Hr2. rewrite report_work in Hk2.
  unfold initial_state in *. rewrite report_work in Hl1, Hp1, Hf1, Hk1.
  rewrite report_runs in Hr1. simpl in Hl1, Hp1, Hf1, Hr1, Hk1.
  rewrite Hr2, Hr1, pixels_in_runs_app, Hk1, Hk2.
  unfold columns_kept, rows_kept. f_equal.
  apply rows_kept_invariant.
  - apply convertToRGB_length.
  - by rewrite Hl1, convertToRGB_length.
  - done.
  - intros j Hj. apply Hf1.
    intros c y Hc%elem_of_seqZ Hy ?. apply Hj. exists c, y. lia.
Qed.

(** The same sorter with another [brightValue]. *)
Definition with_brightValue (this : PixelSorter) (v : Z) : PixelSorter :=
  setThresholds (whiteValue this) (blackValue this) v (darkValue this).

(** C8.  For a fixed image, in Bright mode, raising [brightValue] and
    nothing else does not raise the number of pixels the runs of a call
    of [sortImage] cover: the sum, over the runs found in the column
    phase and in the row phase, of their lengths [end - start + 1]. *)
Theorem bright_threshold_monotone (fuel : nat) (this : PixelSorter) (v : Z)
    (img : ImageData) (supplied : bool) :
  brightValue this ≤ v →
  (width img < fuel)%nat → (height img < fuel)%nat →
  ∃ ex ex', sortImage fuel this img Bright supplied = Some ex ∧
            sortImage fuel (with_brightValue this v) img Bright supplied = Some ex' ∧
            pixels_in_runs (runs (exec_state ex'))
              ≤ pixels_in_runs (runs (exec_state ex)).
Proof.
  intros Hv Hw Hh.
  destruct (sortImage_pixels_in_runs fuel this img Bright supplied Hw Hh)
    as (ex & Hex & Hruns).
  destruct (sortImage_pixels_in_runs fuel (with_brightValue this v) img Bright
              supplied Hw Hh) as (ex' & Hex' & Hruns').
  exists ex, ex'. split; [done|]. split; [done|].
  rewrite Hruns, Hruns'.
  assert (Himp : ∀ c, skip_test (with_brightValue this v) Bright c = false →
                      skip_test this Bright c = false).
  { intros c. simpl. intros ?%Z.ltb_ge. apply Z.ltb_ge. lia. }
  unfold columns_kept, rows_kept.
  apply Z.add_le_mono; by apply phase_kept_le.
Qed.

Definition image_3x2 : ImageData :=
  {| width := 3; height := 2;
     data := [200; 200; 200; 255;  10; 10; 10; 255;  210; 210; 210; 255;
              5; 5; 5; 255;  90; 90; 90; 255;  250; 250; 250; 255] |}.

Lemma bright_threshold_monotone_witness :
  brightValue newPixelSorter ≤ 205 ∧
  (width image_3x2 < 4)%nat ∧ (height image_3x2 < 4)%nat ∧
  ∃ ex ex', sortImage 4 newPixelSorter image_3x2 Bright false = Some ex ∧
            sortImage 4 (with_brightValue newPixelSorter 205) image_3x2 Bright false
              = Some ex' ∧
            pixels_in_runs (runs (exec_state ex'))
              ≤ pixels_in_runs (runs (exec_state ex)).
Proof.
  split; [simpl; lia|]. split; [simpl; lia|]. split; [simpl; lia|].
  apply (bright_threshold_monotone 4 newPixelSorter 205 image_3x2 false);
    simpl; lia.
Defined.

(** The count of C8 takes every run the scan finds.  Counting only the
    pixels that get sorted, [end - start] of them in each run where this
    exceeds 1, is another matter: the column phase leaves the rows in
    another order under another threshold, and on this 4 by 3 image the
    count goes from 4 to 5 when [brightValue] goes from 163 to 164. *)
Definition pixels_sorted (found : list run) : Z :=
  foldr (λ r acc, (if 1 <? r.2 - r.1 then r.2 - r.1 else 0) + acc) 0 found.

Definition image_4x3 : ImageData :=
  {| width := 4; height := 3;
     data := [207; 207; 207; 255;  154; 154; 207; 255;
              176; 154; 176; 255;  207; 207; 207; 255;
              176; 176; 176; 255;  154; 176; 207; 255;
              154; 176; 176; 255;  154; 207; 154; 255;
              207; 207; 207; 255;  176; 154; 176; 255;
              207; 207; 207; 255;  207; 207; 207; 255] |}.

Example pixels_sorted_not_monotone :
  (λ ex, (runs (exec_state ex), pixels_sorted (runs (exec_state ex))))
    <$> sortImage 5 (with_brightValue newPixelSorter 163) image_4x3 Bright false
  = Some ([(0, 2); (1, 1); (2, 2); (0, 2); (0, 0); (2, 3); (0, 1); (2, 3)], 4) ∧
  (λ ex, (runs (exec_state ex), pixels_sorted (runs (exec_state ex))))
    <$> sortImage 5 (with_brightValue newPixelSorter 164) image_4x3 Bright false
  = Some ([(0, 2); (1, 1); (1, 2); (0, 0); (3, 3); (0, 3)], 5).
Proof. split; vm_compute; reflexivity. Qed.

(** * Further properties of the code *)

(** ** The runs of a line, and what the loop makes of them *)

(** Runs in the order of the scan, from [x] on: each lies in the line
    and starts after the end of the one before. *)
Fixpoint runs_chain (x limit : Z) (found : list run) : Prop :=
  match found with
  | [] => True
  | r :: found => x ≤ r.1 ∧ r.1 ≤ r.2 ∧ r.2 < limit ∧ runs_chain (r.2 + 1) limit found
  end.

(** Index [i] lies in one of the runs. *)
Definition in_runs (found : list run) (i : Z) : Prop :=
  ∃ r, r ∈ found ∧ r.1 ≤ i ≤ r.2.

(** Index [i] lies in the part of a run that gets sorted: the run has
    [end - start] above 1 and [i] is not its end. *)
Definition in_sorted_part (found : list run) (i : Z) : Prop :=
  ∃ r, r ∈ found ∧ 1 < r.2 - r.1 ∧ r.1 ≤ i < r.2.

Lemma runs_chain_lower x limit found r :
  runs_chain x limit found → r ∈ found → x ≤ r.1 ∧ r.1 ≤ r.2 ∧ r.2 < limit.
Proof.
  revert x. induction found as [|r0 found IH]; intros x Hchain Hr.
  - by apply elem_of_nil in Hr.
  - destruct Hchain as (? & ? & ? & Hrest).
    apply elem_of_cons in Hr as [->|Hr]; [done|].
    destruct (IH _ Hrest Hr) as (? & ? & ?). lia.
Qed.

Lemma read_ext (l k : list Z) :
  length l = length k → (∀ j, JS.read l j = JS.read k j) → l = k.
Proof.
  intros Hlen Hread. apply list_eq. intros i.
  specialize (Hread (Z.of_nat i)). by rewrite !read_of_nat in Hread.
Qed.

Section line_runs.
Context (first next : list Z → Z → option Z) (index : Z → Z) (limit : Z).
Context (skipv contv : option Z → bool) (len : nat).
Hypothesis first_sound : ∀ pixels x s,
  0 ≤ x < limit → first pixels x = Some s →
  first_found (λ i, skipv (JS.read pixels (index i))) limit x s.
Hypothesis next_sound : ∀ pixels s e,
  -1 ≤ s < limit → next pixels s = Some e →
  next_found (λ i, contv (JS.read pixels (index i))) limit s e.
Hypothesis cont_not_skip : ∀ v, contv v = true → skipv v = false.
Hypothesis index_inj : ∀ i j, index i = index j → i = j.
Hypothesis index_in_range : ∀ i, 0 ≤ i < limit → 0 ≤ index i < Z.of_nat len.

(** What the loop returns, entered at [x] on [pixels]: the runs are in
    order, they hold the indices at which the first test fails, the
    sorted part of each holds its former values in ascending order, and
    the rest of the buffer is as it was. *)
Definition line_runs_post (pixels : list Z) (x : Z)
    (result : list Z * list run) : Prop :=
  runs_chain x limit result.2 ∧
  (∀ i, x ≤ i < limit →
        in_runs result.2 i ↔ skipv (JS.read pixels (index i)) = false) ∧
  (∀ r, r ∈ result.2 → 1 < r.2 - r.1 →
        sorted_copy (run_values pixels (λ i, index (r.1 + i)) (r.2 - r.1))
                    (run_values result.1 (λ i, index (r.1 + i)) (r.2 - r.1))) ∧
  (∀ j, (∀ i, in_sorted_part result.2 i → index i ≠ j) →
        JS.read result.1 j = JS.read pixels j).

Lemma run_values_ext pixels pixels' (idx : Z → Z) (n : Z) :
  (∀ i, 0 ≤ i < n → JS.read pixels (idx i) = JS.read pixels' (idx i)) →
  run_values pixels idx n = run_values pixels' idx n.
Proof.
  intros Hsame. unfold run_values. apply Forall_fmap_ext_1, Forall_forall.
  intros i Hi%elem_of_seqZ. rewrite Hsame by lia. done.
Qed.

Lemma line_loop_runs n pixels x xEnd result :
  length pixels = len → 0 ≤ x ≤ xEnd + 1 →
  xEnd < limit - 1 ∨ limit ≤ x →
  line_loop first next index limit n pixels x xEnd = Some result →
  line_runs_post pixels x result.
Proof.
  revert pixels x xEnd result.
  induction n as [|n IH]; intros pixels x xEnd result Hlen Hx Hrun; [done|].
  simpl. destruct (Z.ltb_spec xEnd (limit - 1)) as [Hin|Hout].
  - destruct (first pixels x) as [s|] eqn:Hs; [|done]. simpl.
    pose proof (first_sound pixels x s ltac:(lia) Hs) as Hfs.
    assert (Hsr : -1 ≤ s < limit) by (destruct Hfs as [[-> _]|(? & _)]; lia).
    destruct (next pixels s) as [e|] eqn:He; [|done]. simpl.
    pose proof (next_sound pixels s e Hsr He) as (Hse & Hel & Hcont & Hstop).
    destruct (Z.ltb_spec s 0) as [Hneg|Hpos].
    + intros [= <-]. destruct Hfs as [[_ Hall]|(? & _)]; [|lia].
      split; [done|]. split; [|split; [|done]].
      * intros i Hi. rewrite (Hall i Hi). split; [|done].
        intros (r & Hr & _). by apply elem_of_nil in Hr.
      * intros r Hr. by apply elem_of_nil in Hr.
    + destruct Hfs as [[-> _]|(Hxs & Hstart & Hskip)]; [lia|].
      set (pixels1 := sortRun pixels (λ i, index (s + i)) (e - s)).
      destruct (line_loop first next index limit n pixels1 (e + 1) e)
        as [[pixels' found]|] eqn:Hloop; [|done].
      simpl. intros [= <-].
      assert (Hlen1 : length pixels1 = len) by (unfold pixels1; by rewrite sortRun_length).
      destruct (IH pixels1 (e + 1) e _ Hlen1 ltac:(lia) ltac:(lia) Hloop)
        as (Hchain & Hmem & Hsorted & Hrest). simpl in *.
      assert (Hsame : ∀ j, (∀ i, s ≤ i < e → index i ≠ j) →
                JS.read pixels1 j = JS.read pixels j).
      { intros j Hj. apply sortRun_frame. intros i Hi. apply Hj. lia. }
      assert (Hlate : ∀ r, r ∈ found → e + 1 ≤ r.1 ∧ r.1 ≤ r.2 ∧ r.2 < limit).
      { intros r Hr. by eapply runs_chain_lower. }
      destruct (sortRun_sorted_in_place pixels index s e) as [Hlong Hshort];
        [intros i Hi; unfold in_bounds; rewrite Hlen; apply index_in_range; lia
        |done|].
      fold pixels1 in Hlong, Hshort.
      split; [simpl; split_and!; [lia..|done]|]. split; [|split].
      * intros i Hi. destruct (Z.lt_ge_cases e i) as [Hie|Hie].
        -- rewrite <-(Hsame (index i)) by (intros k Hk Hik%index_inj; lia).
           rewrite <-Hmem by lia. split.
           ++ intros (r & [->|Hr]%elem_of_cons & Hri); [simpl in Hri; lia|].
              by exists r.
           ++ intros (r & Hr & Hri). exists r. split; [by right|done].
        -- destruct (Z.lt_ge_cases i s) as [His|His].
           ++ rewrite Hskip by lia. split; [|done].
              intros (r & [->|Hr]%elem_of_cons & Hri); [simpl in Hri; lia|].
              destruct (Hlate r Hr). lia.
           ++ split.
              ** intros _. destruct (decide (i = s)) as [->|]; [done|].
                 apply cont_not_skip, Hcont. lia.
              ** intros _. exists (s, e). split; [by left|simpl; lia].
      * intros r [->|Hr]%elem_of_cons Hr1; simpl in *.
        -- destruct (Hlong Hr1) as [[Hsort Hperm] _].
           assert (Hkeep : run_values pixels' (λ i, index (s + i)) (e - s)
                           = run_values pixels1 (λ i, index (s + i)) (e - s)).
           { apply run_values_ext. intros i Hi. apply Hrest.
             intros k (r & Hr & _ & Hk) Hik%index_inj. destruct (Hlate r Hr). lia. }
           rewrite Hkeep. by split.
        -- destruct (Hlate r Hr) as (? & ? & ?).
           rewrite (run_values_ext pixels pixels1); [by apply Hsorted|].
           intros i Hi. symmetry. apply Hsame.
           intros k Hk Hik%index_inj. lia.
      * intros j Hj. rewrite Hrest.
        -- destruct (Z.ltb_spec 1 (e - s)) as [Hl|Hl]; [|by rewrite (Hshort Hl)].
           apply Hsame. intros i Hi. apply Hj. exists (s, e).
           split; [by left|simpl; lia].
        -- intros i (r & Hr & Hr1 & Hi). apply Hj. exists r.
           split; [by right|done].
  - intros [= <-]. split; [done|]. split; [|split; [|done]].
    + intros i Hi. lia.
    + intros r Hr. by apply elem_of_nil in Hr.
Qed.
End line_runs.

(** A whole scan of a line: what [line_loop] returns when entered at 0.
    A line of one entry is not scanned, so its entry is in no run. *)
Definition scanline_runs (index : Z → Z) (limit : Z) (skipv : option Z → bool)
    (pixels : list Z) (result : list Z * list run) : Prop :=
  runs_chain 0 limit result.2 ∧
  (1 < limit → ∀ i, 0 ≤ i < limit →
     in_runs result.2 i ↔ skipv (JS.read pixels (index i)) = false) ∧
  (∀ r, r ∈ result.2 → 1 < r.2 - r.1 →
        sorted_copy (run_values pixels (λ i, index (r.1 + i)) (r.2 - r.1))
                    (run_values result.1 (λ i, index (r.1 + i)) (r.2 - r.1))) ∧
  (∀ j, (∀ i, in_sorted_part result.2 i → index i ≠ j) →
        JS.read result.1 j = JS.read pixels j).

Lemma line_loop_runs_from_0 first next index limit skipv contv n pixels result :
  (∀ pixels x s, 0 ≤ x < limit → first pixels x = Some s →
     first_found (λ i, skipv (JS.read pixels (index i))) limit x s) →
  (∀ pixels s e, -1 ≤ s < limit → next pixels s = Some e →
     next_found (λ i, contv (JS.read pixels (index i))) limit s e) →
  (∀ v, contv v = true → skipv v = false) →
  (∀ i j, index i = index j → i = j) →
  (∀ i, 0 ≤ i < limit → 0 ≤ index i < Z.of_nat (length pixels)) →
  line_loop first next index limit n pixels 0 0 = Some result →
  scanline_runs index limit skipv pixels result.
Proof.
  intros Hfirst Hnext Hcs Hinj Hrange Hloop.
  destruct (decide (1 < limit)) as [Hlimit|Hlimit].
  - destruct (line_loop_runs first next index limit skipv contv (length pixels)
                Hfirst Hnext Hcs Hinj Hrange n pixels 0 0 result)
      as (Hchain & Hmem & Hsorted & Hrest); [done|lia|lia|done|].
    split; [done|]. split; [|done]. intros _. exact Hmem.
  - destruct n as [|n]; [done|]. simpl in Hloop.
    destruct (Z.ltb_spec 0 (limit - 1)); [lia|].
    injection Hloop as <-. split; [done|]. split; [lia|]. split; [|done].
    intros r Hr. by apply elem_of_nil in Hr.
Qed.

Lemma sortRow_scanline_runs fuel this pixels width height row m result :
  Z.of_nat (length pixels) = width * height → 0 ≤ row < height →
  sortRow fuel this pixels width height row m = Some result →
  scanline_runs (λ x, x + row * width) width (skip_test this m) pixels result.
Proof.
  intros Hlen Hrow. unfold sortRow. rewrite sortRow_loop_line.
  apply (line_loop_runs_from_0 _ _ _ _ (skip_test this m) (cont_test this m)).
  - intros px x s Hx. by apply firstX_sound.
  - intros px s e Hs. by apply nextX_sound.
  - apply cont_test_not_skip.
  - intros i j. lia.
  - intros i Hi. rewrite Hlen. by apply index_in_range.
Qed.

Lemma sortColumn_scanline_runs fuel this pixels width height column m result :
  Z.of_nat (length pixels) = width * height → 0 ≤ column < width →
  sortColumn fuel this pixels width height column m = Some result →
  scanline_runs (λ y, column + y * width) height (skip_test this m) pixels result.
Proof.
  intros Hlen Hcolumn. unfold sortColumn. rewrite sortColumn_loop_line.
  apply (line_loop_runs_from_0 _ _ _ _ (skip_test this m) (cont_test this m)).
  - intros px y s Hy. by apply firstY_sound.
  - intros px s e Hs. by apply nextY_sound.
  - apply cont_test_not_skip.
  - intros i j. nia.
  - intros i Hi. rewrite Hlen. by apply index_in_range.
Qed.

(** The test that keeps an entry out of every run, mode by mode, on a
    packed colour [c]. *)
Lemma skip_test_packed this m c :
  skip_test this m (Some c) =
  match m with
  | White => c <? whiteValue this
  | Black => blackValue this <? c
  | Bright => getBrightness (Some c) <? brightValue this
  | Dark => darkValue this <? getBrightness (Some c)
  end.
Proof. by destruct m. Qed.

(** X1. [sortRow] returns on every row of a buffer of [width * height]
    entries, given fuel above the width.  The runs it finds come in
    increasing order, none overlaps another, all lie inside the row, and
    in a row of more than one pixel a pixel lies in a run exactly when
    the mode's first test does not skip it. *)
Theorem sortRow_runs_cover fuel this pixels width height row m :
  Z.of_nat (length pixels) = width * height →
  0 ≤ row < height → width < Z.of_nat fuel →
  ∃ pixels' found,
    sortRow fuel this pixels width height row m = Some (pixels', found) ∧
    runs_chain 0 width found ∧
    (1 < width → ∀ x, 0 ≤ x < width →
       in_runs found x ↔
       skip_test this m (JS.read pixels (x + row * width)) = false).
Proof.
  intros Hlen Hrow Hfuel.
  destruct (sortRow_post fuel this pixels width height row m Hlen Hrow Hfuel)
    as ([pixels' found] & Hsort & _).
  exists pixels', found. split; [done|].
  destruct (sortRow_scanline_runs _ _ _ _ _ _ _ _ Hlen Hrow Hsort)
    as (Hchain & Hmem & _). done.
Qed.

Lemma sortRow_runs_cover_witness :
  let this := setThresholds (-6) (-3456789) 127 223 in
  let pixels := [-5; -3; -9; -9; -1; -1; -1; -1] in
  ∃ pixels' found,
    sortRow 5 this pixels 4 2 0 White = Some (pixels', found) ∧
    runs_chain 0 4 found ∧
    (1 < 4 → ∀ x, 0 ≤ x < 4 →
       in_runs found x ↔ skip_test this White (JS.read pixels (x + 0 * 4)) = false).
Proof.
  intros this pixels.
  apply (sortRow_runs_cover 5 this pixels 4 2 0 White); [reflexivity|lia|lia].
Defined.

(** X2. The same for [sortColumn] on every column, given fuel above the
    height. *)
Theorem sortColumn_runs_cover fuel this pixels width height column m :
  Z.of_nat (length pixels) = width * height →
  0 ≤ column < width → height < Z.of_nat fuel →
  ∃ pixels' found,
    sortColumn fuel this pixels width height column m = Some (pixels', found) ∧
    runs_chain 0 height found ∧
    (1 < height → ∀ y, 0 ≤ y < height →
       in_runs found y ↔
       skip_test this m (JS.read pixels (column + y * width)) = false).
Proof.
  intros Hlen Hcolumn Hfuel.
  destruct (sortColumn_post fuel this pixels width height column m Hlen Hcolumn Hfuel)
    as ([pixels' found] & Hsort & _).
  exists pixels', found. split; [done|].
  destruct (sortColumn_scanline_runs _ _ _ _ _ _ _ _ Hlen Hcolumn Hsort)
    as (Hchain & Hmem & _). done.
Qed.

Lemma sortColumn_runs_cover_witness :
  let this := setThresholds (-6) (-3456789) 127 223 in
  let pixels := [-5; -3; -9; -9; -1; -1] in
  ∃ pixels' found,
    sortColumn 5 this pixels 2 3 1 White = Some (pixels', found) ∧
    runs_chain 0 3 found ∧
    (1 < 3 → ∀ y, 0 ≤ y < 3 →
       in_runs found y ↔ skip_test this White (JS.read pixels (1 + y * 2)) = false).
Proof.
  intros this pixels.
  apply (sortColumn_runs_cover 5 this pixels 2 3 1 White); [reflexivity|lia|lia].
Defined.

(** X3. The buffer [sortRow] returns has the length of the one it was
    given and the same entries with the same multiplicities.  For every
    run found with [end - start] above 1, the entries [start] to
    [end - 1] of the row hold, in ascending order, the values they held
    before the call; every other entry of the buffer is as before. *)
Theorem sortRow_sorts_runs fuel this pixels width height row m :
  Z.of_nat (length pixels) = width * height →
  0 ≤ row < height → width < Z.of_nat fuel →
  ∃ pixels' found,
    sortRow fuel this pixels width height row m = Some (pixels', found) ∧
    length pixels' = length pixels ∧ pixels' ≡ₚ pixels ∧
    (∀ r, r ∈ found → 1 < r.2 - r.1 →
       sorted_copy (run_values pixels (λ i, r.1 + i + row * width) (r.2 - r.1))
                   (run_values pixels' (λ i, r.1 + i + row * width) (r.2 - r.1))) ∧
    (∀ j, (∀ x, in_sorted_part found x → x + row * width ≠ j) →
       JS.read pixels' j = JS.read pixels j).
Proof.
  intros Hlen Hrow Hfuel.
  destruct (sortRow_post fuel this pixels width height row m Hlen Hrow Hfuel)
    as ([pixels' found] & Hsort & (Hl & Hperm & _) & _).
  exists pixels', found. split; [done|]. split; [done|]. split; [done|].
  destruct (sortRow_scanline_runs _ _ _ _ _ _ _ _ Hlen Hrow Hsort)
    as (_ & _ & Hsorted & Hrest). done.
Qed.

Lemma sortRow_sorts_runs_witness :
  let this := setThresholds (-10) (-3456789) 127 223 in
  let pixels := [-1; -2; -3; -20; -7; -7; -7; -7] in
  ∃ pixels' found,
    sortRow 5 this pixels 4 2 0 White = Some (pixels', found) ∧
    length pixels' = length pixels ∧ pixels' ≡ₚ pixels ∧
    (∀ r, r ∈ found → 1 < r.2 - r.1 →
       sorted_copy (run_values pixels (λ i, r.1 + i + 0 * 4) (r.2 - r.1))
                   (run_values pixels' (λ i, r.1 + i + 0 * 4) (r.2 - r.1))) ∧
    (∀ j, (∀ x, in_sorted_part found x → x + 0 * 4 ≠ j) →
       JS.read pixels' j = JS.read pixels j).
Proof.
  intros this pixels.
  apply (sortRow_sorts_runs 5 this pixels 4 2 0 White); [reflexivity|lia|lia].
Defined.

(** X4. The same for [sortColumn]: same length, same entries, the
    entries [start] to [end - 1] of every run with [end - start] above 1
    sorted in place, every other entry of the buffer as before. *)
Theorem sortColumn_sorts_runs fuel this pixels width height column m :
  Z.of_nat (length pixels) = width * height →
  0 ≤ column < width → height < Z.of_nat fuel →
  ∃ pixels' found,
    sortColumn fuel this pixels width height column m = Some (pixels', found) ∧
    length pixels' = length pixels ∧ pixels' ≡ₚ pixels ∧
    (∀ r, r ∈ found → 1 < r.2 - r.1 →
       sorted_copy (run_values pixels (λ i, column + (r.1 + i) * width) (r.2 - r.1))
                   (run_values pixels' (λ i, column + (r.1 + i) * width) (r.2 - r.1))) ∧
    (∀ j, (∀ y, in_sorted_part found y → column + y * width ≠ j) →
       JS.read pixels' j = JS.read pixels j).
Proof.
  intros Hlen Hcolumn Hfuel.
  destruct (sortColumn_post fuel this pixels width height column m Hlen Hcolumn Hfuel)
    as ([pixels' found] & Hsort & (Hl & Hperm & _) & _).
  exists pixels', found. split; [done|]. split; [done|]. split; [done|].
  destruct (sortColumn_scanline_runs _ _ _ _ _ _ _ _ Hlen Hcolumn Hsort)
    as (_ & _ & Hsorted & Hrest). done.
Qed.

Lemma sortColumn_sorts_runs_witness :
  let this := setThresholds (-10) (-3456789) 127 223 in
  let pixels := [-1; -9; -2; -9; -3; -9; -20; -9] in
  ∃ pixels' found,
    sortColumn 5 this pixels 2 4 0 White = Some (pixels', found) ∧
    length pixels' = length pixels ∧ pixels' ≡ₚ pixels ∧
    (∀ r, r ∈ found → 1 < r.2 - r.1 →
       sorted_copy (run_values pixels (λ i, 0 + (r.1 + i) * 2) (r.2 - r.1))
                   (run_values pixels' (λ i, 0 + (r.1 + i) * 2) (r.2 - r.1))) ∧
    (∀ j, (∀ y, in_sorted_part found y → 0 + y * 2 ≠ j) →
       JS.read pixels' j = JS.read pixels j).
Proof.
  intros this pixels.
  apply (sortColumn_sorts_runs 5 this pixels 2 4 0 White); [reflexivity|lia|lia].
Defined.

(** ** Run detection in every mode *)

(** What a mode compares: the packed colour in White and Black mode, its
    brightness in Bright and Dark mode. *)
Definition mode_key (m : mode) (c : Z) : Z :=
  match m with
  | White | Black => c
  | Bright | Dark => getBrightness (Some c)
  end.

Definition mode_threshold (this : PixelSorter) (m : mode) : Z :=
  match m with
  | White => whiteValue this
  | Black => blackValue this
  | Bright => brightValue this
  | Dark => darkValue this
  end.

(** A run can start at a pixel: its key is at least the threshold in
    White and Bright mode, at most the threshold in Black and Dark mode. *)
Definition starts (this : PixelSorter) (m : mode) (c : Z) : Prop :=
  match m with
  | White | Bright => mode_threshold this m ≤ mode_key m c
  | Black | Dark => mode_key m c ≤ mode_threshold this m
  end.

(** A run goes on over a pixel: as [starts], with the threshold itself
    left out. *)
Definition continues (this : PixelSorter) (m : mode) (c : Z) : Prop :=
  match m with
  | White | Bright => mode_threshold this m < mode_key m c
  | Black | Dark => mode_key m c < mode_threshold this m
  end.

Definition run_start (this : PixelSorter) (m : mode) (value : Z → option Z)
    (limit x s : Z) : Prop :=
  (s = -1 ∧ ∀ i, x ≤ i < limit → holds (value i) (λ c, ¬ starts this m c)) ∨
  (x ≤ s < limit ∧ holds (value s) (starts this m) ∧
   ∀ i, x ≤ i < s → holds (value i) (λ c, ¬ starts this m c)).

Definition run_end (this : PixelSorter) (m : mode) (value : Z → option Z)
    (limit s e : Z) : Prop :=
  s ≤ e < limit ∧
  (∀ i, s < i ≤ e → holds (value i) (continues this m)) ∧
  (e < limit - 1 → holds (value (e + 1)) (λ c, ¬ continues this m c)).

(** A pair of threshold functions detects the runs of mode [m] on a line. *)
Definition detects_runs (this : PixelSorter) (m : mode) (first next : Z → option Z)
    (value : Z → option Z) (limit : Z) (fuel : nat) : Prop :=
  ∀ x, 0 ≤ x < limit →
    (limit ≤ Z.of_nat fuel → is_Some (first x)) ∧
    ∀ s, first x = Some s →
      run_start this m value limit x s ∧
      (0 ≤ s →
       (limit ≤ Z.of_nat fuel → is_Some (next s)) ∧
       ∀ e, next s = Some e → run_end this m value limit s e).

Lemma skip_test_starts this m c :
  skip_test this m (Some c) = true ↔ ¬ starts this m c.
Proof.
  destruct m; simpl; unfold JS.lt, JS.gt; simpl; rewrite Z.ltb_lt; lia.
Qed.

Lemma skip_test_false_starts this m c :
  skip_test this m (Some c) = false ↔ starts this m c.
Proof.
  destruct m; simpl; unfold JS.lt, JS.gt; simpl; rewrite Z.ltb_ge; lia.
Qed.

Lemma cont_test_continues this m c :
  cont_test this m (Some c) = true ↔ continues this m c.
Proof.
  destruct m; simpl; unfold JS.lt, JS.gt; simpl; rewrite Z.ltb_lt; lia.
Qed.

Lemma detects_runs_intro this m first next value limit fuel :
  (∀ i, 0 ≤ i < limit → is_Some (value i)) →
  (∀ x, limit - x ≤ Z.of_nat fuel → (1 ≤ fuel)%nat → is_Some (first x)) →
  (∀ x, limit - (x + 1) ≤ Z.of_nat fuel → (1 ≤ fuel)%nat → is_Some (next x)) →
  (∀ x s, 0 ≤ x < limit → first x = Some s →
     first_found (λ i, skip_test this m (value i)) limit x s) →
  (∀ s e, -1 ≤ s < limit → next s = Some e →
     next_found (λ i, cont_test this m (value i)) limit s e) →
  (1 ≤ fuel)%nat →
  detects_runs this m first next value limit fuel.
Proof.
  intros Hval Hfirst Hnext Hfs Hns Hfuel x Hx.
  assert (Hskip : ∀ i, 0 ≤ i < limit → skip_test this m (value i) = true →
                  holds (value i) (λ c, ¬ starts this m c)).
  { intros i Hi. destruct (Hval i Hi) as [c ->]. intros ?%skip_test_starts. by exists c. }
  assert (Hstart : ∀ i, 0 ≤ i < limit → skip_test this m (value i) = false →
                   holds (value i) (starts this m)).
  { intros i Hi. destruct (Hval i Hi) as [c ->]. intros ?%skip_test_false_starts. by exists c. }
  assert (Hcont : ∀ i, 0 ≤ i < limit → cont_test this m (value i) = true →
                  holds (value i) (continues this m)).
  { intros i Hi. destruct (Hval i Hi) as [c ->]. intros ?%cont_test_continues. by exists c. }
  assert (Hstop : ∀ i, 0 ≤ i < limit → cont_test this m (value i) = false →
                  holds (value i) (λ c, ¬ continues this m c)).
  { intros i Hi. destruct (Hval i Hi) as [c ->]. intros Hf. exists c. split; [done|].
    intros ?%cont_test_continues. congruence. }
  split; [intros; apply Hfirst; lia|].
  intros s Hs. apply Hfs in Hs; [|done]. split.
  - destruct Hs as [[-> Hall]|(Hsx & Hst & Hall)]; [left|right].
    + split; [done|]. intros i Hi. apply Hskip; [lia|]. by apply Hall.
    + split; [done|]. split; [apply Hstart; [lia|done]|].
      intros i Hi. apply Hskip; [lia|]. by apply Hall.
  - intros Hs0. split; [intros; apply Hnext; lia|].
    intros e He. destruct Hs as [[-> _]|(Hsx & _)]; [lia|].
    apply Hns in He as (? & ? & Hall & Hend); [|lia].
    split; [lia|]. split.
    + intros i Hi. apply Hcont; [lia|]. by apply Hall.
    + intros He. apply Hstop; [lia|]. by apply Hend.
Qed.

(** X5. In each of the four modes, on every row and every column of a
    [width] by [height] buffer, the [getFirstNone...] function returns
    the first index from the scan position at which a run can start
    (key at least the threshold in White and Bright mode, at most the
    threshold in Black and Dark mode), or -1 when the line has none; the
    [getNext...] function returns the last index of the line such that
    every index after the start up to it has a key strictly beyond the
    threshold.  The key is the packed colour in White and Black mode and
    the brightness in Bright and Dark mode.  Both return when the fuel
    covers the line. *)
Theorem run_detection (fuel : nat) (this : PixelSorter) (m : mode)
    (pixels : list Z) (width height : Z) :
  Z.of_nat (length pixels) = width * height →
  (1 ≤ fuel)%nat →
  (∀ row, 0 ≤ row < height →
     detects_runs this m
       (λ x, firstX fuel this pixels m width x row)
       (λ x, nextX fuel this pixels m width x row)
       (λ x, at_xy pixels width x row) width fuel) ∧
  (∀ column, 0 ≤ column < width →
     detects_runs this m
       (λ y, firstY fuel this pixels m width height column y)
       (λ y, nextY fuel this pixels m width height column y)
       (λ y, at_xy pixels width column y) height fuel).
Proof.
  intros Hlen Hfuel. split.
  - intros row Hrow. apply detects_runs_intro; [| | | | |done].
    + intros i Hi. by eapply at_xy_is_Some.
    + intros x ??. by apply firstX_returns.
    + intros x ??. by apply nextX_returns.
    + intros x s Hx. by apply firstX_sound.
    + intros s e Hs. by apply nextX_sound.
  - intros column Hcolumn. apply detects_runs_intro; [| | | | |done].
    + intros i Hi. by eapply at_xy_is_Some.
    + intros y ??. by apply firstY_returns.
    + intros y ??. by apply nextY_returns.
    + intros y s Hy. by apply firstY_sound.
    + intros s e Hs. by apply nextY_sound.
Qed.

Lemma run_detection_witness :
  let pixels := [-16777216; -1; -8355712; -1; -1; -16777216; -1; -1] in
  Z.of_nat (length pixels) = 4 * 2 ∧ (1 ≤ 4)%nat ∧
  (∀ row, 0 ≤ row < 2 →
     detects_runs newPixelSorter Dark
       (λ x, firstX 4 newPixelSorter pixels Dark 4 x row)
       (λ x, nextX 4 newPixelSorter pixels Dark 4 x row)
       (λ x, at_xy pixels 4 x row) 4 4) ∧
  (∀ column, 0 ≤ column < 4 →
     detects_runs newPixelSorter Dark
       (λ y, firstY 4 newPixelSorter pixels Dark 4 2 column y)
       (λ y, nextY 4 newPixelSorter pixels Dark 4 2 column y)
       (λ y, at_xy pixels 4 column y) 2 4).
Proof.
  intros pixels. split; [reflexivity|]. split; [lia|].
  apply (run_detection 4 newPixelSorter Dark pixels 4 2); [reflexivity|lia].
Defined.

(** ** Packed colours, brightness and the two conversions *)

Lemma packed_value r g b :
  is_byte r → is_byte g → is_byte b →
  packRGB (Some r) (Some g) (Some b) = r * 65536 + g * 256 + b - 16777216.
Proof.
  intros Hr Hg Hb. rewrite packRGB_packed by done.
  destruct (packed_sum r g b Hr Hg Hb) as (low & _ & Hlow & _ & ->).
  apply byte_land_ones in Hr, Hg, Hb.
  assert (Hrg : Z.land (Z.shiftl r 16) (Z.shiftl g 8) = 0).
  { rewrite <-Hr, <-Hg. Z.bitblast. }
  assert (Hrgb : Z.land (Z.lor (Z.shiftl r 16) (Z.shiftl g 8)) b = 0).
  { rewrite <-Hr, <-Hg, <-Hb. Z.bitblast. }
  rewrite <-Hlow.
  rewrite <-(Z.lxor_lor _ b) by done. rewrite <-Z.add_nocarry_lxor by done.
  rewrite <-Z.lxor_lor by done. rewrite <-Z.add_nocarry_lxor by done.
  rewrite !Z.shiftl_mul_pow2 by lia. lia.
Qed.

(** X6. The packed colour of the bytes [r], [g], [b] is
    [r * 65536 + g * 256 + b - 16777216], a negative number.  So packed
    colours compare as their (red, green, blue) triples do in
    lexicographic order, which is the order the runs are sorted in, and
    two pixels have the same packed colour only if they have the same
    red, green and blue. *)
Theorem packed_order_lexicographic (r g b r' g' b' : Z) :
  is_byte r → is_byte g → is_byte b → is_byte r' → is_byte g' → is_byte b' →
  let c := packRGB (Some r) (Some g) (Some b) in
  let c' := packRGB (Some r') (Some g') (Some b') in
  c = r * 65536 + g * 256 + b - 16777216 ∧
  (c < c' ↔ r < r' ∨ (r = r' ∧ (g < g' ∨ (g = g' ∧ b < b')))) ∧
  (c = c' ↔ r = r' ∧ g = g' ∧ b = b').
Proof.
  intros Hr Hg Hb Hr' Hg' Hb'. simpl. rewrite !packed_value by done.
  unfold is_byte in *. split; [done|]. split; lia.
Qed.

Lemma packed_order_lexicographic_witness :
  let c := packRGB (Some 10) (Some 200) (Some 0) in
  let c' := packRGB (Some 11) (Some 0) (Some 0) in
  c = 10 * 65536 + 200 * 256 + 0 - 16777216 ∧
  (c < c' ↔ 10 < 11 ∨ (10 = 11 ∧ (200 < 0 ∨ (200 = 0 ∧ 0 < 0)))) ∧
  (c = c' ↔ 10 = 11 ∧ 200 = 0 ∧ 0 = 0).
Proof.
  apply (packed_order_lexicographic 10 200 0 11 0 0); unfold is_byte; lia.
Defined.

Definition gray (v : Z) : Z := packRGB (Some v) (Some v) (Some v).

Lemma gray_levels_checked :
  forallb (λ v, getBrightness (Some (gray v)) =? v) (seqZ 0 256) = true.
Proof. vm_compute. reflexivity. Qed.

(** X7. The brightness of a gray pixel, one whose red, green and blue
    are the same byte [v], is [v]: the rounding of
    [0.299 * v + 0.587 * v + 0.114 * v] in double precision never leaves
    [v].  Black has brightness 0 and white 255. *)
Theorem getBrightness_gray (v : Z) :
  is_byte v → getBrightness (Some (gray v)) = v.
Proof.
  intros Hv. pose proof gray_levels_checked as Hall.
  rewrite forallb_forall in Hall. apply Z.eqb_eq, Hall.
  apply list_elem_of_In, elem_of_seqZ. unfold is_byte in Hv. lia.
Qed.

Lemma getBrightness_gray_witness :
  is_byte 127 ∧ getBrightness (Some (gray 127)) = 127.
Proof.
  assert (H : is_byte 127) by (unfold is_byte; lia).
  split; [exact H|]. exact (getBrightness_gray 127 H).
Defined.

Lemma convertToRGBA_nil originalPixels :
  convertToRGBA [] originalPixels = replicate (length originalPixels) 0.
Proof. done. Qed.

(** X8. The two conversions are inverse to each other on image data:
    packing the bytes of a [w] by [h] image with [convertToRGB] and
    unpacking the result with [convertToRGBA] over the same data gives
    the data back, byte for byte. *)
Theorem convertToRGBA_convertToRGB (pixels : list Z) (w h : nat) :
  length pixels = (w * h * 4)%nat → Forall is_byte pixels →
  convertToRGBA (convertToRGB pixels w h) pixels = pixels.
Proof.
  intros Hlen Hbytes.
  apply data_eq_by_pixels with (w * h)%nat;
    [by rewrite convertToRGBA_length|done|].
  intros i Hi.
  pose proof (convertToRGB_lookup pixels w h i Hi) as Hc.
  destruct (lookup_lt_is_Some_2 pixels (i * 4)) as [r Hr]; [lia|].
  destruct (lookup_lt_is_Some_2 pixels (i * 4 + 1)) as [g Hg]; [lia|].
  destruct (lookup_lt_is_Some_2 pixels (i * 4 + 2)) as [b Hb]; [lia|].
  destruct (lookup_lt_is_Some_2 pixels (i * 4 + 3)) as [a Ha]; [lia|].
  assert (Br : is_byte r) by (by eapply Forall_lookup_1 in Hbytes).
  assert (Bg : is_byte g) by (by eapply Forall_lookup_1 in Hbytes).
  assert (Bb : is_byte b) by (by eapply Forall_lookup_1 in Hbytes).
  assert (Ba : is_byte a) by (by eapply Forall_lookup_1 in Hbytes).
  destruct (convertToRGBA_lookup pixels _ i _ Hc) as (Hor & Hog & Hob & Hoa); [lia|].
  rewrite Hr, Hg, Hb in Hor, Hog, Hob.
  destruct (unpack_packRGB r g b Br Bg Bb) as (_ & Hred & Hgreen & Hblue).
  simpl in Hred, Hgreen, Hblue.
  rewrite Hor, Hog, Hob, Hoa, Hred, Hgreen, Hblue, Hr, Hg, Hb, Ha. simpl.
  by rewrite !clamp8_byte.
Qed.

Lemma convertToRGBA_convertToRGB_witness :
  let pixels := [1; 2; 3; 4;  5; 6; 7; 8;  9; 10; 11; 12;  13; 14; 15; 16] in
  convertToRGBA (convertToRGB pixels 2 2) pixels = pixels.
Proof.
  intros pixels.
  apply (convertToRGBA_convertToRGB pixels 2 2); [reflexivity|].
  repeat (constructor; [unfold is_byte; lia|]). constructor.
Defined.

(** ** The output of [sortImage], as a whole *)

(** The red, green and blue bytes of the first [n] pixels of image data. *)
Definition pixel_colours (d : list Z) (n : nat)
  : list (option Z * option Z * option Z) :=
  (λ i, (d !! (i * 4)%nat, d !! (i * 4 + 1)%nat, d !! (i * 4 + 2)%nat)) <$> seq 0 n.

Definition unpacked (c : Z) : option Z * option Z * option Z :=
  (Some (red c), Some (green c), Some (blue c)).

Lemma pixel_colours_unpacked (d buffer : list Z) (n : nat) :
  length buffer = n →
  (∀ i, (i < n)%nat →
     ∃ c, buffer !! i = Some c ∧
          d !! (i * 4)%nat = Some (red c) ∧
          d !! (i * 4 + 1)%nat = Some (green c) ∧
          d !! (i * 4 + 2)%nat = Some (blue c)) →
  pixel_colours d n = unpacked <$> buffer.
Proof.
  intros Hlen Hpix. apply list_eq. intros i. unfold pixel_colours.
  rewrite !list_lookup_fmap.
  destruct (decide (i < n)%nat) as [Hi|Hi].
  - rewrite lookup_seq_lt by done. simpl.
    destruct (Hpix i Hi) as (c & -> & -> & -> & ->). done.
  - rewrite lookup_seq_ge by lia. by rewrite lookup_ge_None_2 by lia.
Qed.

(** X9. On every well-formed image, in every mode and with any
    thresholds, the pixels of the output carry the colours of the pixels
    of the input, each (red, green, blue) triple as many times as in the
    input: [sortImage] moves colours between pixels, and neither makes
    nor loses one. *)
Theorem sortImage_permutes_colours (fuel : nat) (this : PixelSorter)
    (img : ImageData) (m : mode) (supplied : bool) :
  ImageData_wf img → (width img < fuel)%nat → (height img < fuel)%nat →
  ∃ ex out, sortImage fuel this img m supplied = Some ex ∧
            exec_result ex = Return out ∧
            pixel_colours (data out) (width img * height img)
              ≡ₚ pixel_colours (data img) (width img * height img).
Proof.
  intros Hwf Hw Hh.
  destruct (sortImage_output fuel this img m supplied Hwf Hw Hh)
    as (ex & out & Hex & Hpost & Hres & _ & _ & _ & Hout).
  exists ex, out. split; [done|]. split; [done|].
  rewrite (pixel_colours_unpacked (data out) (work (exec_state ex))).
  - rewrite (pixel_colours_unpacked (data img)
               (convertToRGB (data img) (width img) (height img))).
    + apply fmap_Permutation. rewrite (post_permutation _ _ _ Hpost).
      by rewrite (clamp8_bytes _ (wf_bytes _ Hwf)).
    + apply convertToRGB_length.
    + intros i Hi. by apply convertToRGB_unpack.
  - apply (post_length _ _ _ Hpost).
  - intros i Hi. destruct (Hout i Hi) as (c & Hc & Hr & Hg & Hb & _).
    by exists c.
Qed.

Lemma sortImage_permutes_colours_witness :
  ImageData_wf image_2x2 ∧
  (width image_2x2 < 3)%nat ∧ (height image_2x2 < 3)%nat ∧
  ∃ ex out, sortImage 3 newPixelSorter image_2x2 Black false = Some ex ∧
            exec_result ex = Return out ∧
            pixel_colours (data out) (width image_2x2 * height image_2x2)
              ≡ₚ pixel_colours (data image_2x2) (width image_2x2 * height image_2x2).
Proof.
  split; [exact image_2x2_wf|]. split; [simpl; lia|]. split; [simpl; lia|].
  apply (sortImage_permutes_colours 3 newPixelSorter image_2x2 Black false
           image_2x2_wf); simpl; lia.
Defined.

Lemma Forall_by_pixels (P : Z → Prop) (d : list Z) (n : nat) :
  length d = (n * 4)%nat →
  (∀ i k v, (i < n)%nat → (k < 4)%nat → d !! (i * 4 + k)%nat = Some v → P v) →
  Forall P d.
Proof.
  intros Hlen Hpix. apply Forall_lookup. intros j v Hj.
  pose proof (lookup_lt_Some _ _ _ Hj) as Hlt.
  pose proof (Nat.div_mod_eq j 4) as Hdm.
  pose proof (Nat.mod_upper_bound j 4 ltac:(lia)) as Hk.
  apply (Hpix (j `div` 4)%nat (j `mod` 4)%nat); [lia|done|].
  by replace (j `div` 4 * 4 + j `mod` 4)%nat with j by lia.
Qed.

(** X10. The output of [sortImage] on a well-formed image is a
    well-formed image: same width and height, four bytes per pixel, every
    one of them between 0 and 255.  So the output can be given to
    [sortImage] again. *)
Theorem sortImage_output_wf (fuel : nat) (this : PixelSorter)
    (img : ImageData) (m : mode) (supplied : bool) :
  ImageData_wf img → (width img < fuel)%nat → (height img < fuel)%nat →
  ∃ ex out, sortImage fuel this img m supplied = Some ex ∧
            exec_result ex = Return out ∧
            width out = width img ∧ height out = height img ∧
            ImageData_wf out.
Proof.
  intros Hwf Hw Hh.
  destruct (sortImage_output fuel this img m supplied Hwf Hw Hh)
    as (ex & out & Hex & Hpost & Hres & Hwo & Hho & Hlen & Hout).
  exists ex, out. split; [done|]. split; [done|]. split; [done|]. split; [done|].
  destruct Hwf as [Hw1 Hh1 Hlength Hbytes].
  split; [by rewrite Hwo|by rewrite Hho|by rewrite Hwo, Hho, Hlen|].
  apply Forall_by_pixels with (width img * height img)%nat; [by rewrite Hlen|].
  intros i k v Hi Hk Hv.
  destruct (Hout i Hi) as (c & Hc & Hr & Hg & Hb & Ha).
  assert (Hpacked : is_packed c).
  { assert (Hall : Forall is_packed (work (exec_state ex))).
    { rewrite (post_permutation _ _ _ Hpost).
      apply convertToRGB_packed, clamp8_fmap_bytes. }
    by eapply Forall_lookup_1 in Hall. }
  destruct (unpack_bytes c Hpacked) as (Br & Bg & Bb).
  destruct k as [|[|[|[|k]]]]; [| | | |lia].
  - rewrite Nat.add_0_r in Hv. congruence.
  - congruence.
  - congruence.
  - rewrite Ha in Hv. by eapply Forall_lookup_1 in Hbytes.
Qed.

Lemma sortImage_output_wf_witness :
  ImageData_wf image_2x2 ∧
  (width image_2x2 < 3)%nat ∧ (height image_2x2 < 3)%nat ∧
  ∃ ex out, sortImage 3 newPixelSorter image_2x2 Bright true = Some ex ∧
            exec_result ex = Return out ∧
            width out = width image_2x2 ∧ height out = height image_2x2 ∧
            ImageData_wf out.
Proof.
  split; [exact image_2x2_wf|]. split; [simpl; lia|]. split; [simpl; lia|].
  apply (sortImage_output_wf 3 newPixelSorter image_2x2 Bright true image_2x2_wf);
    simpl; lia.
Defined.

(** When the working buffer ends as it started, the output is the input. *)
Lemma sortImage_same_buffer fuel this img m supplied ex :
  ImageData_wf img → (width img < fuel)%nat → (height img < fuel)%nat →
  sortImage fuel this img m supplied = Some ex →
  work (exec_state ex) = convertToRGB (data img) (width img) (height img) →
  exec_result ex = Return img.
Proof.
  intros Hwf Hw Hh Hex Hwork.
  destruct (sortImage_output fuel this img m supplied Hwf Hw Hh)
    as (ex' & out & Hex' & Hpost & Hres & Hwo & Hho & Hlen & Hout).
  assert (ex' = ex) as -> by congruence.
  rewrite Hres. f_equal.
  assert (Hdata : data out = data img).
  { apply data_eq_by_pixels with (width img * height img)%nat;
      [by rewrite Hlen, (wf_length _ Hwf)|by rewrite (wf_length _ Hwf)|].
    intros i Hi. destruct (Hout i Hi) as (c & Hc & Hr & Hg & Hb & Ha).
    destruct (convertToRGB_unpack img i Hwf Hi) as (c' & Hc' & Hr' & Hg' & Hb').
    rewrite Hwork in Hc. assert (c = c') as -> by congruence.
    by rewrite Hr, Hg, Hb, Ha, Hr', Hg', Hb'. }
  destruct out as [wo ho dout], img as [wi hi di]. simpl in *. by subst.
Qed.

(** X11. An image of a single row or of a single column comes back
    unchanged, in every mode and with any thresholds: the loop over the
    columns leaves out the last column, the loop over the rows the last
    row, and a line of one pixel is not scanned. *)
Theorem single_line_unchanged (fuel : nat) (this : PixelSorter)
    (img : ImageData) (m : mode) (supplied : bool) :
  ImageData_wf img → (width img = 1 ∨ height img = 1)%nat →
  (width img < fuel)%nat → (height img < fuel)%nat →
  ∃ ex, sortImage fuel this img m supplied = Some ex ∧
        exec_result ex = Return img.
Proof.
  intros Hwf Hone Hw Hh.
  destruct (sortImage_post fuel this img m supplied Hw Hh) as (ex & Hex & Hpost).
  exists ex. split; [done|].
  apply (sortImage_same_buffer fuel this img m supplied); [done..|].
  rewrite <-(clamp8_bytes _ (wf_bytes _ Hwf)) at 1.
  apply read_ext.
  - by rewrite (post_length _ _ _ Hpost), convertToRGB_length.
  - intros j. apply (post_frame _ _ _ Hpost).
    intros (x & y & Hx & Hy & _). lia.
Qed.

Definition image_1x3 : ImageData :=
  {| width := 1; height := 3;
     data := [250; 250; 250; 255;  10; 20; 30; 255;  200; 100; 0; 255] |}.

Lemma image_1x3_wf : ImageData_wf image_1x3.
Proof.
  split; simpl; [lia|lia|done|].
  repeat (constructor; [unfold is_byte; lia|]). constructor.
Defined.

Lemma single_line_unchanged_witness :
  ImageData_wf image_1x3 ∧ (width image_1x3 = 1 ∨ height image_1x3 = 1)%nat ∧
  (width image_1x3 < 4)%nat ∧ (height image_1x3 < 4)%nat ∧
  ∃ ex, sortImage 4 newPixelSorter image_1x3 White false = Some ex ∧
        exec_result ex = Return image_1x3.
Proof.
  split; [exact image_1x3_wf|]. split; [by left|].
  split; [simpl; lia|]. split; [simpl; lia|].
  apply (single_line_unchanged 4 newPixelSorter image_1x3 White false image_1x3_wf);
    [by left|simpl; lia|simpl; lia].
Defined.

(** ** Images in which no run can start *)

Lemma pixels_in_runs_chain x limit found :
  runs_chain x limit found → 0 ≤ pixels_in_runs found.
Proof.
  revert x. induction found as [|r found IH]; intros x; simpl; [done|].
  intros (? & ? & ? & Hrest). specialize (IH _ Hrest). lia.
Qed.

Lemma runs_chain_none x limit found :
  runs_chain x limit found → pixels_in_runs found = 0 → found = [].
Proof.
  destruct found as [|r found]; [done|]. simpl.
  intros (? & ? & ? & Hrest%pixels_in_runs_chain). lia.
Qed.

(** A scan of a line whose entries are all skipped finds no run and
    leaves the buffer as it is. *)
Lemma scanline_all_skipped index limit skipv pixels result :
  scanline_post index limit skipv pixels result →
  scanline_runs index limit skipv pixels result →
  (∀ i, 0 ≤ i < limit → skipv (JS.read pixels (index i)) = true) →
  result = (pixels, []).
Proof.
  intros [(Hlen & _) Hcount] (Hchain & _ & _ & Hrest) Hall.
  assert (Hnone : result.2 = []).
  { apply (runs_chain_none 0 limit); [done|]. rewrite Hcount.
    unfold scanned_kept, line_kept. case_match; [|done].
    by apply count_kept_none. }
  destruct result as [pixels' found]. simpl in *. subst found. f_equal.
  apply read_ext; [done|]. intros j. apply Hrest.
  intros i (r & Hr & _). by apply elem_of_nil in Hr.
Qed.

Section phase_all_skipped.
Context (sortLine : list Z → Z → option (list Z * list run)).
Context (percent : Z → Q) (label : string) (supplied : bool).
Context (index : Z → Z → Z) (limit : Z) (skipv : option Z → bool).
Context (valid : Z → Prop) (len : nat).
Hypothesis sortLine_post : ∀ pixels line,
  length pixels = len → valid line →
  ∃ result, sortLine pixels line = Some result ∧
            scanline_post (index line) limit skipv pixels result.
Hypothesis sortLine_runs : ∀ pixels line result,
  length pixels = len → valid line →
  sortLine pixels line = Some result →
  scanline_runs (index line) limit skipv pixels result.
Hypothesis index_range : ∀ line i,
  valid line → 0 ≤ i < limit → 0 ≤ index line i < Z.of_nat len.

Lemma phase_all_skipped lines st :
  length (work st) = len → Forall valid lines →
  (∀ c, c ∈ work st → skipv (Some c) = true) →
  ∃ st', phase sortLine percent label supplied lines st = Some st' ∧
         work st' = work st ∧ runs st' = runs st.
Proof.
  revert st. induction lines as [|line lines IH]; intros st Hlen Hvalid Hall.
  - by exists st.
  - apply Forall_cons in Hvalid as [Hline Hvalid].
    destruct (sortLine_post (work st) line Hlen Hline) as (result & Hsort & Hpost).
    pose proof (sortLine_runs _ _ _ Hlen Hline Hsort) as Hruns.
    assert (result = (work st, [])) as ->.
    { apply (scanline_all_skipped _ _ _ _ _ Hpost Hruns). intros i Hi.
      destruct (read_is_Some (work st) (index line i)) as [c Hc].
      { rewrite Hlen. by apply index_range. }
      rewrite Hc. apply Hall.
      unfold JS.read in Hc. case_match; [done|]. by eapply list_elem_of_lookup_2. }
    simpl. rewrite Hsort. simpl.
    set (st1 := report _ _ _ _ _).
    assert (Hwork1 : work st1 = work st) by (unfold st1; by rewrite report_work).
    assert (Hruns1 : runs st1 = runs st).
    { unfold st1. rewrite report_runs. simpl. apply app_nil_r. }
    destruct (IH st1) as (st' & Hphase & Hw' & Hr'); [by rewrite Hwork1|done| |].
    { by rewrite Hwork1. }
    exists st'. split; [done|]. split; congruence.
Qed.
End phase_all_skipped.

(** When the first test skips every pixel of the image, no run is found
    and the output is the input. *)
Lemma sortImage_all_skipped fuel this img m supplied :
  ImageData_wf img → (width img < fuel)%nat → (height img < fuel)%nat →
  (∀ c, c ∈ convertToRGB (data img) (width img) (height img) →
        skip_test this m (Some c) = true) →
  ∃ ex, sortImage fuel this img m supplied = Some ex ∧
        runs (exec_state ex) = [] ∧
        exec_result ex = Return img.
Proof.
  intros Hwf Hw Hh Hall.
  set (w := Z.of_nat (width img)). set (h := Z.of_nat (height img)).
  set (work0 := convertToRGB (data img) (width img) (height img)).
  assert (Hlen0 : length work0 = (width img * height img)%nat)
    by apply convertToRGB_length.
  assert (Hcols : ∀ st, work st = work0 →
            ∃ st', sortColumns (seqZ 0 (w - 1)) fuel this w h m supplied st = Some st' ∧
                   work st' = work st ∧ runs st' = runs st).
  { intros st Hst. rewrite sortColumns_phase.
    apply (phase_all_skipped _ _ _ _ (λ column y, column + y * w) h
             (skip_test this m) (λ column, 0 ≤ column < w) (length work0)).
    - intros pixels column Hpx Hcolumn. apply sortColumn_post; [|done|lia].
      rewrite Hpx, Hlen0. lia.
    - intros pixels column result Hpx Hcolumn. apply sortColumn_scanline_runs; [|done].
      rewrite Hpx, Hlen0. lia.
    - intros column y Hcolumn Hy. rewrite Hlen0.
      replace (Z.of_nat (width img * height img)) with (w * h) by lia.
      by apply index_in_range.
    - by rewrite Hst.
    - apply Forall_forall. intros c Hc%elem_of_seqZ. lia.
    - by rewrite Hst. }
  assert (Hrows : ∀ st, work st = work0 →
            ∃ st', sortRows (seqZ 0 (h - 1)) fuel this w h m supplied st = Some st' ∧
                   work st' = work st ∧ runs st' = runs st).
  { intros st Hst. rewrite sortRows_phase.
    apply (phase_all_skipped _ _ _ _ (λ row x, x + row * w) w
             (skip_test this m) (λ row, 0 ≤ row < h) (length work0)).
    - intros pixels row Hpx Hrow. apply sortRow_post; [|done|lia].
      rewrite Hpx, Hlen0. lia.
    - intros pixels row result Hpx Hrow. apply sortRow_scanline_runs; [|done].
      rewrite Hpx, Hlen0. lia.
    - intros row x Hrow Hx. rewrite Hlen0.
      replace (Z.of_nat (width img * height img)) with (w * h) by lia.
      by apply index_in_range.
    - by rewrite Hst.
    - apply Forall_forall. intros c Hc%elem_of_seqZ. lia.
    - by rewrite Hst. }
  destruct (sortImage_post fuel this img m supplied Hw Hh) as (ex & Hex & _).
  exists ex. split; [done|].
  assert (Hend : work (exec_state ex) = work0 ∧ runs (exec_state ex) = []);
    [|destruct Hend as [Hend ->]; split; [done|];
      by apply (sortImage_same_buffer fuel this img m supplied)].
  pose proof Hex as Hex'. unfold sortImage in Hex'.
  rewrite (clamp8_bytes _ (wf_bytes _ Hwf)) in Hex'. fold w h work0 in Hex'.
  destruct (Hcols (report supplied true 0%Q "Sorting columns..."
                     {| work := work0; runs := []; calls := [] |}))
    as (st1 & Hst1 & Hw1 & Hr1); [by rewrite report_work|].
  rewrite Hst1 in Hex'. simpl in Hex'.
  rewrite report_work in Hw1. rewrite report_runs in Hr1. simpl in Hw1, Hr1.
  destruct (Hrows (report supplied true 50%Q "Sorting rows..." st1))
    as (st2 & Hst2 & Hw2 & Hr2); [by rewrite report_work|].
  rewrite Hst2 in Hex'. simpl in Hex'.
  rewrite report_work in Hw2. rewrite report_runs in Hr2.
  injection Hex' as <-. simpl. rewrite report_work, report_runs.
  split; congruence.
Qed.

(** X12. If no pixel of a well-formed image can start a run in the
    chosen mode (each fails the mode's start test), [sortImage] finds no
    run at all and returns the image unchanged. *)
Theorem no_start_unchanged (fuel : nat) (this : PixelSorter)
    (img : ImageData) (m : mode) (supplied : bool) :
  ImageData_wf img → (width img < fuel)%nat → (height img < fuel)%nat →
  (∀ c, c ∈ convertToRGB (data img) (width img) (height img) →
        ¬ starts this m c) →
  ∃ ex, sortImage fuel this img m supplied = Some ex ∧
        runs (exec_state ex) = [] ∧
        exec_result ex = Return img.
Proof.
  intros Hwf Hw Hh Hall. apply sortImage_all_skipped; [done..|].
  intros c Hc. apply skip_test_starts. by apply Hall.
Qed.

Lemma no_start_unchanged_witness :
  ImageData_wf image_2x2 ∧
  (width image_2x2 < 3)%nat ∧ (height image_2x2 < 3)%nat ∧
  ∃ ex, sortImage 3 newPixelSorter image_2x2 White false = Some ex ∧
        runs (exec_state ex) = [] ∧
        exec_result ex = Return image_2x2.
Proof.
  split; [exact image_2x2_wf|]. split; [simpl; lia|]. split; [simpl; lia|].
  apply (no_start_unchanged 3 newPixelSorter image_2x2 White false image_2x2_wf);
    [simpl; lia|simpl; lia|].
  intros c Hc. vm_compute in Hc.
  repeat (apply elem_of_cons in Hc as [->|Hc]; [simpl; lia|]).
  by apply elem_of_nil in Hc.
Defined.

(** X13. A White threshold of 0 or more, or a Black threshold below
    -16777216, switches the effect off: every packed colour lies between
    -16777216 and -1, so no pixel can start a run, and [sortImage]
    returns every well-formed image unchanged. *)
Theorem threshold_out_of_range_unchanged (fuel : nat) (this : PixelSorter)
    (img : ImageData) (m : mode) (supplied : bool) :
  ImageData_wf img → (width img < fuel)%nat → (height img < fuel)%nat →
  (m = White ∧ 0 ≤ whiteValue this) ∨ (m = Black ∧ blackValue this < -16777216) →
  ∃ ex, sortImage fuel this img m supplied = Some ex ∧
        runs (exec_state ex) = [] ∧
        exec_result ex = Return img.
Proof.
  intros Hwf Hw Hh Hm. apply sortImage_all_skipped; [done..|].
  intros c Hc.
  assert (Hpacked : is_packed c).
  { pose proof (convertToRGB_packed (data img) (width img) (height img)
                  (wf_bytes _ Hwf)) as Hall.
    rewrite Forall_forall in Hall. by apply Hall. }
  unfold is_packed in Hpacked.
  destruct Hm as [[-> Hv]|[-> Hv]]; simpl; apply Z.ltb_lt; lia.
Qed.

Lemma threshold_out_of_range_unchanged_witness :
  let this := setThresholds 0 (-3456789) 127 223 in
  ImageData_wf image_2x2 ∧
  (width image_2x2 < 3)%nat ∧ (height image_2x2 < 3)%nat ∧
  ∃ ex, sortImage 3 this image_2x2 White false = Some ex ∧
        runs (exec_state ex) = [] ∧
        exec_result ex = Return image_2x2.
Proof.
  intros this.
  split; [exact image_2x2_wf|]. split; [simpl; lia|]. split; [simpl; lia|].
  apply (threshold_out_of_range_unchanged 3 this image_2x2 White false image_2x2_wf);
    [simpl; lia|simpl; lia|].
  left. split; [reflexivity|simpl; lia].
Defined.

(** ** What a call depends on *)

Section own_threshold.
Context (fuel : nat) (this this' : PixelSorter) (m : mode).
Hypothesis same_threshold : mode_threshold this m = mode_threshold this' m.

Lemma firstX_threshold pixels width x row :
  firstX fuel this pixels m width x row = firstX fuel this' pixels m width x row.
Proof.
  destruct m; simpl in *;
    unfold getFirstNoneWhiteX, getFirstNoneBlackX, getFirstNoneBrightX,
      getFirstNoneDarkX; by rewrite same_threshold.
Qed.

Lemma nextX_threshold pixels width x row :
  nextX fuel this pixels m width x row = nextX fuel this' pixels m width x row.
Proof.
  destruct m; simpl in *;
    unfold getNextWhiteX, getNextBlackX, getNextBrightX, getNextDarkX;
    by rewrite same_threshold.
Qed.

Lemma firstY_threshold pixels width height column y :
  firstY fuel this pixels m width height column y
  = firstY fuel this' pixels m width height column y.
Proof.
  destruct m; simpl in *;
    unfold getFirstNoneWhiteY, getFirstNoneBlackY, getFirstNoneBrightY,
      getFirstNoneDarkY; by rewrite same_threshold.
Qed.

Lemma nextY_threshold pixels width height column y :
  nextY fuel this pixels m width height column y
  = nextY fuel this' pixels m width height column y.
Proof.
  destruct m; simpl in *;
    unfold getNextWhiteY, getNextBlackY, getNextBrightY, getNextDarkY;
    by rewrite same_threshold.
Qed.

Lemma sortRow_loop_threshold n pixels width height row x xEnd :
  sortRow_loop n fuel this pixels width height row m x xEnd
  = sortRow_loop n fuel this' pixels width height row m x xEnd.
Proof.
  revert pixels x xEnd. induction n as [|n IH]; intros pixels x xEnd; [done|].
  simpl. destruct (xEnd <? width - 1); [|done].
  rewrite firstX_threshold.
  destruct (firstX fuel this' pixels m width x row) as [s|]; simpl; [|done].
  rewrite nextX_threshold.
  destruct (nextX fuel this' pixels m width s row) as [e|]; simpl; [|done].
  destruct (s <? 0); [done|]. by rewrite IH.
Qed.

Lemma sortColumn_loop_threshold n pixels width height column y yEnd :
  sortColumn_loop n fuel this pixels width height column m y yEnd
  = sortColumn_loop n fuel this' pixels width height column m y yEnd.
Proof.
  revert pixels y yEnd. induction n as [|n IH]; intros pixels y yEnd; [done|].
  simpl. destruct (yEnd <? height - 1); [|done].
  rewrite firstY_threshold.
  destruct (firstY fuel this' pixels m width height column y) as [s|]; simpl; [|done].
  rewrite nextY_threshold.
  destruct (nextY fuel this' pixels m width height column s) as [e|]; simpl; [|done].
  destruct (s <? 0); [done|]. by rewrite IH.
Qed.

Lemma sortColumns_threshold columns width height supplied st :
  sortColumns columns fuel this width height m supplied st
  = sortColumns columns fuel this' width height m supplied st.
Proof.
  revert st. induction columns as [|column columns IH]; intros st; [done|].
  simpl. unfold sortColumn. rewrite sortColumn_loop_threshold.
  destruct (sortColumn_loop fuel fuel this' (work st) width height column m 0 0)
    as [[pixels found]|]; simpl; [|done].
  apply IH.
Qed.

Lemma sortRows_threshold rows width height supplied st :
  sortRows rows fuel this width height m supplied st
  = sortRows rows fuel this' width height m supplied st.
Proof.
  revert st. induction rows as [|row rows IH]; intros st; [done|].
  simpl. unfold sortRow. rewrite sortRow_loop_threshold.
  destruct (sortRow_loop fuel fuel this' (work st) width height row m 0 0)
    as [[pixels found]|]; simpl; [|done].
  apply IH.
Qed.
End own_threshold.

(** X14. A call of [sortImage] depends on one threshold only, the one of
    its mode: two sorters that agree on it give the same result, the same
    runs and the same progress calls on every image, whatever their
    other three thresholds. *)
Theorem own_threshold_only (fuel : nat) (this this' : PixelSorter)
    (img : ImageData) (m : mode) (supplied : bool) :
  mode_threshold this m = mode_threshold this' m →
  sortImage fuel this img m supplied = sortImage fuel this' img m supplied.
Proof.
  intros Hsame. unfold sortImage.
  rewrite (sortColumns_threshold fuel this this' m Hsame).
  destruct (sortColumns _ fuel this' _ _ m supplied _) as [st1|]; simpl; [|done].
  by rewrite (sortRows_threshold fuel this this' m Hsame).
Qed.

Lemma own_threshold_only_witness :
  sortImage 4 newPixelSorter image_3x2 Bright true
  = sortImage 4 (setThresholds 0 0 127 0) image_3x2 Bright true.
Proof.
  apply (own_threshold_only 4 newPixelSorter (setThresholds 0 0 127 0)
           image_3x2 Bright true).
  reflexivity.
Defined.

(** What a call leaves apart from the progress calls: the working
    buffer, the runs and the result. *)
Definition outcome (ex : execution) : list Z * list run * completion :=
  (work (exec_state ex), runs (exec_state ex), exec_result ex).

(** Two runs of a phase that differ in the progress calls only. *)
Definition same_work (o o' : option state) : Prop :=
  match o, o' with
  | Some st, Some st' => work st = work st' ∧ runs st = runs st'
  | None, None => True
  | _, _ => False
  end.

Lemma sortColumns_supplied columns fuel this width height m supplied supplied' st st' :
  work st = work st' → runs st = runs st' →
  same_work (sortColumns columns fuel this width height m supplied st)
            (sortColumns columns fuel this width height m supplied' st').
Proof.
  revert st st'. induction columns as [|column columns IH]; intros st st' Hw Hr; [done|].
  simpl. rewrite <-Hw.
  destruct (sortColumn fuel this (work st) width height column m)
    as [[pixels found]|]; simpl; [|done].
  apply IH; rewrite ?report_work, ?report_runs; simpl; congruence.
Qed.

Lemma sortRows_supplied rows fuel this width height m supplied supplied' st st' :
  work st = work st' → runs st = runs st' →
  same_work (sortRows rows fuel this width height m supplied st)
            (sortRows rows fuel this width height m supplied' st').
Proof.
  revert st st'. induction rows as [|row rows IH]; intros st st' Hw Hr; [done|].
  simpl. rewrite <-Hw.
  destruct (sortRow fuel this (work st) width height row m)
    as [[pixels found]|]; simpl; [|done].
  apply IH; rewrite ?report_work, ?report_runs; simpl; congruence.
Qed.

Lemma sortColumns_silent columns fuel this width height m st st' :
  sortColumns columns fuel this width height m false st = Some st' →
  calls st' = calls st.
Proof.
  revert st. induction columns as [|column columns IH]; intros st; simpl.
  - by intros [= <-].
  - destruct (sortColumn fuel this (work st) width height column m)
      as [[pixels found]|]; simpl; [|done].
    intros Hrest%IH. by rewrite Hrest.
Qed.

Lemma sortRows_silent rows fuel this width height m st st' :
  sortRows rows fuel this width height m false st = Some st' →
  calls st' = calls st.
Proof.
  revert st. induction rows as [|row rows IH]; intros st; simpl.
  - by intros [= <-].
  - destruct (sortRow fuel this (work st) width height row m)
      as [[pixels found]|]; simpl; [|done].
    intros Hrest%IH. by rewrite Hrest.
Qed.

(** X15. Passing a progress callback changes nothing but the calls made
    to it: with and without one, [sortImage] returns or not alike, with
    the same working buffer, the same runs and the same result; and
    without one it makes no call. *)
Theorem callback_irrelevant (fuel : nat) (this : PixelSorter) (img : ImageData)
    (m : mode) :
  outcome <$> sortImage fuel this img m true
  = outcome <$> sortImage fuel this img m false ∧
  ∀ ex, sortImage fuel this img m false = Some ex → calls (exec_state ex) = [].
Proof.
  split.
  - unfold sortImage.
    set (st0 := {| work := _; runs := []; calls := [] |}).
    pose proof (sortColumns_supplied (seqZ 0 (Z.of_nat (width img) - 1)) fuel this
                  (Z.of_nat (width img)) (Z.of_nat (height img)) m true false
                  (report true true 0%Q "Sorting columns..." st0)
                  (report false true 0%Q "Sorting columns..." st0)
                  eq_refl eq_refl) as Hcols.
    destruct (sortColumns _ fuel this _ _ m true _) as [st1|],
             (sortColumns _ fuel this _ _ m false _) as [st1'|];
      simpl in *; try done.
    destruct Hcols as [Hw1 Hr1].
    pose proof (sortRows_supplied (seqZ 0 (Z.of_nat (height img) - 1)) fuel this
                  (Z.of_nat (width img)) (Z.of_nat (height img)) m true false
                  (report true true 50%Q "Sorting rows..." st1)
                  (report false true 50%Q "Sorting rows..." st1')
                  Hw1 Hr1) as Hrows.
    destruct (sortRows _ fuel this _ _ m true _) as [st2|],
             (sortRows _ fuel this _ _ m false _) as [st2'|];
      simpl in *; try done.
    destruct Hrows as [Hw2 Hr2]. unfold outcome. simpl. by rewrite Hw2, Hr2.
  - intros ex. unfold sortImage.
    destruct (sortColumns _ fuel this _ _ m false _) as [st1|] eqn:Hcols;
      simpl; [|done].
    destruct (sortRows _ fuel this _ _ m false _) as [st2|] eqn:Hrows;
      simpl; [|done].
    intros [= <-]. simpl.
    apply sortRows_silent in Hrows. apply sortColumns_silent in Hcols.
    unfold report in *. simpl in *. congruence.
Qed.

(** ** Thresholds and the pixels in runs, in every mode *)

(** [this'] asks at least as much of a pixel as [this] does in mode [m]:
    a higher threshold in White and Bright mode, a lower one in Black and
    Dark mode. *)
Definition stricter (this this' : PixelSorter) (m : mode) : Prop :=
  match m with
  | White | Bright => mode_threshold this m ≤ mode_threshold this' m
  | Black | Dark => mode_threshold this' m ≤ mode_threshold this m
  end.

(** X16. In every mode, making the mode's threshold stricter (higher in
    White and Bright mode, lower in Black and Dark mode) does not raise
    the number of pixels the runs of a call of [sortImage] cover on a
    given image. *)
Theorem threshold_monotone (fuel : nat) (this this' : PixelSorter)
    (img : ImageData) (m : mode) (supplied : bool) :
  stricter this this' m →
  (width img < fuel)%nat → (height img < fuel)%nat →
  ∃ ex ex', sortImage fuel this img m supplied = Some ex ∧
            sortImage fuel this' img m supplied = Some ex' ∧
            pixels_in_runs (runs (exec_state ex'))
              ≤ pixels_in_runs (runs (exec_state ex)).
Proof.
  intros Hv Hw Hh.
  destruct (sortImage_pixels_in_runs fuel this img m supplied Hw Hh)
    as (ex & Hex & Hruns).
  destruct (sortImage_pixels_in_runs fuel this' img m supplied Hw Hh)
    as (ex' & Hex' & Hruns').
  exists ex, ex'. split; [done|]. split; [done|].
  rewrite Hruns, Hruns'.
  assert (Himp : ∀ v, skip_test this' m v = false → skip_test this m v = false).
  { intros v. unfold skip_test, JS.lt, JS.gt.
    destruct m; simpl in Hv; try (destruct v as [c|]; [|done]);
      intros ?%Z.ltb_ge; apply Z.ltb_ge; lia. }
  unfold columns_kept, rows_kept.
  apply Z.add_le_mono; by apply phase_kept_le.
Qed.

Lemma threshold_monotone_witness :
  stricter newPixelSorter (setThresholds (-12345678) (-3456789) 127 100) Dark ∧
  (width image_3x2 < 4)%nat ∧ (height image_3x2 < 4)%nat ∧
  ∃ ex ex',
    sortImage 4 newPixelSorter image_3x2 Dark false = Some ex ∧
    sortImage 4 (setThresholds (-12345678) (-3456789) 127 100) image_3x2 Dark false
      = Some ex' ∧
    pixels_in_runs (runs (exec_state ex')) ≤ pixels_in_runs (runs (exec_state ex)).
Proof.
  split; [simpl; lia|]. split; [simpl; lia|]. split; [simpl; lia|].
  apply (threshold_monotone 4 newPixelSorter
           (setThresholds (-12345678) (-3456789) 127 100) image_3x2 Dark false);
    simpl; lia.
Defined.

(** * The React Native image processor

    The second source file holds the class [ImageProcessor] and a copy of
    the class [PixelSorter].  The copy has the fields, the constructor,
    [convertToRGB], [convertToRGBA], [sortRow], [sortColumn],
    [getBrightness] and the sixteen threshold functions of the first,
    statement for statement, so their embedding above serves for both; it
    has no [setThresholds], and its [sortImage] is another: it takes the
    thresholds as an argument and stores them in the sorter, makes no
    last call to the callback, and returns a plain object. *)

Module ImageProcessor.

(** The [thresholds] argument: an object whose properties [white],
    [black], [bright] and [dark] may be missing, [None] here. *)
Record thresholds := {
  white : option Z;
  black : option Z;
  bright : option Z;
  dark : option Z
}.

(** [thresholds = {}], the default of the argument. *)
Definition no_thresholds : thresholds :=
  {| white := None; black := None; bright := None; dark := None |}.

(** [given || current]: [given] when it is truthy, which a missing
    property and the number 0 are not. *)
Definition or_current (given : option Z) (current : Z) : Z :=
  match given with
  | Some v => if v =? 0 then current else v
  | None => current
  end.

(** The four assignments under [// Update thresholds]. *)
Definition updateThresholds (this : PixelSorter) (t : thresholds) : PixelSorter :=
  {| whiteValue := or_current (white t) (whiteValue this);
     blackValue := or_current (black t) (blackValue this);
     brightValue := or_current (bright t) (brightValue this);
     darkValue := or_current (dark t) (darkValue this) |}.

(** [sortImage] of the copy.  It returns the sorter as the call leaves
    it, the state of the run, and the object
    [{ data: finalData, width, height }]. *)
Definition sortImage (fuel : nat) (this : PixelSorter) (pixelData : ImageData)
    (m : mode) (t : thresholds) (supplied : bool)
  : option (PixelSorter * state * ImageData) :=
  let w := width pixelData in
  let h := height pixelData in
  let sortedData := JS.clamp8 <$> data pixelData in
  let this := updateThresholds this t in
  let rgbPixels := convertToRGB sortedData w h in
  let st := {| work := rgbPixels; runs := []; calls := [] |} in
  let st := report supplied true 0%Q "Sorting columns..." st in
  st ← sortColumns (seqZ 0 (Z.of_nat w - 1)) fuel this (Z.of_nat w) (Z.of_nat h)
         m supplied st;
  let st := report supplied true 50%Q "Sorting rows..." st in
  st ← sortRows (seqZ 0 (Z.of_nat h - 1)) fuel this (Z.of_nat w) (Z.of_nat h)
         m supplied st;
  let finalData := convertToRGBA (work st) sortedData in
  Some (this, st, {| width := w; height := h; data := finalData |}).

(** The value a [Uint8ClampedArray] stores for a number that may be NaN,
    [None] here: 0 for NaN. *)
Definition store8 (v : option Z) : Z := JS.clamp8 (JS.int_of v).

(** The body of the loop of [base64ToPixelData] for pixel [i].  The
    string is the list of its code units; [charCodeAt] gives NaN on the
    empty string, and [%] and [*] keep NaN. *)
Definition base64ToPixelData_body (base64 : list Z) (pixels : list Z) (i : nat)
  : list Z :=
  let baseValue := base64 !! (i `mod` length base64)%nat in
  let pixels := <[(i * 4)%nat := store8 ((λ v, Z.rem v 256) <$> baseValue)]> pixels in
  let pixels :=
    <[(i * 4 + 1)%nat := store8 ((λ v, Z.rem (v * 2) 256) <$> baseValue)]> pixels in
  let pixels :=
    <[(i * 4 + 2)%nat := store8 ((λ v, Z.rem (v * 3) 256) <$> baseValue)]> pixels in
  <[(i * 4 + 3)%nat := 255]> pixels.

Definition base64ToPixelData (base64 : list Z) (width height : nat) : ImageData :=
  let pixelCount := (width * height)%nat in
  let pixels := replicate (pixelCount * 4) 0 in
  {| width := width; height := height;
     data := foldl (base64ToPixelData_body base64) pixels (seq 0 pixelCount) |}.

(** [pixelDataToBase64]: whatever it is given, the same string. *)
Definition pixelDataToBase64 (pixelData : ImageData) (width height : nat) : string :=
  "iVBORw0KGgoAAAANSUhEUgAAAAEAAAABCAYAAAAfFcSJAAAADUlEQVR42mNk+M9QDwADhgGAWjR9awAAAABJRU5ErkJggg==".

(** [if (progressCallback) progressCallback(percent, label)] of
    [processImage], on the log of the calls made so far. *)
Definition notify (supplied : bool) (percent : Q) (label : string)
    (log : list (Q * string)) : list (Q * string) :=
  if supplied then log ++ [(percent, label)] else log.

(** The callback [processImage] gives to [sortImage]:
    [(progress, text) => { if (progressCallback)
    progressCallback(30 + (progress * 0.6), text); }], applied to the
    calls [sortImage] makes, in their order. *)
Definition forward (supplied : bool) (inner : list (Q * string))
    (log : list (Q * string)) : list (Q * string) :=
  foldl (λ log call, notify supplied (30 + call.1 * (6 # 10))%Q call.2 log) log inner.

(** The pixel data [processImage] makes from the string and has sorted.
    [sortImage] is always given a callback here. *)
Definition sortedPixelData (fuel : nat) (this : PixelSorter) (base64 : list Z)
    (width height : nat) (m : mode) (t : thresholds)
  : option (PixelSorter * state * ImageData) :=
  let pixelData := base64ToPixelData base64 width height in
  sortImage fuel this pixelData m t true.

(** [processImage], from the answer of the image library on: [base64],
    [width] and [height] are the fields of [imageInfo].  The library and
    the file system are taken not to fail, so that the [catch] is not
    entered.  The result holds the sorter [this.pixelSorter] as the call
    leaves it, the calls made to [progressCallback], and the string
    written to the file. *)
Definition processImage (fuel : nat) (this : PixelSorter) (base64 : list Z)
    (width height : nat) (m : mode) (t : thresholds) (supplied : bool)
  : option (PixelSorter * list (Q * string) * string) :=
  let log := notify supplied 10%Q "Loading image..." [] in
  let log := notify supplied 20%Q "Converting to pixel data..." log in
  let pixelData := base64ToPixelData base64 width height in
  let log := notify supplied 30%Q "Starting pixel sort..." log in
  '(this, st, sortedPixelData) ← sortImage fuel this pixelData m t true;
  let log := forward supplied (calls st) log in
  let log := notify supplied 90%Q "Creating final image..." log in
  let processedBase64 := pixelDataToBase64 sortedPixelData width height in
  let log := notify supplied 100%Q "Complete!" log in
  Some (this, log, processedBase64).

End ImageProcessor.

(** ** The copy of [sortImage] *)

Lemma or_current_idemp given current :
  ImageProcessor.or_current given (ImageProcessor.or_current given current)
  = ImageProcessor.or_current given current.
Proof. unfold ImageProcessor.or_current. destruct given as [v|]; [|done]. by case_match. Qed.

Lemma updateThresholds_idemp this t :
  ImageProcessor.updateThresholds (ImageProcessor.updateThresholds this t) t
  = ImageProcessor.updateThresholds this t.
Proof. unfold ImageProcessor.updateThresholds. simpl. by rewrite !or_current_idemp. Qed.

Lemma updateThresholds_none this :
  ImageProcessor.updateThresholds this ImageProcessor.no_thresholds = this.
Proof. by destruct this. Qed.

(** The copy and the original run the same two phases. *)
Lemma sortImage_copy fuel this pixelData m t supplied :
  let this' := ImageProcessor.updateThresholds this t in
  match ImageProcessor.sortImage fuel this pixelData m t supplied,
        sortImage fuel this' pixelData m supplied with
  | Some (sorter, st, out), Some ex =>
      sorter = this' ∧
      exec_state ex = report supplied true 100%Q "Complete!" st ∧
      width out = width pixelData ∧ height out = height pixelData ∧
      data out = convertToRGBA (work st) (JS.clamp8 <$> data pixelData) ∧
      exec_result ex = new_ImageData (data out) (width pixelData) (height pixelData)
  | None, None => True
  | _, _ => False
  end.
Proof.
  simpl. unfold ImageProcessor.sortImage, sortImage.
  destruct (sortColumns _ fuel _ _ _ m supplied _) as [st1|]; simpl; [|done].
  destruct (sortRows _ fuel _ _ _ m supplied _) as [st2|]; simpl; [|done].
  done.
Qed.

(** X17. On well-formed pixel data, [sortImage] of the React Native copy
    returns the image that [sortImage] of [pixelSort.js] returns under
    the thresholds the call has stored, and makes the same calls to the
    progress callback except the last one, (100, 'Complete!'), which it
    leaves out. *)
Theorem copy_returns_same_image (fuel : nat) (this : PixelSorter)
    (pixelData : ImageData) (m : mode) (t : ImageProcessor.thresholds)
    (supplied : bool) :
  ImageData_wf pixelData →
  (width pixelData < fuel)%nat → (height pixelData < fuel)%nat →
  let this' := ImageProcessor.updateThresholds this t in
  ∃ ex st out,
    sortImage fuel this' pixelData m supplied = Some ex ∧
    ImageProcessor.sortImage fuel this pixelData m t supplied = Some (this', st, out) ∧
    exec_result ex = Return out ∧
    calls (exec_state ex)
    = calls st ++ (if supplied then [(100%Q, "Complete!")] else []).
Proof.
  intros Hwf Hw Hh this'.
  destruct (sortImage_output fuel this' pixelData m supplied Hwf Hw Hh)
    as (ex & out & Hex & _ & Hres & Hwo & Hho & _).
  pose proof (sortImage_copy fuel this pixelData m t supplied) as Hcopy.
  simpl in Hcopy. fold this' in Hcopy. rewrite Hex in Hcopy.
  destruct (ImageProcessor.sortImage fuel this pixelData m t supplied)
    as [[[sorter st] out']|]; [|done].
  destruct Hcopy as (-> & Hst & Hwo' & Hho' & Hdata & Hres').
  exists ex, st, out'. split; [done|]. split; [done|]. split.
  - rewrite Hres in Hres'. rewrite Hres. f_equal.
    unfold new_ImageData in Hres'. repeat case_match; try done.
    injection Hres' as Hout. rewrite Hout.
    destruct out' as [wo ho dout]. simpl in *. by subst.
  - rewrite Hst, report_calls. by destruct supplied.
Qed.

Lemma copy_returns_same_image_witness :
  let t := {| ImageProcessor.white := Some (-16000000); ImageProcessor.black := None;
              ImageProcessor.bright := Some 0; ImageProcessor.dark := None |} in
  let this' := ImageProcessor.updateThresholds newPixelSorter t in
  ∃ ex st out,
    sortImage 3 this' image_2x2 White true = Some ex ∧
    ImageProcessor.sortImage 3 newPixelSorter image_2x2 White t true
      = Some (this', st, out) ∧
    exec_result ex = Return out ∧
    calls (exec_state ex) = calls st ++ [(100%Q, "Complete!")].
Proof.
  intros t this'.
  apply (copy_returns_same_image 3 newPixelSorter image_2x2 White t true image_2x2_wf);
    simpl; lia.
Defined.



(** X19. The thresholds of the copy are sticky, and 0 cannot be given:
    a call stores the thresholds it is given in the sorter, so a later
    call that gives none behaves as if it had been given the same ones
    again; and a threshold given as 0 counts as not given. *)
Theorem thresholds_sticky (fuel : nat) (this : PixelSorter)
    (pixelData : ImageData) (m : mode) (t : ImageProcessor.thresholds)
    (supplied : bool) sorter st out :
  ImageProcessor.sortImage fuel this pixelData m t supplied = Some (sorter, st, out) →
  (∀ fuel' pixelData' m' supplied',
     ImageProcessor.sortImage fuel' sorter pixelData' m' ImageProcessor.no_thresholds
       supplied'
     = ImageProcessor.sortImage fuel' this pixelData' m' t supplied') ∧
  ImageProcessor.sortImage fuel this pixelData m
    {| ImageProcessor.white := Some 0; ImageProcessor.black := Some 0;
       ImageProcessor.bright := Some 0; ImageProcessor.dark := Some 0 |} supplied
  = ImageProcessor.sortImage fuel this pixelData m ImageProcessor.no_thresholds supplied.
Proof.
  intros Hcall.
  assert (Hsorter : sorter = ImageProcessor.updateThresholds this t).
  { unfold ImageProcessor.sortImage in Hcall.
    destruct (sortColumns _ fuel _ _ _ m supplied _) as [st1|]; simpl in Hcall; [|done].
    destruct (sortRows _ fuel _ _ _ m supplied _) as [st2|]; simpl in Hcall; [|done].
    by injection Hcall as <- _ _. }
  split; [|done].
  intros fuel' pixelData' m' supplied'. subst sorter.
  unfold ImageProcessor.sortImage. by rewrite updateThresholds_none.
Qed.

Lemma thresholds_sticky_witness :
  let t := {| ImageProcessor.white := Some (-16000000); ImageProcessor.black := None;
              ImageProcessor.bright := None; ImageProcessor.dark := None |} in
  ∃ sorter st out,
    ImageProcessor.sortImage 3 newPixelSorter image_2x2 White t false
    = Some (sorter, st, out) ∧
    (∀ fuel' pixelData' m' supplied',
       ImageProcessor.sortImage fuel' sorter pixelData' m'
         ImageProcessor.no_thresholds supplied'
       = ImageProcessor.sortImage fuel' newPixelSorter pixelData' m' t supplied').
Proof.
  intros t.
  destruct (ImageProcessor.sortImage 3 newPixelSorter image_2x2 White t false)
    as [[[sorter st] out]|] eqn:Hcall; [|vm_compute in Hcall; discriminate Hcall].
  exists sorter, st, out. split; [reflexivity|].
  exact (proj1 (thresholds_sticky 3 newPixelSorter image_2x2 White t false
                  sorter st out Hcall)).
Defined.

(** ** The pixel data made from a string *)

Section base64ToPixelData_facts.
Context (base64 : list Z).

Let body := ImageProcessor.base64ToPixelData_body base64.

(** The four bytes the loop writes for pixel [i]. *)
Definition generated_pixel (i : nat) : Z * Z * Z * Z :=
  let baseValue := base64 !! (i `mod` length base64)%nat in
  (ImageProcessor.store8 ((λ v, Z.rem v 256) <$> baseValue),
   ImageProcessor.store8 ((λ v, Z.rem (v * 2) 256) <$> baseValue),
   ImageProcessor.store8 ((λ v, Z.rem (v * 3) 256) <$> baseValue),
   255).

Lemma base64ToPixelData_body_length acc i : length (body acc i) = length acc.
Proof. unfold body, ImageProcessor.base64ToPixelData_body. by rewrite !length_insert. Qed.

Lemma base64ToPixelData_fold_length acc l : length (foldl body acc l) = length acc.
Proof.
  revert acc. induction l as [|i l IH]; intros acc; simpl; [done|].
  by rewrite IH, base64ToPixelData_body_length.
Qed.

Lemma base64ToPixelData_body_frame acc (i j : nat) :
  (j < i * 4 ∨ i * 4 + 3 < j)%nat → body acc i !! j = acc !! j.
Proof.
  intros Hj. unfold body, ImageProcessor.base64ToPixelData_body. cbv zeta.
  rewrite !list_lookup_insert_ne by lia. done.
Qed.

Lemma base64ToPixelData_fold_frame acc (a n j : nat) :
  (j < a * 4)%nat → foldl body acc (seq a n) !! j = acc !! j.
Proof.
  revert acc a. induction n as [|n IH]; intros acc a Hj; simpl; [done|].
  rewrite IH by lia. apply base64ToPixelData_body_frame. lia.
Qed.

Lemma base64ToPixelData_body_lookup acc (i : nat) :
  (i * 4 + 3 < length acc)%nat →
  let '(r, g, b, a) := generated_pixel i in
  body acc i !! (i * 4)%nat = Some r ∧
  body acc i !! (i * 4 + 1)%nat = Some g ∧
  body acc i !! (i * 4 + 2)%nat = Some b ∧
  body acc i !! (i * 4 + 3)%nat = Some a.
Proof.
  intros Hlen. unfold generated_pixel, body, ImageProcessor.base64ToPixelData_body.
  cbv zeta. repeat split.
  - rewrite !list_lookup_insert_ne by lia. apply list_lookup_insert_eq. lia.
  - rewrite !list_lookup_insert_ne by lia. apply list_lookup_insert_eq.
    rewrite length_insert. lia.
  - rewrite !list_lookup_insert_ne by lia. apply list_lookup_insert_eq.
    rewrite !length_insert. lia.
  - apply list_lookup_insert_eq. rewrite !length_insert. lia.
Qed.

Lemma base64ToPixelData_fold_lookup acc (a n i : nat) :
  (i < n)%nat → ((a + i) * 4 + 3 < length acc)%nat →
  let '(r, g, b, al) := generated_pixel (a + i) in
  let out := foldl body acc (seq a n) in
  out !! ((a + i) * 4)%nat = Some r ∧
  out !! ((a + i) * 4 + 1)%nat = Some g ∧
  out !! ((a + i) * 4 + 2)%nat = Some b ∧
  out !! ((a + i) * 4 + 3)%nat = Some al.
Proof.
  revert acc a i. induction n as [|n IH]; intros acc a i Hi Hlen; [lia|].
  destruct i as [|i].
  - rewrite Nat.add_0_r in *. simpl.
    rewrite !base64ToPixelData_fold_frame by lia.
    by apply base64ToPixelData_body_lookup.
  - replace (a + S i)%nat with (S a + i)%nat in * by lia.
    simpl foldl. apply (IH (body acc a) (S a) i); [lia|].
    by rewrite base64ToPixelData_body_length.
Qed.

Lemma base64ToPixelData_lookup (w h i : nat) :
  (i < w * h)%nat →
  let '(r, g, b, a) := generated_pixel i in
  let out := data (ImageProcessor.base64ToPixelData base64 w h) in
  out !! (i * 4)%nat = Some r ∧
  out !! (i * 4 + 1)%nat = Some g ∧
  out !! (i * 4 + 2)%nat = Some b ∧
  out !! (i * 4 + 3)%nat = Some a.
Proof.
  intros Hi. unfold ImageProcessor.base64ToPixelData. cbn [data].
  apply (base64ToPixelData_fold_lookup _ 0 (w * h) i Hi).
  rewrite length_replicate. lia.
Qed.
End base64ToPixelData_facts.

Lemma store8_is_byte v : is_byte (ImageProcessor.store8 v).
Proof. apply clamp8_is_byte. Qed.

Lemma base64ToPixelData_wf base64 (w h : nat) :
  (1 ≤ w)%nat → (1 ≤ h)%nat →
  ImageData_wf (ImageProcessor.base64ToPixelData base64 w h).
Proof.
  intros Hw Hh.
  assert (Hlen : length (data (ImageProcessor.base64ToPixelData base64 w h))
                 = (w * h * 4)%nat).
  { unfold ImageProcessor.base64ToPixelData. cbn [data].
    by rewrite base64ToPixelData_fold_length, length_replicate. }
  split; [done|done|done|].
  apply Forall_by_pixels with (w * h)%nat; [done|].
  intros i k v Hi Hk Hv.
  pose proof (base64ToPixelData_lookup base64 w h i Hi) as Hpix.
  unfold generated_pixel in Hpix. cbv zeta in Hpix.
  destruct Hpix as (Hr & Hg & Hb & Ha).
  change (ImageProcessor.base64ToPixelData base64 w h) with
    {| width := w; height := h;
       data := data (ImageProcessor.base64ToPixelData base64 w h) |} in Hv.
  cbn [data width height] in Hv.
  destruct k as [|[|[|[|k]]]]; [| | | |lia].
  - rewrite Nat.add_0_r in Hv. rewrite Hr in Hv. injection Hv as <-. apply store8_is_byte.
  - rewrite Hg in Hv. injection Hv as <-. apply store8_is_byte.
  - rewrite Hb in Hv. injection Hv as <-. apply store8_is_byte.
  - rewrite Ha in Hv. injection Hv as <-. unfold is_byte. lia.
Qed.

(** X20. For every string and every positive width and height,
    [base64ToPixelData] returns well-formed pixel data.  Every pixel is
    opaque; pixel [i] takes its colour from the code unit [c] of the
    string at position [i] modulo the length of the string: red
    [c mod 256], green [2 c mod 256], blue [3 c mod 256]; and for the
    empty string every pixel is black. *)
Theorem base64ToPixelData_pixels (base64 : list Z) (w h : nat) :
  (1 ≤ w)%nat → (1 ≤ h)%nat →
  let pixelData := ImageProcessor.base64ToPixelData base64 w h in
  ImageData_wf pixelData ∧ width pixelData = w ∧ height pixelData = h ∧
  ∀ i, (i < w * h)%nat →
    data pixelData !! (i * 4 + 3)%nat = Some 255 ∧
    match base64 !! (i `mod` length base64)%nat with
    | Some c =>
        0 ≤ c →
        data pixelData !! (i * 4)%nat = Some (c `mod` 256) ∧
        data pixelData !! (i * 4 + 1)%nat = Some ((c * 2) `mod` 256) ∧
        data pixelData !! (i * 4 + 2)%nat = Some ((c * 3) `mod` 256)
    | None =>
        base64 = [] ∧
        data pixelData !! (i * 4)%nat = Some 0 ∧
        data pixelData !! (i * 4 + 1)%nat = Some 0 ∧
        data pixelData !! (i * 4 + 2)%nat = Some 0
    end.
Proof.
  intros Hw Hh pixelData.
  split; [by apply base64ToPixelData_wf|]. split; [done|]. split; [done|].
  intros i Hi.
  pose proof (base64ToPixelData_lookup base64 w h i Hi) as Hpix.
  unfold generated_pixel in Hpix. cbv zeta in Hpix.
  destruct Hpix as (Hr & Hg & Hb & Ha). fold pixelData in Hr, Hg, Hb, Ha.
  split; [done|].
  destruct (base64 !! (i `mod` length base64)%nat) as [c|] eqn:Hc.
  - intros Hpos. rewrite Hr, Hg, Hb. simpl.
    unfold ImageProcessor.store8. simpl.
    rewrite !Z.rem_mod_nonneg by lia.
    pose proof (Z.mod_pos_bound c 256 ltac:(lia)).
    pose proof (Z.mod_pos_bound (c * 2) 256 ltac:(lia)).
    pose proof (Z.mod_pos_bound (c * 3) 256 ltac:(lia)).
    by rewrite !clamp8_byte by (unfold is_byte; lia).
  - split; [|by rewrite Hr, Hg, Hb].
    destruct base64 as [|c0 base64']; [done|].
    apply lookup_ge_None_1 in Hc.
    pose proof (Nat.mod_upper_bound i (length (c0 :: base64'))) as Hlt.
    simpl in *. lia.
Qed.

Lemma base64ToPixelData_pixels_witness :
  let pixelData := ImageProcessor.base64ToPixelData [105; 86; 66] 2 2 in
  ImageData_wf pixelData ∧
  data pixelData = [105; 210; 59; 255;  86; 172; 2; 255;
                    66; 132; 198; 255;  105; 210; 59; 255].
Proof.
  intros pixelData. split; [|reflexivity].
  apply (base64ToPixelData_pixels [105; 86; 66] 2 2); lia.
Defined.

(** X21. The pixel data [processImage] has sorted: for every string,
    every positive width and height, every mode and all thresholds, it
    is a well-formed image of the given width and height, every
    pixel of which is opaque, and its colours are those of the pixel
    data made from the string, each as many times. *)
Theorem sortedPixelData_opaque (fuel : nat) (this : PixelSorter)
    (base64 : list Z) (w h : nat) (m : mode) (t : ImageProcessor.thresholds) :
  (1 ≤ w)%nat → (1 ≤ h)%nat → (w < fuel)%nat → (h < fuel)%nat →
  ∃ sorter st out,
    ImageProcessor.sortedPixelData fuel this base64 w h m t
    = Some (sorter, st, out) ∧
    width out = w ∧ height out = h ∧ ImageData_wf out ∧
    (∀ i, (i < w * h)%nat → data out !! (i * 4 + 3)%nat = Some 255) ∧
    pixel_colours (data out) (w * h)
    ≡ₚ pixel_colours (data (ImageProcessor.base64ToPixelData base64 w h)) (w * h).
Proof.
  intros Hw1 Hh1 Hw Hh. unfold ImageProcessor.sortedPixelData.
  set (pixelData := ImageProcessor.base64ToPixelData base64 w h).
  set (this' := ImageProcessor.updateThresholds this t).
  assert (Hwf : ImageData_wf pixelData) by (by apply base64ToPixelData_wf).
  destruct (sortImage_output fuel this' pixelData m true Hwf Hw Hh)
    as (ex & out & Hex & Hpost & Hres & Hwo & Hho & Hlen & Hout).
  pose proof (sortImage_copy fuel this pixelData m t true) as Hcopy.
  simpl in Hcopy. fold this' in Hcopy. rewrite Hex in Hcopy.
  destruct (ImageProcessor.sortImage fuel this pixelData m t true)
    as [[[sorter st] out']|]; [|done].
  destruct Hcopy as (-> & Hst & Hwo' & Hho' & Hdata & Hres').
  assert (out' = out) as ->.
  { rewrite Hres in Hres'. unfold new_ImageData in Hres'.
    repeat case_match; try done. injection Hres' as Heq. rewrite Heq.
    destruct out' as [wo ho dout]. simpl in *. by subst. }
  exists this', st, out. split; [done|]. split; [done|]. split; [done|].
  assert (Hbytes : Forall is_packed (work (exec_state ex))).
  { rewrite (post_permutation _ _ _ Hpost).
    apply convertToRGB_packed, clamp8_fmap_bytes. }
  split; [|split].
  - destruct Hwf as [_ _ Hlength Hb].
    split; [by rewrite Hwo|by rewrite Hho|by rewrite Hwo, Hho, Hlen|].
    apply Forall_by_pixels with (w * h)%nat; [by rewrite Hlen|].
    intros i k v Hi Hk Hv.
    destruct (Hout i Hi) as (c & Hc & Hr & Hg & Hbl & Ha).
    assert (Hpacked : is_packed c) by (by eapply Forall_lookup_1 in Hbytes).
    destruct (unpack_bytes c Hpacked) as (Br & Bg & Bb).
    destruct k as [|[|[|[|k]]]]; [| | | |lia].
    + rewrite Nat.add_0_r in Hv. congruence.
    + congruence.
    + congruence.
    + rewrite Ha in Hv. by eapply Forall_lookup_1 in Hb.
  - intros i Hi. destruct (Hout i Hi) as (c & _ & _ & _ & _ & ->).
    pose proof (base64ToPixelData_lookup base64 w h i Hi) as Hpix.
    unfold generated_pixel in Hpix. cbv zeta in Hpix. by destruct Hpix as (_ & _ & _ & ?).
  - rewrite (pixel_colours_unpacked (data out) (work (exec_state ex))).
    + rewrite (pixel_colours_unpacked (data pixelData)
                 (convertToRGB (data pixelData) w h)).
      * apply fmap_Permutation. rewrite (post_permutation _ _ _ Hpost).
        by rewrite (clamp8_bytes _ (wf_bytes _ Hwf)).
      * apply convertToRGB_length.
      * intros i Hi. by apply (convertToRGB_unpack pixelData).
    + apply (post_length _ _ _ Hpost).
    + intros i Hi. destruct (Hout i Hi) as (c & Hc & Hr & Hg & Hb & _).
      by exists c.
Qed.

Lemma sortedPixelData_opaque_witness :
  ∃ sorter st out,
    ImageProcessor.sortedPixelData 3 newPixelSorter [105; 86; 66] 2 2 Black
      ImageProcessor.no_thresholds
    = Some (sorter, st, out) ∧
    width out = 2%nat ∧ height out = 2%nat ∧ ImageData_wf out ∧
    (∀ i, (i < 2 * 2)%nat → data out !! (i * 4 + 3)%nat = Some 255) ∧
    pixel_colours (data out) (2 * 2)
    ≡ₚ pixel_colours
         (data (ImageProcessor.base64ToPixelData [105; 86; 66] 2 2)) (2 * 2).
Proof.
  apply (sortedPixelData_opaque 3 newPixelSorter [105; 86; 66] 2 2 Black
           ImageProcessor.no_thresholds); lia.
Defined.

(** The copy returns whenever the original does. *)
Lemma copy_returns fuel this pixelData m t supplied :
  (width pixelData < fuel)%nat → (height pixelData < fuel)%nat →
  ∃ st out,
    ImageProcessor.sortImage fuel this pixelData m t supplied
    = Some (ImageProcessor.updateThresholds this t, st, out).
Proof.
  intros Hw Hh.
  destruct (sortImage_post fuel (ImageProcessor.updateThresholds this t)
              pixelData m supplied Hw Hh) as (ex & Hex & _).
  pose proof (sortImage_copy fuel this pixelData m t supplied) as Hcopy.
  simpl in Hcopy. rewrite Hex in Hcopy.
  destruct (ImageProcessor.sortImage fuel this pixelData m t supplied)
    as [[[sorter st] out]|]; [|done].
  destruct Hcopy as (-> & _). by exists st, out.
Qed.

(** ** The progress of [processImage] *)

(** The calls [sortImage] of the copy makes to its callback: those of
    [pixelSort.js] but the last. *)
Definition sorting_reports (w h : Z) : list (Q * string) :=
  [(0%Q, "Sorting columns...")]
  ++ line_reports true (column_percent w) "Sorting columns..." (seqZ 0 (w - 1))
  ++ [(50%Q, "Sorting rows...")]
  ++ line_reports true (row_percent h) "Sorting rows..." (seqZ 0 (h - 1)).

(** A call of [sortImage] as [processImage] passes it on. *)
Definition forwarded (call : Q * string) : Q * string :=
  ((30 + call.1 * (6 # 10))%Q, call.2).

Lemma all_reports_sorting_reports w h :
  all_reports true w h = sorting_reports w h ++ [(100%Q, "Complete!")].
Proof. unfold all_reports, sorting_reports. by rewrite <-!app_assoc. Qed.

Lemma forward_supplied inner log :
  ImageProcessor.forward true inner log = log ++ (forwarded <$> inner).
Proof.
  revert log. induction inner as [|call inner IH]; intros log; simpl.
  - by rewrite app_nil_r.
  - unfold ImageProcessor.forward in *. simpl. rewrite IH.
    by rewrite <-app_assoc.
Qed.

Lemma forward_not_supplied inner log : ImageProcessor.forward false inner log = log.
Proof.
  revert log. induction inner as [|call inner IH]; intros log; [done|].
  unfold ImageProcessor.forward in *. simpl. apply IH.
Qed.

Lemma forwarded_mono (p q : Q) :
  (p <= q)%Q → (30 + p * (6 # 10) <= 30 + q * (6 # 10))%Q.
Proof. intros Hpq. apply Qplus_le_r. by apply Qmult_le_compat_r. Qed.

Lemma forwarded_sorted (cs : list (Q * string)) :
  StronglySorted Qle cs.*1 → between 0 100 cs.*1 →
  StronglySorted Qle (forwarded <$> cs).*1 ∧ between 30 90 (forwarded <$> cs).*1.
Proof.
  intros Hsorted Hbetween.
  assert (Hfst : (forwarded <$> cs).*1 = (λ p, 30 + p * (6 # 10))%Q <$> cs.*1).
  { rewrite <-!list_fmap_compose. by apply list_fmap_ext. }
  rewrite Hfst. split.
  - apply StronglySorted_fmap with (R1 := Qle); [|done].
    intros p q. apply forwarded_mono.
  - apply Forall_fmap. eapply Forall_impl; [exact Hbetween|].
    intros p [Hlo Hhi]. simpl. split.
    + apply Qle_trans with (30 + 0 * (6 # 10))%Q; [done|by apply forwarded_mono].
    + apply Qle_trans with (30 + 100 * (6 # 10))%Q; [by apply forwarded_mono|done].
Qed.

(** The calls of the copy, with a callback. *)
Lemma copy_calls fuel this pixelData m t sorter st out :
  (width pixelData < fuel)%nat → (height pixelData < fuel)%nat →
  ImageProcessor.sortImage fuel this pixelData m t true = Some (sorter, st, out) →
  calls st = sorting_reports (Z.of_nat (width pixelData)) (Z.of_nat (height pixelData)).
Proof.
  intros Hw Hh Hcall.
  destruct (sortImage_post fuel (ImageProcessor.updateThresholds this t)
              pixelData m true Hw Hh) as (ex & Hex & Hpost).
  pose proof (sortImage_copy fuel this pixelData m t true) as Hcopy.
  simpl in Hcopy. rewrite Hex, Hcall in Hcopy.
  destruct Hcopy as (_ & Hst & _).
  pose proof (post_calls _ _ _ Hpost) as Hcalls.
  rewrite Hst, report_calls, all_reports_sorting_reports in Hcalls.
  cbn [andb] in Hcalls. by apply app_inj_tail in Hcalls as [? _].
Qed.

(** X22. [processImage], when the image library and the file system do
    not fail.  With a callback, the calls it makes are 10, 20 and 30,
    then each call of [sortImage] passed on as 30 plus six tenths of its
    percentage, then 90 and 100: the percentages never decrease, lie
    between 10 and 100, and the last call is (100, 'Complete!').
    Without a callback no call is made.  The string written to the file
    is the one of [pixelDataToBase64], the same for every image, mode and
    thresholds.  The percentages are taken as exact rationals. *)
Theorem processImage_progress (fuel : nat) (this : PixelSorter)
    (base64 : list Z) (w h : nat) (m : mode) (t : ImageProcessor.thresholds) :
  (w < fuel)%nat → (h < fuel)%nat →
  ∃ log written,
    ImageProcessor.processImage fuel this base64 w h m t true
    = Some (ImageProcessor.updateThresholds this t, log, written) ∧
    ImageProcessor.processImage fuel this base64 w h m t false
    = Some (ImageProcessor.updateThresholds this t, [], written) ∧
    log = [(10%Q, "Loading image..."); (20%Q, "Converting to pixel data...");
           (30%Q, "Starting pixel sort...")]
          ++ (forwarded <$> sorting_reports (Z.of_nat w) (Z.of_nat h))
          ++ [(90%Q, "Creating final image..."); (100%Q, "Complete!")] ∧
    StronglySorted Qle log.*1 ∧ between 10 100 log.*1 ∧
    last log = Some (100%Q, "Complete!") ∧
    ∀ fuel' this' base64' w' h' m' t' supplied' result,
      ImageProcessor.processImage fuel' this' base64' w' h' m' t' supplied'
      = Some result → result.2 = written.
Proof.
  intros Hw Hh.
  set (pixelData := ImageProcessor.base64ToPixelData base64 w h).
  destruct (copy_returns fuel this pixelData m t true Hw Hh)
    as (st & out & Hcall).
  pose proof (copy_calls fuel this pixelData m t _ st out Hw Hh Hcall) as Hcalls.
  simpl in Hcalls.
  eexists _, _. split; [|split; [|split; [reflexivity|]]].
  - unfold ImageProcessor.processImage. fold pixelData. rewrite Hcall. simpl.
    rewrite forward_supplied, Hcalls. unfold ImageProcessor.notify.
    rewrite <-!app_assoc. reflexivity.
  - unfold ImageProcessor.processImage. fold pixelData. rewrite Hcall. simpl.
    by rewrite forward_not_supplied.
  - pose proof (all_reports_ok (Z.of_nat w) (Z.of_nat h)) as [Hsorted Hrange _ _ _].
    rewrite all_reports_sorting_reports, fmap_app in Hsorted, Hrange.
    apply StronglySorted_app_1_l in Hsorted.
    apply Forall_app in Hrange as [Hrange _].
    destruct (forwarded_sorted _ Hsorted Hrange) as [Hfs Hfb].
    assert (Hhead : StronglySorted Qle [10%Q; 20%Q; 30%Q] ∧ between 10 30 [10%Q; 20%Q; 30%Q]).
    { split; repeat constructor; done. }
    assert (Htail : StronglySorted Qle [90%Q; 100%Q] ∧ between 90 100 [90%Q; 100%Q]).
    { split; repeat constructor; done. }
    destruct (between_app_sorted 30 90 100 _ _ ltac:(done) ltac:(done)
                Hfs (proj1 Htail) Hfb (proj2 Htail)) as [Hs2 Hb2].
    destruct (between_app_sorted 10 30 100 _ _ ltac:(done) ltac:(done)
                (proj1 Hhead) Hs2 (proj2 Hhead) Hb2) as [Hs3 Hb3].
    rewrite !fmap_app. split; [exact Hs3|]. split; [exact Hb3|].
    split.
    + rewrite !app_assoc.
      change [(90%Q, "Creating final image..."); (100%Q, "Complete!")]
        with ([(90%Q, "Creating final image...")] ++ [(100%Q, "Complete!")]).
      rewrite !app_assoc. apply last_snoc.
    + intros fuel' this' base64' w' h' m' t' supplied' result.
      unfold ImageProcessor.processImage.
      destruct (ImageProcessor.sortImage fuel' this' _ m' t' true)
        as [[[sorter' st'] out']|]; simpl; [|done].
      intros Heq. injection Heq as Heq. by rewrite <-Heq.
Qed.

Lemma processImage_progress_witness :
  ∃ log written,
    ImageProcessor.processImage 3 newPixelSorter [105; 86; 66] 2 2 White
      ImageProcessor.no_thresholds true
    = Some (ImageProcessor.updateThresholds newPixelSorter
              ImageProcessor.no_thresholds, log, written) ∧
    StronglySorted Qle log.*1 ∧ between 10 100 log.*1 ∧
    last log = Some (100%Q, "Complete!").
Proof.
  destruct (processImage_progress 3 newPixelSorter [105; 86; 66] 2 2 White
              ImageProcessor.no_thresholds ltac:(lia) ltac:(lia))
    as (log & written & Hrun & _ & _ & Hsorted & Hbetween & Hlast & _).
  by exists log, written.
Defined.
